(** * Native backend: sample ring, stream controller and frame loop

    A shallow embedding of [pc_controller/native_backend/native_backend.cpp]:
    the single-producer single-consumer ring [SpscRing], the [NativeShimmer]
    stream controller with its sampling loop, and the [NativeWebcam] frame
    loop.  [size_t] counters are integers modulo [2^64], [double] is the
    kernel's binary64 float, [std::vector] is a list with checked indices
    (an index outside the vector is undefined behaviour in the source and
    [None] here). *)

From Stdlib Require Import ZArith Lia Floats.
From stdpp Require Import base list strings.

Open Scope Z_scope.

(** ** [size_t] arithmetic *)

Module Word.

Definition modulus : Z := 2 ^ 64.

(** Reduction of an integer to the range of [size_t]. *)
Definition wrap (z : Z) : Z := z mod modulus.

End Word.

Import Word.

(** ** [std::vector<double>] with unchecked [operator[]] *)

Definition vget {A} (b : list A) (i : Z) : option A :=
  if 0 <=? i then b !! Z.to_nat i else None.

Definition vset {A} (b : list A) (i : Z) (x : A) : option (list A) :=
  if (0 <=? i) && (i <? Z.of_nat (length b)) then Some (<[Z.to_nat i := x]> b)
  else None.

(** ** The sample ring [SpscRing] *)

Module Ring.

(** One [(t, value)] pair as [pop_all] returns it. *)
Definition sample : Type := float * float.

Record SpscRing : Type := mkRing {
  _cap : Z;
  _mask : Z;
  _buf : list float;   (* interleaved t,v *)
  _head : Z;
  _tail : Z
}.

(** [next_pow2]: [p = 1; while (p < v) p <<= 1;] on [size_t].  The shift
    wraps, so for [v > 2^63] the variable [p] reaches [0] and the loop never
    ends; [fuel] bounds the number of iterations and [None] is "still
    running". *)
Fixpoint next_pow2_loop (fuel : nat) (p v : Z) : option Z :=
  if p <? v then
    match fuel with
    | O => None
    | S fuel' => next_pow2_loop fuel' (wrap (Z.shiftl p 1)) v
    end
  else Some p.

Definition next_pow2_fuel (fuel : nat) (v : Z) : option Z :=
  next_pow2_loop fuel 1 v.

(** Sixty-four iterations decide the loop: see [next_pow2_fuel_enough] and
    [next_pow2_diverges]. *)
Definition next_pow2 (v : Z) : option Z := next_pow2_fuel 64 v.

(** The constructor [SpscRing(capacity)]. *)
Definition SpscRing_new (capacity : Z) : option SpscRing :=
  cap ← next_pow2 capacity;
  Some {| _cap := cap;
          _mask := wrap (cap - 1);
          _buf := replicate (Z.to_nat (wrap (cap * 2))) 0%float;
          _head := 0;
          _tail := 0 |}.

(** Index of the slot of counter value [h]: [(h & _mask) * 2]. *)
Definition slot (r : SpscRing) (h : Z) : Z := wrap (Z.land h (_mask r) * 2).

(** [push(t, v)]. *)
Definition push (t v : float) (r : SpscRing) : option SpscRing :=
  let h := _head r in
  let n := wrap (h + 1) in
  b1 ← vset (_buf r) (wrap (slot r h + 0)) t;
  b2 ← vset b1 (wrap (slot r h + 1)) v;
  let tcur := _tail r in
  Some {| _cap := _cap r;
          _mask := _mask r;
          _buf := b2;
          _head := n;
          _tail := if _cap r <? wrap (n - tcur) then wrap (n - _cap r) else tcur |}.

(** The [for] loop of [pop_all]: [count] iterations remain, [i] is the loop
    variable and [out] the vector built so far. *)
Fixpoint pop_loop (r : SpscRing) (tcur : Z) (count : nat) (i : Z)
    (out : list sample) : option (list sample) :=
  match count with
  | O => Some out
  | S count' =>
      let idx := slot r (wrap (tcur + i)) in
      x ← vget (_buf r) (wrap (idx + 0));
      y ← vget (_buf r) (wrap (idx + 1));
      pop_loop r tcur count' (wrap (i + 1)) (out ++ [(x, y)])
  end.

(** [pop_all()]: the samples read and the ring with its tail advanced.
    The allocation of the result is not part of the model:
    [out.reserve(count)] throws [std::length_error] for a [count] above
    [max_size()] of the vector (at least [2^59 - 1] pairs on a 64-bit
    target), which needs counters further apart than any ring in memory
    has capacity. *)
Definition pop_all (r : SpscRing) : option (list sample * SpscRing) :=
  let tcur := _tail r in
  let h := _head r in
  let count := wrap (h - tcur) in
  out ← pop_loop r tcur (Z.to_nat count) 0 [];
  Some (out, {| _cap := _cap r; _mask := _mask r; _buf := _buf r;
                _head := _head r; _tail := h |}).

(** Pushing a list of samples, first to last. *)
Fixpoint push_all (l : list sample) (r : SpscRing) : option SpscRing :=
  match l with
  | [] => Some r
  | (t, v) :: l' => r' ← push t v r; push_all l' r'
  end.

(** An interleaving of the two roles at the granularity of whole calls. *)
Inductive op : Type :=
  | Push (t v : float)
  | PopAll.

(** The samples a trace pushes, in call order. *)
Fixpoint pushes (ops : list op) : list sample :=
  match ops with
  | [] => []
  | Push t v :: ops' => (t, v) :: pushes ops'
  | PopAll :: ops' => pushes ops'
  end.

(** Running a trace: the vectors returned by the successive [pop_all] calls
    and the final ring. *)
Fixpoint run (ops : list op) (r : SpscRing) : option (list (list sample) * SpscRing) :=
  match ops with
  | [] => Some ([], r)
  | Push t v :: ops' => r' ← push t v r; run ops' r'
  | PopAll :: ops' =>
      '(out, r') ← pop_all r;
      '(outs, r'') ← run ops' r';
      Some (out :: outs, r'')
  end.

(** Number of unread samples as [pop_all] computes it. *)
Definition unread (r : SpscRing) : Z := wrap (_head r - _tail r).

(** "[pop_all] is called at least once per [c] pushes": no more than [c]
    pushes in a row; [n] counts the pushes since the last [pop_all]. *)
Fixpoint timely (c : Z) (n : Z) (ops : list op) : bool :=
  match ops with
  | [] => true
  | Push _ _ :: ops' => (n + 1 <=? c) && timely c (n + 1) ops'
  | PopAll :: ops' => timely c 0 ops'
  end.

(** The scenario of the specification: timestamps [0..11] with value equal
    to the timestamp, pushed into a ring of capacity 8. *)
Definition scenario_input : list sample :=
  [(0, 0); (1, 1); (2, 2); (3, 3); (4, 4); (5, 5);
   (6, 6); (7, 7); (8, 8); (9, 9); (10, 10); (11, 11)]%float.

Definition scenario_output : list sample :=
  [(4, 4); (5, 5); (6, 6); (7, 7); (8, 8); (9, 9); (10, 10); (11, 11)]%float.

(** The ring the constructor builds for a requested capacity of 8, and of 2. *)
Definition ring8 : SpscRing :=
  {| _cap := 8; _mask := 7; _buf := replicate 16 0%float; _head := 0; _tail := 0 |}.

Definition ring2 : SpscRing :=
  {| _cap := 2; _mask := 1; _buf := replicate 4 0%float; _head := 0; _tail := 0 |}.

(** A short trace in which the consumer keeps up with a ring of capacity 2. *)
Definition sample_trace : list op :=
  [Push 1 10; Push 2 20; PopAll; Push 3 30; PopAll; PopAll; Push 4 40]%float.

(** The class invariant of a ring: a power-of-two capacity with its mask
    and a buffer of two doubles per slot. *)
Definition wf (r : SpscRing) : Prop :=
  exists k, 0 <= k <= 62 /\ _cap r = 2 ^ k /\ _mask r = 2 ^ k - 1 /\
            Z.of_nat (length (_buf r)) = 2 * 2 ^ k.

(** Slot [i mod _cap] of the buffer holds the sample [s]. *)
Definition holds (r : SpscRing) (i : Z) (s : sample) : Prop :=
  vget (_buf r) (2 * (i mod _cap r)) = Some s.1 /\
  vget (_buf r) (2 * (i mod _cap r) + 1) = Some s.2.

(** The ring against its history: [hist] is every sample pushed so far and
    [T] the number of them already consumed or dropped.  The counters are
    the lengths modulo [2^64] and the unread samples sit in their slots. *)
Record ring_inv (r : SpscRing) (hist : list sample) (T : nat) : Prop := {
  inv_wf : wf r;
  inv_head : _head r = wrap (Z.of_nat (length hist));
  inv_tail : _tail r = wrap (Z.of_nat T);
  inv_le : (T <= length hist)%nat;
  inv_span : Z.of_nat (length hist) - Z.of_nat T <= _cap r;
  inv_slots : forall (i : nat) s,
    (T <= i)%nat -> hist !! i = Some s -> holds r (Z.of_nat i) s
}.

(** The samples of [hist] at positions [a, a+1, ..., b-1]. *)
Definition segment (hist : list sample) (ab : nat * nat) : list sample :=
  take (ab.2 - ab.1) (drop ab.1 hist).

(** Position ranges that follow one another between [lo] and [hi] without
    overlap. *)
Fixpoint ordered (lo : nat) (segs : list (nat * nat)) (hi : nat) : Prop :=
  match segs with
  | [] => (lo <= hi)%nat
  | (a, b) :: segs' => (lo <= a)%nat /\ (a <= b)%nat /\ ordered b segs' hi
  end.

End Ring.

Import Ring.


(** ** The stream controller [NativeShimmer] *)

Module Shimmer.

(** How a call ends: it returns, throws [std::runtime_error(what)], ends the
    process through [std::terminate] (assignment to a joinable
    [std::thread]), or runs into undefined behaviour of the ring. *)
Inductive outcome (A : Type) : Type :=
  | Returns (a : A)
  | Throws (what : string)
  | Terminates
  | Undefined.
Arguments Returns {A} a.
Arguments Throws {A} what.
Arguments Terminates {A}.
Arguments Undefined {A}.

(** The execution context behind a joinable [_thread]: it has not entered
    the loop of [run_loop] yet, it is in the loop with its local variables
    [phase] and [t_next], or [run_loop] has returned. *)
Inductive context : Type :=
  | Starting
  | Looping (phase : float) (t_next : Z)
  | Finished.

Record NativeShimmer : Type := mkShimmer {
  _port : string;
  _running : bool;
  _connected : bool;
  _thread : option context;   (* [Some]: joinable *)
  _queue : SpscRing;
  _rng : Z;                   (* uint32_t *)
  spawned : nat;              (* execution contexts created so far *)
  joined : nat;               (* execution contexts joined so far *)
  stdout : list string        (* lines written to std::cout *)
}.

Definition set_connection (port : string) (c : bool) (s : NativeShimmer) : NativeShimmer :=
  {| _port := port; _running := _running s; _connected := c; _thread := _thread s;
     _queue := _queue s; _rng := _rng s; spawned := spawned s; joined := joined s;
     stdout := stdout s |}.

Definition set_running (b : bool) (s : NativeShimmer) : NativeShimmer :=
  {| _port := _port s; _running := b; _connected := _connected s; _thread := _thread s;
     _queue := _queue s; _rng := _rng s; spawned := spawned s; joined := joined s;
     stdout := stdout s |}.

Definition set_context (c : context) (s : NativeShimmer) : NativeShimmer :=
  {| _port := _port s; _running := _running s; _connected := _connected s;
     _thread := Some c;
     _queue := _queue s; _rng := _rng s; spawned := spawned s; joined := joined s;
     stdout := stdout s |}.

(** [_thread = std::thread(...)] on a handle that is not joinable. *)
Definition spawn (s : NativeShimmer) : NativeShimmer :=
  {| _port := _port s; _running := _running s; _connected := _connected s;
     _thread := Some Starting;
     _queue := _queue s; _rng := _rng s; spawned := S (spawned s); joined := joined s;
     stdout := stdout s |}.

(** [_thread.join()] once the context has finished. *)
Definition join (s : NativeShimmer) : NativeShimmer :=
  {| _port := _port s; _running := _running s; _connected := _connected s;
     _thread := None;
     _queue := _queue s; _rng := _rng s; spawned := spawned s; joined := S (joined s);
     stdout := stdout s |}.

Definition set_queue (q : SpscRing) (rng : Z) (s : NativeShimmer) : NativeShimmer :=
  {| _port := _port s; _running := _running s; _connected := _connected s;
     _thread := _thread s;
     _queue := q; _rng := rng; spawned := spawned s; joined := joined s;
     stdout := stdout s |}.

Definition print (line : string) (s : NativeShimmer) : NativeShimmer :=
  {| _port := _port s; _running := _running s; _connected := _connected s;
     _thread := _thread s;
     _queue := _queue s; _rng := _rng s; spawned := spawned s; joined := joined s;
     stdout := stdout s ++ [line] |}.

(** The constructor [NativeShimmer()]. *)
Definition NativeShimmer_new : option NativeShimmer :=
  q ← SpscRing_new 4096;
  Some {| _port := ""; _running := false; _connected := false; _thread := None;
          _queue := q; _rng := 0x12345678; spawned := 0; joined := 0; stdout := [] |}.

(** The two errors of the lifecycle calls, each a [std::runtime_error]. *)
Definition ConnectionError (port : string) : string :=
  "Failed to connect to Shimmer device at port: " +:+ port.

Definition NotConnectedError : string :=
  "Shimmer not connected. Call connect() first.".

(** [connect(port)]. *)
Definition connect (port : string) (s : NativeShimmer) : outcome unit * NativeShimmer :=
  let s1 := set_connection port (negb (String.eqb port "FAIL")) s in
  if negb (_connected s1) then (Throws (ConnectionError port), s1)
  else (Returns (), print ("Shimmer connected to " +:+ port +:+ " (simulated)") s1).

(** [start_streaming()]. *)
Definition start_streaming (s : NativeShimmer) : outcome unit * NativeShimmer :=
  if negb (_connected s) then (Throws NotConnectedError, s)
  else if _running s then (Returns (), s)
  else
    let s1 := set_running true s in
    match _thread s1 with
    | Some _ => (Terminates, s1)
    | None => (Returns (), print "Shimmer streaming started" (spawn s1))
    end.

(** The loop context once it reads [_running] as [false]: [run_loop]
    returns. *)
Definition loop_exit (s : NativeShimmer) : NativeShimmer :=
  match _thread s with
  | Some _ => set_context Finished s
  | None => s
  end.

(** [stop_streaming()]: the flag is cleared, and a joinable thread is
    joined, which waits for the context to leave its loop. *)
Definition stop_streaming (s : NativeShimmer) : outcome unit * NativeShimmer :=
  let s1 := set_running false s in
  let s2 := match _thread s1 with
            | Some _ => join (loop_exit s1)
            | None => s1
            end in
  (Returns (), print "Shimmer streaming stopped" s2).

(** [get_latest_samples()]. *)
Definition get_latest_samples (s : NativeShimmer)
    : outcome (list sample) * NativeShimmer :=
  match pop_all (_queue s) with
  | Some (out, q) => (Returns out, set_queue q (_rng s) s)
  | None => (Undefined, s)
  end.

Definition is_connected (s : NativeShimmer) : bool := _connected s.

Definition get_device_info (s : NativeShimmer) : string :=
  if negb (_connected s) then "Not connected"
  else "Shimmer3 GSR+ (Simulated) - Port: " +:+ _port s +:+ " - Sample Rate: 128 Hz".

(** *** The sampling loop [run_loop] *)

(** [std::max(a, b)] is [(a < b) ? b : a]. *)
Definition std_max (a b : float) : float := if (a <? b)%float then b else a.

Definition two_pi : float := 0x1.921fb54442d18p+2%float.   (* 6.283185307179586 *)
Definition rate : float := 128%float.
Definition dt : float := (1 / rate)%float.
Definition point1 : float := 0x1.999999999999ap-4%float.   (* the literal 0.1 *)
Definition point2 : float := 0x1.999999999999ap-3%float.   (* the literal 0.2 *)

(** [steady_clock] counts nanoseconds; [dt] seconds are this many ticks. *)
Definition ticks_per_second : Z := 1000000000.
Definition period_ticks : Z := 7812500.

(** [std::chrono::duration<double>(now.time_since_epoch()).count()]: the
    signed tick count converted to [double] and divided by the ticks of a
    second. *)
Definition seconds_of (now : Z) : float :=
  let ticks := if now <? 0 then (- of_uint63 (Uint63.of_Z (- now)))%float
               else of_uint63 (Uint63.of_Z now) in
  (ticks / of_uint63 (Uint63.of_Z ticks_per_second))%float.

(** [_rng = 1664525u * _rng + 1013904223u] on [uint32_t]. *)
Definition lcg (rng : Z) : Z := (1664525 * rng + 1013904223) mod 2 ^ 32.

Section Loop.

(** [std::sin] of the C library. *)
Variable sin : float -> float.

(** The value pushed by one iteration of the loop. *)
Definition gsr_sample (phase : float) (rng : Z) : float :=
  let baseline_gsr := (8 + 2 * sin (phase * point1))%float in
  let respiratory_component := (1.5 * sin (phase * 0.5))%float in
  let cardiac_component := (0.5 * sin (phase * 2))%float in
  let noise :=
    ((of_uint63 (Uint63.of_Z (Z.shiftr rng 16)) / 32768 - 1) * point2)%float in
  let gsr_value :=
    (baseline_gsr + respiratory_component + cardiac_component + noise)%float in
  std_max point1 gsr_value.

Definition next_phase (phase : float) : float :=
  let phase' := (phase + two_pi * dt)%float in
  if (two_pi <? phase')%float then (phase' - two_pi)%float else phase'.

(** One scheduling of the loop context with the clock reading [now]: it
    enters the loop, leaves it when [_running] is false, sleeps when the
    deadline is ahead, or samples, pushes and advances the deadline. *)
Definition loop_step (now : Z) (s : NativeShimmer) : outcome unit * NativeShimmer :=
  match _thread s with
  | Some Starting => (Returns (), set_context (Looping 0 now) s)
  | Some (Looping phase t_next) =>
      if negb (_running s) then (Returns (), loop_exit s)
      else if now <? t_next then (Returns (), s)
      else
        let t := seconds_of now in
        let rng := lcg (_rng s) in
        match push t (gsr_sample phase rng) (_queue s) with
        | Some q =>
            (Returns (),
             set_context (Looping (next_phase phase) (t_next + period_ticks))
                         (set_queue q rng s))
        | None => (Undefined, s)
        end
  | Some Finished => (Returns (), s)
  | None => (Returns (), s)
  end.

(** The calls of a session: the caller's, and the schedulings of the loop
    context. *)
Inductive call : Type :=
  | Connect (port : string)
  | Start
  | Stop
  | GetLatestSamples
  | LoopStep (now : Z).

(** What the caller sees of a call. *)
Inductive response : Type :=
  | Done
  | Failed (what : string)
  | Samples (l : list sample)
  | Crashed.

Definition respond {A} (f : A -> response) (o : outcome A) : response :=
  match o with
  | Returns a => f a
  | Throws what => Failed what
  | Terminates | Undefined => Crashed
  end.

Definition exec (c : call) (s : NativeShimmer) : response * NativeShimmer :=
  match c with
  | Connect port => let '(o, s') := connect port s in (respond (fun _ => Done) o, s')
  | Start => let '(o, s') := start_streaming s in (respond (fun _ => Done) o, s')
  | Stop => let '(o, s') := stop_streaming s in (respond (fun _ => Done) o, s')
  | GetLatestSamples => let '(o, s') := get_latest_samples s in (respond Samples o, s')
  | LoopStep now => let '(o, s') := loop_step now s in (respond (fun _ => Done) o, s')
  end.

(** A session: the responses in call order and the final state. *)
Fixpoint session (cs : list call) (s : NativeShimmer) : list response * NativeShimmer :=
  match cs with
  | [] => ([], s)
  | c :: cs' =>
      let '(r, s1) := exec c s in
      let '(rs, s2) := session cs' s1 in
      (r :: rs, s2)
  end.

End Loop.

(** The lifecycle state of the specification, read off the two flags with
    the test of [start_streaming] first: not connected is [Disconnected]. *)
Inductive lifecycle : Type := Disconnected | Connected | Running.

Definition state_of (s : NativeShimmer) : lifecycle :=
  if negb (_connected s) then Disconnected
  else if _running s then Running else Connected.

(** Execution contexts that were created and not joined. *)
Definition live (s : NativeShimmer) : nat := spawned s - joined s.

(** What a caller can observe of a stream: everything but the log. *)
Definition observable (s : NativeShimmer)
    : string * bool * bool * option context * SpscRing * Z * nat * nat :=
  (_port s, _running s, _connected s, _thread s, _queue s, _rng s, spawned s, joined s).

(** The stream the constructor builds. *)
Definition shimmer0 : NativeShimmer :=
  {| _port := ""; _running := false; _connected := false; _thread := None;
     _queue := {| _cap := 4096; _mask := 4095; _buf := replicate (Z.to_nat 8192) 0%float;
                  _head := 0; _tail := 0 |};
     _rng := 0x12345678; spawned := 0; joined := 0; stdout := [] |}.

(** The stream against the history of its queue: the flag and the thread
    handle agree, one context at most is live, and every sample pushed so
    far is at least [0.1]. *)
Record shimmer_inv (s : NativeShimmer) (hist : list sample) (T : nat) : Prop := {
  si_thread : _running s = false <-> _thread s = None;
  si_live : spawned s = (joined s + match _thread s with Some _ => 1 | None => 0 end)%nat;
  si_queue : ring_inv (_queue s) hist T;
  si_floor : Forall (fun p : sample => (point1 <=? p.2)%float = true) hist
}.

(** A response that is not a crash and whose samples are all at least [0.1]. *)
Definition sound_response (r : response) : Prop :=
  match r with
  | Crashed => False
  | Samples l => Forall (fun p : sample => (point1 <=? p.2)%float = true) l
  | _ => True
  end.

(** A short session: connect, start, two schedulings of the loop, a read
    and a stop. *)
Definition sample_session : list call :=
  [Connect "COM3"; Start; LoopStep 1000; LoopStep 1000; GetLatestSamples; Stop].

End Shimmer.

(** ** The frame loop [NativeWebcam] *)

Module Webcam.

(** A [cv::Mat] as far as the loop looks at it; bytes are integers in
    [0, 256). *)
Record Mat : Type := mkMat {
  cols : Z;
  rows : Z;
  channels : Z;
  data : list Z
}.

(** [frame.empty()]. *)
Definition empty (m : Mat) : bool :=
  (rows m =? 0) || (cols m =? 0) || bool_decide (data m = []).

Record NativeWebcam : Type := mkWebcam {
  _device_id : Z;
  _running : bool;
  _width : Z;
  _height : Z;
  _buffer : list Z   (* std::vector<uint8_t> *)
}.

(** The constructor [NativeWebcam(device_id)]. *)
Definition NativeWebcam_new (device_id : Z) : NativeWebcam :=
  {| _device_id := device_id; _running := false; _width := 640; _height := 480;
     _buffer := replicate (Z.to_nat (640 * 480 * 3)) 0 |}.

Definition set_buffer (b : list Z) (w : NativeWebcam) : NativeWebcam :=
  {| _device_id := _device_id w; _running := _running w; _width := _width w;
     _height := _height w; _buffer := b |}.

(** [get_latest_frame()]: shape, strides and the bytes of the buffer. *)
Definition get_latest_frame (w : NativeWebcam) : list Z * list Z * list Z :=
  ([_height w; _width w; 3], [_width w * 3; 3; 1], _buffer w).

(** [std::memcpy(dst.data(), src, dst.size())]: reading past the end of
    [src] is undefined. *)
Definition memcpy (dst src : list Z) : option (list Z) :=
  if (length dst <=? length src)%nat then Some (take (length dst) src) else None.

(** What [cap.read(frame)] delivers in one cycle: [None] when it returns
    false. *)
Definition acquisition : Type := option Mat.

(** An acquisition that yields no frame: the read failed or the frame is
    empty. *)
Definition failed (a : acquisition) : bool :=
  match a with
  | None => true
  | Some frame => empty frame
  end.

(** [uint8_t] conversion. *)
Definition u8 (z : Z) : Z := z mod 256.

Section Loop.

(** [cv::resize(frame, frame, cv::Size(w, h))] and
    [cv::cvtColor(frame, bgr, cv::COLOR_GRAY2BGR)] of OpenCV. *)
Variable cv_resize : Mat -> Z -> Z -> Mat.
Variable cv_gray2bgr : Mat -> Mat.

(** One iteration of the capture loop of [run_loop] (the [USE_OPENCV]
    path with an opened camera). *)
Definition capture_cycle (a : acquisition) (w : NativeWebcam) : option NativeWebcam :=
  match a with
  | Some frame =>
      if empty frame then Some w
      else
        let frame1 :=
          if negb (cols frame =? _width w) || negb (rows frame =? _height w)
          then cv_resize frame (_width w) (_height w) else frame in
        if channels frame1 =? 3 then
          b ← memcpy (_buffer w) (data frame1); Some (set_buffer b w)
        else
          b ← memcpy (_buffer w) (data (cv_gray2bgr frame1)); Some (set_buffer b w)
  | None => Some w   (* sleep 5 ms *)
  end.

(** The pixel written at column [x] by the synthetic source.  The source
    computes in [int]; the product stays inside [int] as long as
    [width * 255 < 2^31], as it does for the 640 columns of the
    constructor. *)
Definition gradient (width shift x : Z) : Z :=
  u8 (Z.quot (Z.rem (x + shift) width * 255) width).

(** The inner and outer [for] loops of the synthetic source. *)
Fixpoint fill_row (width shift y : Z) (n : nat) (x : Z) (b : list Z) : option (list Z) :=
  match n with
  | O => Some b
  | S n' =>
      let v := gradient width shift x in
      let idx := (y * width + x) * 3 in
      b1 ← vset b (idx + 0) v;
      b2 ← vset b1 (idx + 1) (u8 (255 - v));
      b3 ← vset b2 (idx + 2) v;
      fill_row width shift y n' (x + 1) b3
  end.

Fixpoint fill_rows (width shift : Z) (n : nat) (y : Z) (b : list Z) : option (list Z) :=
  match n with
  | O => Some b
  | S n' =>
      b1 ← fill_row width shift y (Z.to_nat width) 0 b;
      fill_rows width shift n' (y + 1) b1
  end.

(** One iteration of the synthetic loop of [run_loop]; [shift] is the
    column offset computed from the clock. *)
Definition synthetic_cycle (shift : Z) (w : NativeWebcam) : option NativeWebcam :=
  b ← fill_rows (_width w) shift (Z.to_nat (_height w)) 0 (_buffer w);
  Some (set_buffer b w).

(** Consecutive cycles of the capture loop, one acquisition each. *)
Fixpoint capture_cycles (acqs : list acquisition) (w : NativeWebcam) : option NativeWebcam :=
  match acqs with
  | [] => Some w
  | a :: acqs' => w' ← capture_cycle a w; capture_cycles acqs' w'
  end.

End Loop.

(** A small 2 x 1 frame and a webcam holding it, for evaluation. *)
Definition tiny_frame : Mat :=
  {| cols := 2; rows := 1; channels := 3; data := [10; 20; 30; 40; 50; 60] |}.

Definition tiny_webcam : NativeWebcam :=
  {| _device_id := 0; _running := true; _width := 2; _height := 1;
     _buffer := [0; 0; 0; 0; 0; 0] |}.

Definition empty_frame : Mat := {| cols := 0; rows := 0; channels := 3; data := [] |}.

End Webcam.

(** ** The two roles of the ring, one memory access at a time *)

(** [push] and [pop_all] cut at their accesses to the shared counters and
    buffer, and interleaved by a schedule.  Every access takes effect at
    once for both roles (a sequentially consistent execution). *)
Module Handoff.

(** Where the producer is inside [push]: the locals [h], [n], [tcur] and
    the arguments still needed. *)
Inductive producer : Type :=
  | PIdle
  | PWriteT (h n : Z) (t v : float)   (* [_head] loaded; next: [_buf[..+0] = t] *)
  | PWriteV (h n : Z) (t v : float)   (* next: [_buf[..+1] = v] *)
  | PStoreHead (h n : Z)              (* next: [_head.store(n)] *)
  | PLoadTail (n : Z)                 (* next: [tcur = _tail.load()] *)
  | PCheck (n tcur : Z).              (* next: the test and [_tail.store] *)

(** Where the consumer is inside [pop_all]. *)
Inductive consumer : Type :=
  | CIdle
  | CLoadHead (tcur : Z)                                    (* [_tail] loaded *)
  | CReadT (tcur h count i : Z) (out : list sample)         (* next: [_buf[idx+0]] *)
  | CReadV (tcur h count i : Z) (out : list sample) (x : float)  (* next: [_buf[idx+1]] *)
  | CStoreTail (h : Z) (out : list sample).                 (* next: [_tail.store(h)] *)

Record config : Type := mkConfig {
  ring : SpscRing;
  prod : producer;
  todo : list sample;            (* samples the producer will still push *)
  pushed : list sample;          (* samples handed to [push] so far *)
  cons : consumer;
  results : list (list sample)   (* vectors returned by [pop_all] so far *)
}.

Definition with_buf (b : list float) (r : SpscRing) : SpscRing :=
  {| _cap := _cap r; _mask := _mask r; _buf := b; _head := _head r; _tail := _tail r |}.

Definition with_head (h : Z) (r : SpscRing) : SpscRing :=
  {| _cap := _cap r; _mask := _mask r; _buf := _buf r; _head := h; _tail := _tail r |}.

Definition with_tail (t : Z) (r : SpscRing) : SpscRing :=
  {| _cap := _cap r; _mask := _mask r; _buf := _buf r; _head := _head r; _tail := t |}.

Definition producer_at (p : producer) (r : SpscRing) (c : config) : config :=
  {| ring := r; prod := p; todo := todo c; pushed := pushed c;
     cons := cons c; results := results c |}.

Definition consumer_at (k : consumer) (r : SpscRing) (c : config) : config :=
  {| ring := r; prod := prod c; todo := todo c; pushed := pushed c;
     cons := k; results := results c |}.

(** One access of the producer.  An idle producer with nothing to push
    does nothing. *)
Definition step_producer (c : config) : option config :=
  let r := ring c in
  match prod c with
  | PIdle =>
      match todo c with
      | [] => Some c
      | (t, v) :: rest =>
          let h := _head r in
          Some {| ring := r; prod := PWriteT h (wrap (h + 1)) t v; todo := rest;
                  pushed := pushed c ++ [(t, v)];
                  cons := cons c; results := results c |}
      end
  | PWriteT h n t v =>
      b ← vset (_buf r) (wrap (slot r h + 0)) t;
      Some (producer_at (PWriteV h n t v) (with_buf b r) c)
  | PWriteV h n t v =>
      b ← vset (_buf r) (wrap (slot r h + 1)) v;
      Some (producer_at (PStoreHead h n) (with_buf b r) c)
  | PStoreHead h n => Some (producer_at (PLoadTail n) (with_head n r) c)
  | PLoadTail n => Some (producer_at (PCheck n (_tail r)) r c)
  | PCheck n tcur =>
      Some (producer_at PIdle
              (if _cap r <? wrap (n - tcur) then with_tail (wrap (n - _cap r)) r else r) c)
  end.

(** One access of the consumer.  An idle consumer starts a [pop_all]. *)
Definition step_consumer (c : config) : option config :=
  let r := ring c in
  match cons c with
  | CIdle => Some (consumer_at (CLoadHead (_tail r)) r c)
  | CLoadHead tcur =>
      let h := _head r in
      let count := wrap (h - tcur) in
      Some (consumer_at (if 0 <? count then CReadT tcur h count 0 []
                         else CStoreTail h []) r c)
  | CReadT tcur h count i out =>
      x ← vget (_buf r) (wrap (slot r (wrap (tcur + i)) + 0));
      Some (consumer_at (CReadV tcur h count i out x) r c)
  | CReadV tcur h count i out x =>
      y ← vget (_buf r) (wrap (slot r (wrap (tcur + i)) + 1));
      let out' := out ++ [(x, y)] in
      let i' := wrap (i + 1) in
      Some (consumer_at (if i' <? count then CReadT tcur h count i' out'
                         else CStoreTail h out') r c)
  | CStoreTail h out =>
      Some {| ring := with_tail h r; prod := prod c; todo := todo c;
              pushed := pushed c; cons := CIdle; results := results c ++ [out] |}
  end.

(** Which role moves next. *)
Inductive role : Type := P | C.

Definition step (who : role) (c : config) : option config :=
  match who with
  | P => step_producer c
  | C => step_consumer c
  end.

Fixpoint run (sched : list role) (c : config) : option config :=
  match sched with
  | [] => Some c
  | who :: sched' => c' ← step who c; run sched' c'
  end.

(** A fresh ring, a producer with [input] to push and an idle consumer. *)
Definition start (r : SpscRing) (input : list sample) : config :=
  {| ring := r; prod := PIdle; todo := input; pushed := [];
     cons := CIdle; results := [] |}.

(** The consumer is between the two reads of a slot and the producer
    between the two writes of the same slot. *)
Definition collision (c : config) : bool :=
  match cons c, prod c with
  | CReadV tcur _ _ i _ _, PWriteV h _ _ _ =>
      slot (ring c) (wrap (tcur + i)) =? slot (ring c) h
  | _, _ => false
  end.

(** The configurations an execution passes through, the first one included. *)
Fixpoint visited (sched : list role) (c : config) : list config :=
  c :: match sched with
       | [] => []
       | who :: sched' =>
           match step who c with
           | Some c' => visited sched' c'
           | None => []
           end
       end.

(** Accesses a role still needs to finish the call it is in. *)
Definition producer_left (p : producer) : Z :=
  match p with
  | PIdle => 0
  | PWriteT _ _ _ _ => 5
  | PWriteV _ _ _ _ => 4
  | PStoreHead _ _ => 3
  | PLoadTail _ => 2
  | PCheck _ _ => 1
  end.

Definition consumer_left (k : consumer) : Z :=
  match k with
  | CIdle => 0
  | CLoadHead _ => 0   (* the count is not known yet *)
  | CReadT _ _ count i _ => 2 * (count - i) + 1
  | CReadV _ _ count i _ _ => 2 * (count - i)
  | CStoreTail _ _ => 1
  end.

(** *** Invariants of the interleaved execution *)

(** A push whose [_head.store] is still to come. *)
Definition pending (p : producer) : Z :=
  match p with
  | PWriteT _ _ _ _ | PWriteV _ _ _ _ | PStoreHead _ _ => 1
  | _ => 0
  end.

(** Number of pushes that have stored [_head]: the position the next or
    the current push writes. *)
Definition completed (c : config) : Z :=
  Z.of_nat (length (pushed c)) - pending (prod c).

(** The current push has begun to overwrite its slot. *)
Definition touched (p : producer) : bool :=
  match p with
  | PWriteV _ _ _ _ | PStoreHead _ _ => true
  | _ => false
  end.

(** The loop variables of [pop_all] are within their bounds. *)
Definition control_ok (k : consumer) : Prop :=
  match k with
  | CReadT _ _ count i _ | CReadV _ _ count i _ _ => 0 <= i < count /\ count < modulus
  | _ => True
  end.

(** Well-formed ring and loop variables: what progress needs. *)
Definition sane (c : config) : Prop := wf (ring c) /\ control_ok (cons c).

Definition all_pushed (c : config) (out : list sample) : Prop :=
  Forall (fun p => p ∈ pushed c) out.

(** The locals of the producer against the shared state. *)
Definition producer_ok (c : config) : Prop :=
  let r := ring c in
  let ps := completed c mod _cap r in
  match prod c with
  | PIdle => True
  | PWriteT h n t v =>
      h = _head r /\ n = wrap (h + 1) /\ last (pushed c) = Some (t, v)
  | PWriteV h n t v =>
      h = _head r /\ n = wrap (h + 1) /\ last (pushed c) = Some (t, v) /\
      vget (_buf r) (2 * ps) = Some t
  | PStoreHead h n =>
      h = _head r /\ n = wrap (h + 1) /\
      exists t v, last (pushed c) = Some (t, v) /\
                  vget (_buf r) (2 * ps) = Some t /\ vget (_buf r) (2 * ps + 1) = Some v
  | PLoadTail n => n = _head r
  | PCheck n tcur => n = _head r /\ (completed c < _cap r -> 0 <= tcur <= n)
  end.

(** The locals of the consumer against the shared counters, while the
    counters are still below the capacity. *)
Definition consumer_pos (c : config) : Prop :=
  let r := ring c in
  match cons c with
  | CIdle => True
  | CLoadHead tcur => completed c < _cap r -> 0 <= tcur <= _head r
  | CReadT tcur h count _ _ | CReadV tcur h count _ _ _ =>
      completed c < _cap r -> 0 <= tcur /\ tcur + count <= _head r /\ 0 <= h <= _head r
  | CStoreTail h _ => completed c < _cap r -> 0 <= h <= _head r
  end.

(** What the consumer has read: the pairs collected so far were pushed,
    and between the two reads of a slot the timestamp read and the value
    still in the buffer belong to one pushed sample. *)
Definition consumer_data (c : config) : Prop :=
  let r := ring c in
  match cons c with
  | CIdle | CLoadHead _ => True
  | CReadT _ _ _ _ out | CStoreTail _ out => all_pushed c out
  | CReadV tcur _ _ i out x =>
      all_pushed c out /\
      exists s, s ∈ pushed c /\ s.1 = x /\
                vget (_buf r) (2 * ((tcur + i) mod _cap r) + 1) = Some s.2
  end.

(** The invariant of an execution; [ok] stands for "no collision so far"
    and guards what is known about the pairs read. *)
Record inv (ok : Prop) (c : config) : Prop := {
  inv_sane : sane c;
  inv_completed : 0 <= completed c;
  inv_head : _head (ring c) = wrap (completed c);
  inv_tail : completed c < _cap (ring c) -> 0 <= _tail (ring c) <= _head (ring c);
  (* the last [_cap] completed pushes are in their slots, the oldest of
     them only until the current push touches its slot *)
  inv_visible : forall (p : nat) s,
    pushed c !! p = Some s ->
    completed c - _cap (ring c) <= Z.of_nat p < completed c ->
    (touched (prod c) = true -> completed c - _cap (ring c) < Z.of_nat p) ->
    holds (ring c) (Z.of_nat p) s;
  inv_prod : producer_ok c;
  inv_cons : consumer_pos c;
  inv_data : ok -> consumer_data c;
  inv_results : ok -> Forall (all_pushed c) (results c)
}.

(** The overrun of the specification's own scenario ring, made small: a
    ring of capacity 2 holding two unread samples, a [pop_all] that has
    read the first timestamp, and a third push landing on the same slot. *)
Definition torn_input : list sample := [(1, 10); (2, 20); (3, 30)]%float.

Definition torn_schedule : list role :=
  [P; P; P; P; P; P;      (* push (1, 10) *)
   P; P; P; P; P; P;      (* push (2, 20) *)
   C; C; C;               (* pop_all: tail, head, timestamp of slot 0 *)
   P; P; P;               (* push (3, 30): head, timestamp and value into slot 0 *)
   C; C; C; C].           (* pop_all: value of slot 0, slot 1, tail *)

(** The third push stores [_head] and the consumer runs a whole [pop_all]
    before the push has loaded and advanced [_tail]. *)
Definition repeat_schedule : list role :=
  [P; P; P; P; P; P;      (* push (1, 10) *)
   P; P; P; P; P; P;      (* push (2, 20) *)
   P; P; P; P;            (* push (3, 30) up to [_head.store] *)
   C; C; C; C; C; C; C; C; C;   (* a whole pop_all of three positions *)
   P; P].                 (* the push loads and tests [_tail] *)

(** A schedule without overrun on the same ring: two pushes, then a
    [pop_all] interleaved with the third push, which lands on a free
    slot only after the [pop_all] has read it. *)
Definition calm_schedule : list role :=
  [P; P; P; P; P; P; P; P; P; P; P; P;
   C; C; C; C; P; C; C; C; P; P; P; P; P].

End Handoff.

(** ** What a read that races with a write can still be trusted for *)

Module Parts.
Import Handoff.

(** Both components of [p] were handed to [push], possibly with two
    different samples. *)
Definition from_parts (l : list sample) (p : sample) : Prop :=
  (exists s, s ∈ l /\ s.1 = p.1) /\ (exists s, s ∈ l /\ s.2 = p.2).

Definition consumer_parts (c : config) : Prop :=
  match cons c with
  | CIdle | CLoadHead _ => True
  | CReadT _ _ _ _ out | CStoreTail _ out => Forall (from_parts (pushed c)) out
  | CReadV _ _ _ _ out x =>
      Forall (from_parts (pushed c)) out /\ exists s, s ∈ pushed c /\ s.1 = x
  end.

(** Every slot below the head holds components of pushed samples, also
    while a push is overwriting it, and so does everything the consumer
    has read. *)
Record parts_inv (input : list sample) (c : config) : Prop := {
  parts_input : pushed c ++ todo c = input;
  parts_buf : forall j,
    0 <= j < _cap (ring c) ->
    (completed c < _cap (ring c) -> j < completed c) ->
    exists x y, vget (_buf (ring c)) (2 * j) = Some x /\
                vget (_buf (ring c)) (2 * j + 1) = Some y /\
                from_parts (pushed c) (x, y);
  parts_cons : consumer_parts c;
  parts_results : Forall (Forall (from_parts (pushed c))) (results c)
}.

End Parts.

(** ** The frame of the synthetic source *)

Module Synthetic.
Import Webcam.

(** The three bytes of the pixel at [idx] as the inner loop writes them
    for the value [v]. *)
Definition pixel_is (b : list Z) (idx v : Z) : Prop :=
  vget b idx = Some v /\ vget b (idx + 1) = Some (u8 (255 - v)) /\ vget b (idx + 2) = Some v.

End Synthetic.

(** ** The capture thread of [NativeWebcam] *)

Module Capture.
Import Webcam.

(** The loop of [run_loop] a capture thread is in: the capture loop of an
    opened camera, or the synthetic source. *)
Inductive source : Type := Camera | Synthetic.

(** [NativeWebcam] with its thread handle; [spawned] and [joined] count
    the threads created and joined so far. *)
Record Capture : Type := mkCapture {
  webcam : NativeWebcam;
  _thread : option source;   (* [Some]: joinable *)
  spawned : nat;
  joined : nat
}.

Definition Capture_new (device_id : Z) : Capture :=
  {| webcam := NativeWebcam_new device_id; _thread := None; spawned := 0; joined := 0 |}.

Definition set_running (b : bool) (w : NativeWebcam) : NativeWebcam :=
  {| _device_id := _device_id w; _running := b; _width := _width w;
     _height := _height w; _buffer := _buffer w |}.

Definition with_webcam (w : NativeWebcam) (c : Capture) : Capture :=
  {| webcam := w; _thread := _thread c; spawned := spawned c; joined := joined c |}.

(** [start_capture()]; [opened] is what [cap.isOpened()] answers in the
    new thread ([false] in a build without OpenCV).  Assigning to a
    joinable [std::thread] ends the process. *)
Definition start_capture (opened : bool) (c : Capture) : Shimmer.outcome unit * Capture :=
  if _running (webcam c) then (Shimmer.Returns (), c)
  else
    let w := set_running true (webcam c) in
    match _thread c with
    | Some _ => (Shimmer.Terminates, with_webcam w c)
    | None =>
        (Shimmer.Returns (),
         {| webcam := w; _thread := Some (if opened then Camera else Synthetic);
            spawned := S (spawned c); joined := joined c |})
    end.

(** [stop_capture()]: the flag is cleared and a joinable thread is joined. *)
Definition stop_capture (c : Capture) : Shimmer.outcome unit * Capture :=
  let w := set_running false (webcam c) in
  match _thread c with
  | Some _ =>
      (Shimmer.Returns (),
       {| webcam := w; _thread := None; spawned := spawned c; joined := S (joined c) |})
  | None => (Shimmer.Returns (), with_webcam w c)
  end.

Section Loop.

Variable cv_resize : Mat -> Z -> Z -> Mat.
Variable cv_gray2bgr : Mat -> Mat.

(** One iteration of the loop the thread is in, with what [cap.read]
    delivers and the column offset computed from the clock; a thread that
    reads [_running] as false has left its loop. *)
Definition cycle (a : acquisition) (shift : Z) (c : Capture) : Shimmer.outcome unit * Capture :=
  match _thread c with
  | Some src =>
      if _running (webcam c) then
        match match src with
              | Camera => capture_cycle cv_resize cv_gray2bgr a (webcam c)
              | Synthetic => synthetic_cycle shift (webcam c)
              end with
        | Some w => (Shimmer.Returns (), with_webcam w c)
        | None => (Shimmer.Undefined, c)
        end
      else (Shimmer.Returns (), c)
  | None => (Shimmer.Returns (), c)
  end.

Inductive call : Type :=
  | StartCapture (opened : bool)
  | StopCapture
  | Cycle (a : acquisition) (shift : Z).

Definition exec (k : call) (c : Capture) : Shimmer.outcome unit * Capture :=
  match k with
  | StartCapture opened => start_capture opened c
  | StopCapture => stop_capture c
  | Cycle a shift => cycle a shift c
  end.

(** A session: the outcomes in call order and the final state. *)
Fixpoint session (ks : list call) (c : Capture) : list (Shimmer.outcome unit) * Capture :=
  match ks with
  | [] => ([], c)
  | k :: ks' =>
      let '(o, c1) := exec k c in
      let '(os, c2) := session ks' c1 in
      (o :: os, c2)
  end.

End Loop.

(** Threads that were created and not joined. *)
Definition live (c : Capture) : nat := spawned c - joined c.

(** The flag and the thread handle agree, one thread at most is live, and
    the geometry of the constructor is kept. *)
Record capture_inv (c : Capture) : Prop := {
  ci_thread : _running (webcam c) = true <-> is_Some (_thread c);
  ci_live : spawned c = (joined c + match _thread c with Some _ => 1 | None => 0 end)%nat;
  ci_width : _width (webcam c) = 640;
  ci_height : _height (webcam c) = 480;
  ci_buffer : Z.of_nat (length (_buffer (webcam c))) = 640 * 480 * 3
}.

End Capture.

(** ** The stub of the Shimmer C API ([shimmer_stub.cpp]) *)

Module Stub.

Definition SHIMMER_OK : Z := 0.
Definition SHIMMER_ERROR : Z := -1.
Definition SHIMMER_TIMEOUT : Z := 1.

Definition INT_MAX : Z := 2 ^ 31 - 1.

Record ShimmerDataPacket : Type := mkPacket {
  timestamp_ms : Z;   (* uint64_t *)
  has_gsr : bool;
  has_ppg : bool;
  gsr_raw : Z;        (* uint16_t *)
  ppg_raw : Z         (* uint16_t *)
}.

(** What one call of [Shimmer_getNextDataPacket] reads from outside: the
    clock in milliseconds and the results of its two calls of [rand()]. *)
Record reading : Type := mkReading {
  now_ms : Z;
  rand1 : Z;
  rand2 : Z
}.

(** [Shimmer_getNextDataPacket(handle, packet, timeout_ms)] with the value
    of the static [call_count] before the call: the new count, the return
    code and the packet.  [call_count++] on [INT_MAX] is undefined. *)
Definition Shimmer_getNextDataPacket (call_count : Z) (e : reading)
    (packet : ShimmerDataPacket) : option (Z * Z * ShimmerDataPacket) :=
  if INT_MAX <=? call_count then None
  else
    let call_count := call_count + 1 in
    if Z.rem call_count 10 =? 0 then Some (call_count, SHIMMER_TIMEOUT, packet)
    else
      Some (call_count, SHIMMER_OK,
            {| timestamp_ms := now_ms e mod 2 ^ 64;
               has_gsr := true;
               has_ppg := true;
               gsr_raw := (2000 + Z.rem (rand1 e) 500) mod 2 ^ 16;
               ppg_raw := (1500 + Z.rem (rand2 e) 1000) mod 2 ^ 16 |}).

(** Consecutive calls on one packet: the return code of each call and the
    packet after it. *)
Fixpoint poll (es : list reading) (call_count : Z) (packet : ShimmerDataPacket)
    : option (list (Z * ShimmerDataPacket)) :=
  match es with
  | [] => Some []
  | e :: es' =>
      '(c, code, p) ← Shimmer_getNextDataPacket call_count e packet;
      rest ← poll es' c p;
      Some ((code, p) :: rest)
  end.

(** The bytes of a string literal, without the terminating NUL. *)
Definition bytes (s : string) : list Z :=
  (fun a => Z.of_N (Ascii.N_of_ascii a)) <$> String.list_ascii_of_string s.

(** [strncpy(dst, src, n)] for a [src] of non-zero bytes: [n] bytes are
    written, those of [src] first and zeroes after them; writing past the
    end of [dst] is undefined. *)
Definition strncpy (dst src : list Z) (n : Z) : option (list Z) :=
  if n <=? Z.of_nat (length dst) then
    Some (take (Z.to_nat n) (src ++ replicate (Z.to_nat n - length src) 0)
          ++ drop (Z.to_nat n) dst)
  else None.

(** [Shimmer_getDeviceName(handle, name_buffer, buffer_size)]: the return
    code and the buffer; [buffer_size - 1] is converted to [size_t]. *)
Definition Shimmer_getDeviceName (name_buffer : list Z) (buffer_size : Z)
    : option (Z * list Z) :=
  let name := bytes "Shimmer3 GSR+ Stub" in
  b ← strncpy name_buffer name (Word.wrap (buffer_size - 1));
  b' ← vset b (buffer_size - 1) 0;
  Some (SHIMMER_OK, b').

(** [Shimmer_getFirmwareVersion(handle, version_buffer, buffer_size)]. *)
Definition Shimmer_getFirmwareVersion (version_buffer : list Z) (buffer_size : Z)
    : option (Z * list Z) :=
  let version := bytes "0.1.0-stub" in
  b ← strncpy version_buffer version (Word.wrap (buffer_size - 1));
  b' ← vset b (buffer_size - 1) 0;
  Some (SHIMMER_OK, b').

(** The C string a buffer holds: the bytes before the first NUL. *)
Fixpoint c_str (b : list Z) : list Z :=
  match b with
  | [] => []
  | x :: b' => if x =? 0 then [] else x :: c_str b'
  end.

End Stub.

(** ** The order of the samples when the calls overlap *)

Module Order.
Import Handoff.







End Order.
(** * Properties *)

(** ** Word arithmetic *)

Lemma modulus_pos : 0 < modulus.
Proof. reflexivity. Qed.

Lemma wrap_range z : 0 <= wrap z < modulus.
Proof. apply Z.mod_pos_bound, modulus_pos. Qed.

Lemma wrap_small z : 0 <= z < modulus -> wrap z = z.
Proof. apply Z.mod_small. Qed.

Lemma wrap_wrap z : wrap (wrap z) = wrap z.
Proof. apply Zmod_mod. Qed.

Lemma wrap_add_l a b : wrap (wrap a + b) = wrap (a + b).
Proof. apply Zplus_mod_idemp_l. Qed.

Lemma wrap_add_r a b : wrap (a + wrap b) = wrap (a + b).
Proof. apply Zplus_mod_idemp_r. Qed.

Lemma wrap_sub_l a b : wrap (wrap a - b) = wrap (a - b).
Proof. apply Zminus_mod_idemp_l. Qed.

Lemma wrap_sub_r a b : wrap (a - wrap b) = wrap (a - b).
Proof. apply Zminus_mod_idemp_r. Qed.

(** A power of two that fits in a word divides the modulus. *)
Lemma pow2_divides k : 0 <= k <= 64 -> (2 ^ k | modulus).
Proof.
  intros Hk. exists (2 ^ (64 - k)). unfold modulus.
  rewrite <- Z.pow_add_r by lia. f_equal. lia.
Qed.

Lemma wrap_mod_pow2 k z : 0 <= k <= 64 -> wrap z mod 2 ^ k = z mod 2 ^ k.
Proof. intros Hk. apply Z.mod_mod_divide, pow2_divides, Hk. Qed.

(** Masking with [2^k - 1] is reduction modulo [2^k]. *)
Lemma land_mask k z : 0 <= k -> Z.land z (2 ^ k - 1) = z mod 2 ^ k.
Proof.
  intros Hk. rewrite <- Z.land_ones by exact Hk.
  f_equal. rewrite Z.ones_equiv. lia.
Qed.


Lemma pow2_pos k : 0 <= k -> 0 < 2 ^ k.
Proof. intros Hk. apply Z.pow_pos_nonneg; lia. Qed.

Lemma pow2_le j k : 0 <= j <= k -> 2 ^ j <= 2 ^ k.
Proof. intros H. apply Z.pow_le_mono_r; lia. Qed.

Lemma pow2_succ j : 0 <= j -> 2 ^ (j + 1) = 2 * 2 ^ j.
Proof. intros H. rewrite Z.pow_add_r by lia. lia. Qed.

(** Two counter values less than [c] apart occupy different slots. *)
Lemma mod_distinct a b c : 0 < c -> 0 < b - a < c -> a mod c <> b mod c.
Proof.
  intros Hc Hab Heq.
  pose proof (Z.div_mod a c ltac:(lia)) as Ha.
  pose proof (Z.div_mod b c ltac:(lia)) as Hb.
  assert (b - a = c * (b / c - a / c)) as Hq by lia.
  set (q := b / c - a / c) in Hq. clearbody q.
  destruct (Z.le_gt_cases q 0); nia.
Qed.

(** ** The constructor and [next_pow2] *)

Lemma shiftl_pow2 j : 0 <= j <= 62 -> wrap (Z.shiftl (2 ^ j) 1) = 2 ^ (j + 1).
Proof.
  intros Hj. rewrite Z.shiftl_mul_pow2 by lia. change (2 ^ 1) with 2.
  rewrite pow2_succ by lia. rewrite (Z.mul_comm (2 ^ j) 2). apply wrap_small.
  pose proof (pow2_pos j ltac:(lia)). pose proof (pow2_le j 62 ltac:(lia)).
  unfold modulus. change (2 ^ 64) with (4 * 2 ^ 62). lia.
Qed.

(** For [v <= 2^63] the loop started at [2^j] stops at the least power of
    two that is at least [v] (and at least [2^j]). *)
Lemma next_pow2_loop_spec v fuel : forall j,
  0 <= j <= 63 -> v <= 2 ^ 63 -> 64 <= Z.of_nat fuel + j ->
  exists k, j <= k <= 63 /\ next_pow2_loop fuel (2 ^ j) v = Some (2 ^ k) /\
            v <= 2 ^ k /\ (j < k -> 2 ^ (k - 1) < v).
Proof.
  induction fuel as [|fuel IH]; intros j Hj Hv Hf.
  - assert (j = 63) by lia. subst j. exists 63. simpl.
    destruct (Z.ltb_spec (2 ^ 63) v); [lia|]. repeat split; (lia || done).
  - simpl. destruct (Z.ltb_spec (2 ^ j) v) as [Hlt|Hge].
    + assert (j <= 62) as Hj'.
      { destruct (Z.le_gt_cases j 62); [done|]. assert (j = 63) by lia. subst. lia. }
      rewrite shiftl_pow2 by lia.
      destruct (IH (j + 1)) as (k & Hk & Hr & Hvk & Hmin); [lia..|].
      exists k. repeat split; [lia|lia|done|done|].
      intros _. destruct (Z.eq_dec k (j + 1)) as [->|Hne].
      * replace (j + 1 - 1) with j by lia. done.
      * apply Hmin. lia.
    + exists j. repeat split; (lia || done).
Qed.

Lemma next_pow2_loop_zero v fuel : 0 < v -> next_pow2_loop fuel 0 v = None.
Proof.
  intros Hv. induction fuel as [|fuel IH]; simpl.
  - destruct (Z.ltb_spec 0 v); [done|lia].
  - destruct (Z.ltb_spec 0 v); [|lia]. exact IH.
Qed.

Lemma next_pow2_loop_diverges v fuel : forall j,
  0 <= j <= 63 -> 2 ^ 63 < v -> next_pow2_loop fuel (2 ^ j) v = None.
Proof.
  induction fuel as [|fuel IH]; intros j Hj Hv; simpl;
    pose proof (pow2_le j 63 ltac:(lia));
    (destruct (Z.ltb_spec (2 ^ j) v); [|lia]); [done|].
  destruct (Z.eq_dec j 63) as [->|Hne].
  - change (wrap (Z.shiftl (2 ^ 63) 1)) with 0. apply next_pow2_loop_zero. lia.
  - rewrite shiftl_pow2 by lia. apply IH; [lia|done].
Qed.

(** [next_pow2] returns for every request up to [2^63]: the least power
    of two not below it. *)
Lemma next_pow2_fuel_enough v :
  v <= 2 ^ 63 ->
  exists k, 0 <= k <= 63 /\ next_pow2 v = Some (2 ^ k) /\ v <= 2 ^ k /\
            (0 < k -> 2 ^ (k - 1) < v).
Proof.
  intros Hv. destruct (next_pow2_loop_spec v 64 0) as (k & Hk & Hr & Hvk & Hmin);
    [lia | done | lia |].
  exists k. repeat split; (lia || done).
Qed.

(** Above [2^63] the loop of [next_pow2] never ends, whatever the fuel. *)
Lemma next_pow2_diverges v fuel : 2 ^ 63 < v -> next_pow2_fuel fuel v = None.
Proof. intros Hv. apply (next_pow2_loop_diverges v fuel 0); [lia|done]. Qed.

Lemma SpscRing_new_spec capacity :
  capacity <= 2 ^ 62 ->
  exists k r, 0 <= k <= 62 /\ SpscRing_new capacity = Some r /\
    _cap r = 2 ^ k /\ capacity <= 2 ^ k /\ (0 < k -> 2 ^ (k - 1) < capacity) /\
    wf r /\ _head r = 0 /\ _tail r = 0.
Proof.
  intros Hc. destruct (next_pow2_fuel_enough capacity) as (k & Hk & Hr & Hvk & Hmin); [lia|].
  assert (k <= 62) as Hk62.
  { destruct (Z.le_gt_cases k 62) as [|Hgt]; [done|].
    assert (k = 63) by lia. subst k. specialize (Hmin ltac:(lia)).
    change (63 - 1) with 62 in Hmin. lia. }
  unfold SpscRing_new. rewrite Hr. cbn [mbind option_bind]. exists k. eexists.
  pose proof (pow2_pos k ltac:(lia)). pose proof (pow2_le k 62 ltac:(lia)).
  assert (2 ^ 62 * 4 = modulus) as Hm by reflexivity.
  split_and!; try reflexivity; try lia; try done.
  exists k. cbn [_cap _mask _buf]. split_and!; try lia; try done.
  - apply wrap_small. lia.
  - rewrite length_replicate, wrap_small by lia. lia.
Qed.

(** A capacity of at most [2^62] slots leaves room for the doubled index. *)
Lemma cap_bounds k : 0 <= k <= 62 -> 0 < 2 ^ k /\ 4 * 2 ^ k <= modulus.
Proof.
  intros Hk. split; [apply pow2_pos; lia|].
  pose proof (pow2_le k 62 ltac:(lia)). unfold modulus.
  change (2 ^ 64) with (4 * 2 ^ 62). lia.
Qed.

(** ** Vector accesses *)

Lemma vset_some {A} (b : list A) i x :
  0 <= i < Z.of_nat (length b) -> vset b i x = Some (<[Z.to_nat i := x]> b).
Proof.
  intros Hi. unfold vset.
  destruct (Z.leb_spec 0 i); [|lia]. destruct (Z.ltb_spec i (Z.of_nat (length b))); [done|lia].
Qed.

Lemma vget_insert_eq {A} (b : list A) i x :
  0 <= i < Z.of_nat (length b) -> vget (<[Z.to_nat i := x]> b) i = Some x.
Proof.
  intros Hi. unfold vget. destruct (Z.leb_spec 0 i); [|lia].
  apply list_lookup_insert_eq. lia.
Qed.

Lemma vget_insert_ne {A} (b : list A) i j x :
  0 <= i -> 0 <= j -> i <> j -> vget (<[Z.to_nat i := x]> b) j = vget b j.
Proof.
  intros Hi Hj Hne. unfold vget. destruct (Z.leb_spec 0 j); [|lia].
  apply list_lookup_insert_ne. lia.
Qed.

(** ** One call of [push] and of [pop_all] against the history *)

Lemma slot_wrap r k h :
  0 <= k <= 62 -> _cap r = 2 ^ k -> _mask r = 2 ^ k - 1 ->
  slot r (wrap h) = 2 * (h mod _cap r) /\ 0 <= h mod _cap r < 2 ^ k.
Proof.
  intros Hk Hcap Hmask. unfold slot. rewrite Hmask, Hcap, land_mask by lia.
  rewrite wrap_mod_pow2 by lia.
  pose proof (Z.mod_pos_bound h (2 ^ k) (pow2_pos k ltac:(lia))) as Hm.
  pose proof (cap_bounds k Hk).
  split; [|done]. rewrite wrap_small by lia. lia.
Qed.

Lemma push_spec r hist T t v :
  ring_inv r hist T ->
  exists r', push t v r = Some r' /\ _cap r' = _cap r /\
    ring_inv r' (hist ++ [(t, v)])
             (Nat.max T (S (length hist) - Z.to_nat (_cap r))).
Proof.
  intros [Hwf Hhead Htail Hle Hspan Hslots].
  pose proof Hwf as (k & Hk & Hcap & Hmask & Hlen).
  pose proof (cap_bounds k Hk) as [Hpos Hmod].
  remember (Z.of_nat (length hist)) as H eqn:HH.
  destruct (slot_wrap r k H Hk Hcap Hmask) as [Hslot Hm].
  remember (H mod _cap r) as m eqn:Hmdef.
  unfold push. rewrite Hhead, Hslot, Z.add_0_r.
  rewrite (wrap_small (2 * m)), (wrap_small (2 * m + 1)) by lia.
  rewrite vset_some by lia. cbn [mbind option_bind].
  rewrite vset_some by (rewrite length_insert; lia). cbn [mbind option_bind].
  eexists. split; [reflexivity|]. split; [reflexivity|].
  rewrite wrap_add_l, Htail, wrap_sub_l, wrap_sub_r.
  assert (wrap (H + 1 - Z.of_nat T) = H + 1 - Z.of_nat T) as ->.
  { apply wrap_small. lia. }
  constructor; cbn [_cap _mask _buf _head _tail].
  - exists k. cbn [_cap _mask _buf]. rewrite !length_insert. done.
  - rewrite length_app. cbn [length]. f_equal. lia.
  - destruct (Z.ltb_spec (_cap r) (H + 1 - Z.of_nat T));
      rewrite ?wrap_sub_l; f_equal; lia.
  - rewrite length_app. cbn [length]. lia.
  - rewrite length_app. cbn [length]. lia.
  - intros i s Hi Hs. unfold holds. cbn [_cap _buf].
    destruct (decide (i < length hist)%nat) as [Hlt|Hge].
    + rewrite lookup_app_l in Hs by done.
      destruct (Hslots i s ltac:(lia) Hs) as [H1 H2].
      assert (Z.of_nat i mod _cap r <> m) as Hne.
      { rewrite Hmdef. apply mod_distinct; lia. }
      pose proof (Z.mod_pos_bound (Z.of_nat i) (_cap r) ltac:(lia)).
      rewrite !vget_insert_ne by lia. done.
    + apply lookup_lt_Some in Hs as Hlen'. rewrite length_app in Hlen'. cbn [length] in Hlen'.
      assert (i = length hist) as -> by lia.
      rewrite lookup_app_r, Nat.sub_diag in Hs by lia. injection Hs as <-.
      rewrite <- HH, <- Hmdef. cbn [fst snd]. split.
      * rewrite vget_insert_ne by lia. apply vget_insert_eq. lia.
      * apply vget_insert_eq. rewrite length_insert. lia.
Qed.

Lemma pop_loop_spec r hist T k :
  0 <= k <= 62 -> _cap r = 2 ^ k -> _mask r = 2 ^ k - 1 ->
  (forall (i : nat) s, (T <= i)%nat -> hist !! i = Some s -> holds r (Z.of_nat i) s) ->
  forall (n : nat) (i : nat) out,
    (T + i + n <= length hist)%nat ->
    pop_loop r (wrap (Z.of_nat T)) n (wrap (Z.of_nat i)) out =
      Some (out ++ take n (drop (T + i) hist)).
Proof.
  intros Hk Hcap Hmask Hslots. induction n as [|n IH]; intros i out Hn.
  - cbn. by rewrite take_0, app_nil_r.
  - cbn [pop_loop].
    rewrite (wrap_add_r (wrap (Z.of_nat T))), (wrap_add_l (Z.of_nat T)),
      (wrap_add_l (Z.of_nat i) 1).
    destruct (slot_wrap r k (Z.of_nat T + Z.of_nat i) Hk Hcap Hmask) as [-> Hm].
    pose proof (cap_bounds k Hk) as [Hpos Hmod].
    set (m := (Z.of_nat T + Z.of_nat i) mod _cap r) in *.
    rewrite Z.add_0_r, (wrap_small (2 * m)), (wrap_small (2 * m + 1)) by lia.
    destruct (lookup_lt_is_Some_2 hist (T + i)%nat ltac:(lia)) as [s Hs].
    destruct (Hslots (T + i)%nat s ltac:(lia) Hs) as [H1 H2].
    rewrite Nat2Z.inj_add in H1, H2. fold m in H1, H2.
    rewrite H1, H2. cbn [mbind option_bind].
    replace (Z.of_nat i + 1) with (Z.of_nat (S i)) by lia.
    rewrite IH by lia. f_equal.
    rewrite (drop_S _ _ _ Hs). cbn [take]. rewrite <- app_assoc. cbn [app].
    destruct s. do 4 f_equal. lia.
Qed.

Lemma pop_all_spec r hist T :
  ring_inv r hist T ->
  exists r', pop_all r = Some (drop T hist, r') /\ _cap r' = _cap r /\
             ring_inv r' hist (length hist).
Proof.
  intros [Hwf Hhead Htail Hle Hspan Hslots].
  pose proof Hwf as (k & Hk & Hcap & Hmask & Hlen).
  pose proof (cap_bounds k Hk) as [Hpos Hmod].
  unfold pop_all. rewrite Hhead, Htail, wrap_sub_l, wrap_sub_r.
  rewrite (wrap_small (_ - _)) by lia.
  pose proof (pop_loop_spec r hist T k Hk Hcap Hmask Hslots
                (Z.to_nat (Z.of_nat (length hist) - Z.of_nat T)) 0%nat []) as Hloop.
  change (wrap (Z.of_nat 0)) with 0 in Hloop. rewrite Hloop by lia.
  cbn [mbind option_bind app]. rewrite Nat.add_0_r.
  rewrite take_ge by (rewrite length_drop; lia).
  eexists. split; [reflexivity|]. split; [reflexivity|].
  constructor; cbn [_cap _mask _buf _head _tail]; try done; try lia.
  intros i s Hi Hs. apply lookup_lt_Some in Hs. lia.
Qed.

(** ** Traces of calls *)

Lemma ring_inv_new capacity r :
  capacity <= 2 ^ 62 -> SpscRing_new capacity = Some r ->
  ring_inv r [] 0 /\ capacity <= _cap r.
Proof.
  intros Hc Hr.
  destruct (SpscRing_new_spec capacity Hc) as (k & r0 & Hk & Hr0 & Hcap & Hle & _ & Hwf & Hh & Ht).
  assert (r0 = r) as -> by congruence. split; [|lia].
  pose proof (cap_bounds k Hk).
  constructor; cbn [length]; try done; try lia.
Qed.

Lemma ring_inv_eq r hist hist' T T' :
  ring_inv r hist T -> hist = hist' -> T = T' -> ring_inv r hist' T'.
Proof. by intros ? <- <-. Qed.

Lemma ring_inv_unread r hist T :
  ring_inv r hist T ->
  unread r = Z.of_nat (length hist) - Z.of_nat T /\ 0 <= unread r <= _cap r.
Proof.
  intros [Hwf Hhead Htail Hle Hspan _].
  destruct Hwf as (k & Hk & Hcap & _). pose proof (cap_bounds k Hk).
  unfold unread. rewrite Hhead, Htail, wrap_sub_l, wrap_sub_r, wrap_small by lia. lia.
Qed.

Lemma push_all_spec l : forall r hist T,
  ring_inv r hist T ->
  exists r', push_all l r = Some r' /\ _cap r' = _cap r /\
    ring_inv r' (hist ++ l) (Nat.max T (length (hist ++ l) - Z.to_nat (_cap r))).
Proof.
  induction l as [|[t v] l IH]; intros r hist T Hinv.
  - exists r. split; [done|]. split; [done|].
    apply (ring_inv_eq r hist _ T); [done|by rewrite app_nil_r|].
    rewrite app_nil_r. destruct Hinv. lia.
  - destruct (push_spec r hist T t v Hinv) as (r1 & Hp & Hc1 & Hinv1).
    destruct (IH _ _ _ Hinv1) as (r2 & Hp2 & Hc2 & Hinv2).
    exists r2. cbn [push_all]. rewrite Hp. cbn [mbind option_bind].
    split; [done|]. split; [congruence|].
    eapply ring_inv_eq; [exact Hinv2|by rewrite <- app_assoc|].
    rewrite Hc1, <- app_assoc. cbn [app]. rewrite !length_app. cbn [length]. lia.
Qed.

Lemma ordered_weaken segs : forall lo lo' hi,
  ordered lo segs hi -> (lo' <= lo)%nat -> ordered lo' segs hi.
Proof.
  destruct segs as [|[a b] segs]; cbn; intros lo lo' hi H Hlo; [lia|].
  destruct H as (? & ? & ?). repeat split; (lia || done).
Qed.


(** The history-level account of a trace: every [pop_all] returns one range
    of the history, the ranges follow one another, and none is longer than
    the capacity. *)
Lemma run_spec ops : forall r hist T,
  ring_inv r hist T ->
  exists outs r' segs T',
    run ops r = Some (outs, r') /\ _cap r' = _cap r /\
    ring_inv r' (hist ++ pushes ops) T' /\
    outs = map (segment (hist ++ pushes ops)) segs /\
    ordered T segs T' /\
    Forall (fun ab => Z.of_nat (ab.2 - ab.1) <= _cap r) segs.
Proof.
  induction ops as [|[t v|] ops IH]; intros r hist T Hinv.
  - exists [], r, [], T. cbn [run pushes map ordered]. rewrite app_nil_r.
    split_and!; (done || lia || constructor).
  - destruct (push_spec r hist T t v Hinv) as (r1 & Hp & Hc1 & Hinv1).
    destruct (IH _ _ _ Hinv1) as (outs & r2 & segs & T' & Hrun & Hc2 & Hinv2 & Houts & Hord & Hlen).
    exists outs, r2, segs, T'. cbn [run pushes]. rewrite Hp. cbn [mbind option_bind].
    rewrite <- app_assoc in Hinv2, Houts. cbn [app] in Hinv2, Houts.
    split_and!; try done; [congruence| |by rewrite <- Hc1].
    eapply ordered_weaken; [exact Hord|lia].
  - destruct (pop_all_spec r hist T Hinv) as (r1 & Hp & Hc1 & Hinv1).
    destruct (IH _ _ _ Hinv1) as (outs & r2 & segs & T' & Hrun & Hc2 & Hinv2 & Houts & Hord & Hlen).
    exists (drop T hist :: outs), r2, ((T, length hist) :: segs), T'.
    cbn [run pushes]. rewrite Hp. cbn [mbind option_bind]. rewrite Hrun. cbn.
    destruct Hinv as [_ _ _ Hle Hspan _].
    split_and!; try done; try lia; try congruence.
    + f_equal; [|done].
      rewrite drop_app_le by lia.
      rewrite take_app_le by (rewrite length_drop; lia).
      rewrite take_ge by (rewrite length_drop; lia). done.
    + constructor; [cbn [fst snd]; lia|by rewrite <- Hc1].
Qed.

(** Under timely consumption nothing is dropped: the vectors returned so
    far are exactly the history up to the read position. *)
Lemma run_timely ops : forall r hist T,
  ring_inv r hist T ->
  timely (_cap r) (Z.of_nat (length hist) - Z.of_nat T) ops = true ->
  exists outs r' T',
    run ops r = Some (outs, r') /\ (T <= T')%nat /\
    ring_inv r' (hist ++ pushes ops) T' /\
    concat outs = take (T' - T) (drop T (hist ++ pushes ops)).
Proof.
  induction ops as [|[t v|] ops IH]; intros r hist T Hinv Htim.
  - exists [], r, T. cbn [run pushes concat]. rewrite app_nil_r, Nat.sub_diag, take_0. done.
  - cbn [timely] in Htim. apply andb_true_iff in Htim as [Hn Htim]. apply Z.leb_le in Hn.
    destruct (push_spec r hist T t v Hinv) as (r1 & Hp & Hc1 & Hinv1).
    assert (Nat.max T (S (length hist) - Z.to_nat (_cap r)) = T) as HT by lia.
    rewrite HT in Hinv1.
    destruct (IH r1 _ T Hinv1) as (outs & r2 & T' & Hrun & HTT & Hinv2 & Houts).
    { rewrite Hc1, length_app. cbn [length].
      replace (Z.of_nat (length hist + 1) - Z.of_nat T)
        with (Z.of_nat (length hist) - Z.of_nat T + 1) by lia. done. }
    exists outs, r2, T'. cbn [run pushes]. rewrite Hp. cbn [mbind option_bind].
    rewrite <- app_assoc in Hinv2, Houts. done.
  - cbn [timely] in Htim.
    destruct (pop_all_spec r hist T Hinv) as (r1 & Hp & Hc1 & Hinv1).
    destruct (IH r1 _ _ Hinv1) as (outs & r2 & T' & Hrun & HTT & Hinv2 & Houts).
    { rewrite Hc1, Z.sub_diag. done. }
    destruct Hinv as [_ _ _ Hle _ _].
    exists (drop T hist :: outs), r2, T'.
    cbn [run pushes]. rewrite Hp. cbn [mbind option_bind]. rewrite Hrun. cbn [mbind option_bind concat].
    split_and!; [done|lia|done|]. rewrite Houts.
    rewrite drop_app_le by lia.
    rewrite drop_app_le by lia.
    rewrite drop_all. cbn [app].
    replace (T' - T)%nat with (length (drop T hist) + (T' - length hist))%nat
      by (rewrite length_drop; lia).
    rewrite take_app_add. done.
Qed.


(** A push bounds the unread span whatever the counters were before. *)
Lemma push_bound q t v q' :
  wf q -> push t v q = Some q' -> _cap q' = _cap q /\ unread q' <= _cap q'.
Proof.
  intros (k & Hk & Hcap & _) Hp. pose proof (cap_bounds k Hk) as [Hpos Hmod].
  unfold push in Hp.
  destruct (vset (_buf q) _ t) as [b1|]; [|done]. cbn [mbind option_bind] in Hp.
  destruct (vset b1 _ v) as [b2|]; [|done]. cbn [mbind option_bind] in Hp.
  injection Hp as <-. unfold unread. cbn [_cap _head _tail]. split; [done|].
  destruct (Z.ltb_spec (_cap q) (wrap (wrap (_head q + 1) - _tail q))) as [Hlt|Hge]; [|done].
  rewrite wrap_sub_r.
  replace (wrap (_head q + 1) - (wrap (_head q + 1) - _cap q)) with (_cap q) by lia.
  rewrite wrap_small by lia. lia.
Qed.

(** ** The claims about the sample ring *)

(** C1 (drop-oldest correctness).  A ring built for any requested capacity
    has an effective capacity [C = _cap]; pushing [C + k] samples with
    [k > 0] and no [pop_all] in between and then calling [pop_all] returns
    the input without its first [k] samples, that is exactly the last [C]
    samples in push order.  In the scenario of capacity 8 with timestamps
    [0..11] and value = timestamp, [pop_all] returns [(4,4) ... (11,11)]. *)
Theorem drop_oldest_correct capacity r (l : list sample) (k : nat) :
  capacity <= 2 ^ 62 -> SpscRing_new capacity = Some r ->
  (0 < k)%nat -> length l = (Z.to_nat (_cap r) + k)%nat ->
  (exists r1 r2, push_all l r = Some r1 /\
                 pop_all r1 = Some (drop k l, r2) /\
                 length (drop k l) = Z.to_nat (_cap r)) /\
  (exists r1 r2, SpscRing_new 8 = Some ring8 /\
                 push_all scenario_input ring8 = Some r1 /\
                 pop_all r1 = Some (scenario_output, r2)).
Proof.
  intros Hc Hr Hk Hl. split.
  - destruct (ring_inv_new capacity r Hc Hr) as [Hinv _].
    destruct (push_all_spec l r [] 0%nat Hinv) as (r1 & Hp & Hc1 & Hinv1).
    destruct (pop_all_spec r1 _ _ Hinv1) as (r2 & Hpop & _ & _).
    exists r1, r2. split; [done|]. cbn [app] in Hpop.
    replace (Nat.max 0 (length l - Z.to_nat (_cap r))) with k in Hpop by lia.
    split; [done|]. rewrite length_drop. lia.
  - do 2 eexists. split; [reflexivity|]. split; [vm_compute; reflexivity|].
    vm_compute. reflexivity.
Qed.

Lemma drop_oldest_correct_witness :
  8 <= 2 ^ 62 /\ SpscRing_new 8 = Some ring8 /\ (0 < 4)%nat /\
  length scenario_input = (Z.to_nat (_cap ring8) + 4)%nat /\
  exists r1 r2, push_all scenario_input ring8 = Some r1 /\
                pop_all r1 = Some (drop 4 scenario_input, r2) /\
                length (drop 4 scenario_input) = Z.to_nat (_cap ring8).
Proof.
  assert (8 <= 2 ^ 62) as H1 by (vm_compute; discriminate).
  assert (SpscRing_new 8 = Some ring8) as H2 by reflexivity.
  assert (0 < 4)%nat as H3 by lia.
  assert (length scenario_input = (Z.to_nat (_cap ring8) + 4)%nat) as H4 by reflexivity.
  split_and!; [exact H1|exact H2|exact H3|exact H4|].
  exact (proj1 (drop_oldest_correct 8 ring8 scenario_input 4 H1 H2 H3 H4)).
Defined.

(** The capacity the claims speak of is the rounded one: a ring requested
    with capacity 5 has 8 slots and keeps six samples. *)
Example requested_capacity_rounded :
  exists r r1 r2, SpscRing_new 5 = Some r /\ _cap r = 8 /\
    push_all (take 6 scenario_input) r = Some r1 /\
    pop_all r1 = Some (take 6 scenario_input, r2).
Proof.
  do 3 eexists. split; [reflexivity|]. split; [reflexivity|].
  split; [vm_compute; reflexivity|]. vm_compute. reflexivity.
Qed.

(** C2 (bounded memory).  The constructor rounds the requested capacity
    up to the least power of two [C = _cap] that is not below it; a push
    leaves [head - tail <= C] whatever the counters were before it; and
    along every sequence of [push] and [pop_all] calls on the ring the
    unread span stays within [C], so no [pop_all] returns more than [C]
    samples. *)
Theorem ring_bounded capacity r (ops : list op) :
  capacity <= 2 ^ 62 -> SpscRing_new capacity = Some r ->
  (exists k, 0 <= k <= 62 /\ _cap r = 2 ^ k /\ capacity <= 2 ^ k /\
             (0 < k -> 2 ^ (k - 1) < capacity)) /\
  (forall q t v q', wf q -> push t v q = Some q' ->
                    _cap q' = _cap q /\ unread q' <= _cap q') /\
  (exists outs r', run ops r = Some (outs, r') /\ _cap r' = _cap r /\
                   unread r' <= _cap r /\
                   Forall (fun out => Z.of_nat (length out) <= _cap r) outs).
Proof.
  intros Hc Hr. split_and!.
  - destruct (SpscRing_new_spec capacity Hc) as (k & r0 & Hk & Hr0 & Hcap & Hle & Hmin & _).
    assert (r0 = r) as -> by congruence. by exists k.
  - apply push_bound.
  - destruct (ring_inv_new capacity r Hc Hr) as [Hinv _].
    destruct (run_spec ops r [] 0%nat Hinv)
      as (outs & r' & segs & T' & Hrun & Hc' & Hinv' & Houts & _ & Hlen).
    exists outs, r'. split_and!; [done..| |].
    + rewrite <- Hc'. apply (ring_inv_unread _ _ _ Hinv').
    + subst outs. apply Forall_map. eapply Forall_impl; [exact Hlen|].
      intros [a b] Hab. cbn [fst snd] in *. unfold segment. cbn [fst snd].
      rewrite length_take. lia.
Qed.

Lemma ring_bounded_witness :
  2 <= 2 ^ 62 /\ SpscRing_new 2 = Some ring2 /\
  exists outs r', run sample_trace ring2 = Some (outs, r') /\ _cap r' = _cap ring2 /\
                  unread r' <= _cap ring2 /\
                  Forall (fun out => Z.of_nat (length out) <= _cap ring2) outs.
Proof.
  assert (2 <= 2 ^ 62) as H1 by (vm_compute; discriminate).
  assert (SpscRing_new 2 = Some ring2) as H2 by reflexivity.
  split_and!; [exact H1|exact H2|].
  exact (proj2 (proj2 (ring_bounded 2 ring2 sample_trace H1 H2))).
Defined.


(** C4 (no loss under timely consumption).  If no more than [C = _cap]
    pushes ever occur in a row without a [pop_all], then the vectors
    returned by the [pop_all] calls of the trace, followed by what one more
    [pop_all] returns, are exactly the pushed samples in push order: every
    sample is returned once, none is dropped and none is repeated. *)
Theorem timely_no_loss capacity r (ops : list op) :
  capacity <= 2 ^ 62 -> SpscRing_new capacity = Some r ->
  timely (_cap r) 0 ops = true ->
  exists outs r' out r'',
    run ops r = Some (outs, r') /\ pop_all r' = Some (out, r'') /\
    concat outs ++ out = pushes ops.
Proof.
  intros Hc Hr Htim. destruct (ring_inv_new capacity r Hc Hr) as [Hinv _].
  destruct (run_timely ops r [] 0%nat Hinv Htim) as (outs & r' & T' & Hrun & _ & Hinv' & Houts).
  destruct (pop_all_spec r' _ _ Hinv') as (r'' & Hpop & _ & _).
  cbn [app] in *. rewrite drop_0, Nat.sub_0_r in Houts.
  exists outs, r', (drop T' (pushes ops)), r''. split_and!; [done..|].
  rewrite Houts. apply take_drop.
Qed.

Lemma timely_no_loss_witness :
  2 <= 2 ^ 62 /\ SpscRing_new 2 = Some ring2 /\
  timely (_cap ring2) 0 sample_trace = true /\
  exists outs r' out r'',
    run sample_trace ring2 = Some (outs, r') /\ pop_all r' = Some (out, r'') /\
    concat outs ++ out = pushes sample_trace.
Proof.
  assert (2 <= 2 ^ 62) as H1 by (vm_compute; discriminate).
  assert (SpscRing_new 2 = Some ring2) as H2 by reflexivity.
  assert (timely (_cap ring2) 0 sample_trace = true) as H3 by reflexivity.
  split_and!; [exact H1|exact H2|exact H3|].
  exact (timely_no_loss 2 ring2 sample_trace H1 H2 H3).
Defined.

(** ** The stream controller *)

Import Shimmer.

Lemma NativeShimmer_new_eq : NativeShimmer_new = Some shimmer0.
Proof. vm_compute. reflexivity. Qed.

Lemma eqb_FAIL port : String.eqb port "FAIL" = true <-> port = "FAIL"%string.
Proof. apply String.eqb_eq. Qed.

(** C5 (connect).  [connect(port)] throws the connection error exactly when
    the port is the invalid target ["FAIL"], and the stream is then not
    connected; for every other port it returns, records the port and the
    stream is connected (in state [Connected] when no loop is running).  A
    failed [connect] does not prevent a later [connect] with a valid port
    from succeeding. *)
Theorem connect_error_handling (port : string) (s : NativeShimmer) :
  (forall what, fst (connect port s) = Throws what <-> port = "FAIL"%string /\ what = ConnectionError port) /\
  (port = "FAIL"%string ->
     fst (connect port s) = Throws (ConnectionError port) /\
     is_connected (snd (connect port s)) = false /\
     state_of (snd (connect port s)) = Disconnected) /\
  (port <> "FAIL"%string ->
     fst (connect port s) = Returns () /\
     _port (snd (connect port s)) = port /\
     is_connected (snd (connect port s)) = true /\
     (_running s = false -> state_of (snd (connect port s)) = Connected)) /\
  (port <> "FAIL"%string ->
     fst (connect port (snd (connect "FAIL" s))) = Returns () /\
     is_connected (snd (connect port (snd (connect "FAIL" s)))) = true).
Proof.
  assert (forall p q, p <> "FAIL"%string ->
            connect p q = (Returns (),
              print ("Shimmer connected to " +:+ p +:+ " (simulated)")
                    (set_connection p true q))) as Hok.
  { intros p q Hp. unfold connect. cbn [set_connection _connected].
    destruct (String.eqb p "FAIL") eqn:E; [by apply eqb_FAIL in E|done]. }
  assert (forall q, connect "FAIL" q =
            (Throws (ConnectionError "FAIL"), set_connection "FAIL" false q)) as Hfail
    by done.
  split_and!.
  - intros what. destruct (decide (port = "FAIL"%string)) as [->|Hne].
    + rewrite Hfail. cbn [fst]. split; [by intros [= <-]|by intros [_ ->]].
    + rewrite (Hok _ _ Hne). cbn [fst]. split; [done|by intros [? _]].
  - intros ->. by rewrite Hfail.
  - intros Hne. rewrite (Hok _ _ Hne). unfold is_connected, state_of. cbn.
    split_and!; try done. by intros ->.
  - intros Hne. by rewrite (Hok _ _ Hne).
Qed.

Lemma connect_error_handling_witness :
  "COM3"%string <> "FAIL"%string /\
  fst (connect "COM3" (snd (connect "FAIL" shimmer0))) = Returns () /\
  is_connected (snd (connect "COM3" (snd (connect "FAIL" shimmer0)))) = true.
Proof.
  assert ("COM3"%string <> "FAIL"%string) as H by discriminate.
  split; [exact H|].
  exact (proj2 (proj2 (proj2 (connect_error_handling "COM3" shimmer0))) H).
Defined.

(** *** Floating-point facts used by the sampling loop *)

Lemma ltb_leb (a b : float) : (a <? b)%float = true -> (a <=? b)%float = true.
Proof.
  rewrite ltb_spec, leb_spec. unfold SFltb, SFleb.
  by destruct (SFcompare (Prim2SF a) (Prim2SF b)) as [[]|].
Qed.

(** The clamp [std::max(0.1, x)] is at least [0.1] for every double [x],
    infinities and NaN included. *)
Lemma std_max_floor (x : float) : (point1 <=? std_max point1 x)%float = true.
Proof.
  unfold std_max. destruct (point1 <? x)%float eqn:E.
  - by apply ltb_leb.
  - vm_compute. reflexivity.
Qed.

(** A double that is at least [0.1] is greater than zero. *)
Lemma floor_positive (x : float) :
  (point1 <=? x)%float = true -> (0 <? x)%float = true.
Proof.
  rewrite ltb_spec, leb_spec.
  replace (Prim2SF point1) with (S754_finite false 7205759403792794 (-56))
    by (vm_compute; reflexivity).
  replace (Prim2SF 0) with (S754_zero false) by (vm_compute; reflexivity).
  unfold SFltb, SFleb.
  destruct (Prim2SF x) as [s|s| |s m e]; cbn; try done; by destruct s.
Qed.

Lemma gsr_sample_floor sin phase rng :
  (point1 <=? gsr_sample sin phase rng)%float = true.
Proof. unfold gsr_sample. apply std_max_floor. Qed.

(** *** The invariant of a session *)

Lemma shimmer0_queue : SpscRing_new 4096 = Some (_queue shimmer0).
Proof. vm_compute. reflexivity. Qed.

Lemma shimmer_inv_new : shimmer_inv shimmer0 [] 0.
Proof.
  constructor; cbn [_running _thread spawned joined shimmer0]; try done.
  apply (ring_inv_new 4096 _ ltac:(vm_compute; discriminate) shimmer0_queue).
Qed.

Lemma shimmer_inv_ext s s' hist T :
  shimmer_inv s hist T ->
  _running s' = _running s -> _thread s' = _thread s ->
  spawned s' = spawned s -> joined s' = joined s -> _queue s' = _queue s ->
  shimmer_inv s' hist T.
Proof.
  intros [Hth Hlive Hq Hfl] Hr Ht Hs Hj Hqq.
  constructor; rewrite ?Hr, ?Ht, ?Hs, ?Hj, ?Hqq; done.
Qed.

Lemma connect_inv port s hist T :
  shimmer_inv s hist T -> shimmer_inv (snd (connect port s)) hist T.
Proof.
  intros Hinv. unfold connect.
  destruct (negb (_connected (set_connection port _ s)));
    by apply (shimmer_inv_ext s).
Qed.

Lemma start_inv s hist T :
  shimmer_inv s hist T -> shimmer_inv (snd (start_streaming s)) hist T.
Proof.
  intros Hinv. unfold start_streaming.
  destruct (negb (_connected s)); [done|].
  destruct (_running s) eqn:Hrun; [done|].
  destruct Hinv as [Hth Hlive Hq Hfl].
  pose proof (proj1 Hth Hrun) as Hnone.
  cbn [set_running _thread]. rewrite Hnone. cbn [snd].
  rewrite Hnone in Hlive.
  constructor; cbn; try done. lia.
Qed.

Lemma loop_step_inv sin now s hist T :
  shimmer_inv s hist T ->
  exists hist' T', shimmer_inv (snd (loop_step sin now s)) hist' T' /\
                   fst (loop_step sin now s) = Returns ().
Proof.
  intros Hinv. unfold loop_step.
  destruct (_thread s) as [[|phase t_next|]|] eqn:Hthread;
    [| |by exists hist, T|by exists hist, T].
  - exists hist, T. split; [|done]. cbn [snd].
    destruct Hinv as [Hth Hlive Hq Hfl]. rewrite Hthread in Hlive.
    constructor; cbn; try done. rewrite Hth, Hthread. done.
  - destruct Hinv as [Hth Hlive Hq Hfl].
    destruct (_running s) eqn:Hrun; cbn [negb].
    2:{ pose proof (proj1 Hth eq_refl). congruence. }
    destruct (now <? t_next).
    { exists hist, T. split; [|done]. cbn [snd].
      constructor; try done. by rewrite Hrun. }
    destruct (push_spec _ _ _ (seconds_of now) (gsr_sample sin phase (lcg (_rng s))) Hq)
      as (q & Hpush & _ & Hq').
    rewrite Hpush. eexists _, _. split; [|done]. cbn [snd].
    rewrite Hthread in Hlive.
    constructor; cbn.
    + by rewrite Hrun.
    + done.
    + exact Hq'.
    + apply Forall_app. split; [done|]. constructor; [|done]. apply gsr_sample_floor.
Qed.

Lemma get_latest_samples_inv s hist T :
  shimmer_inv s hist T ->
  get_latest_samples s =
    (Returns (drop T hist), snd (get_latest_samples s)) /\
  shimmer_inv (snd (get_latest_samples s)) hist (length hist).
Proof.
  intros [Hth Hlive Hq Hfl]. unfold get_latest_samples.
  destruct (pop_all_spec _ _ _ Hq) as (q & Hpop & _ & Hq'). rewrite Hpop.
  split; [done|]. by constructor.
Qed.

Lemma stop_inv s hist T :
  shimmer_inv s hist T ->
  shimmer_inv (snd (stop_streaming s)) hist T /\
  _thread (snd (stop_streaming s)) = None /\
  live (snd (stop_streaming s)) = 0%nat.
Proof.
  intros [Hth Hlive Hq Hfl]. unfold stop_streaming, loop_exit, live.
  cbn [set_running _thread].
  destruct (_thread s) eqn:Hthread; rewrite ?Hthread in Hlive; cbn;
    (split_and!; [constructor|..]); cbn; rewrite ?Hthread; try done; lia.
Qed.

Lemma exec_inv sin c s hist T :
  shimmer_inv s hist T ->
  exists hist' T', shimmer_inv (snd (exec sin c s)) hist' T' /\
                   sound_response (fst (exec sin c s)).
Proof.
  intros Hinv. destruct c as [port| | | |now]; cbn [exec].
  - exists hist, T. pose proof (connect_inv port s hist T Hinv) as H.
    unfold connect in *.
    by destruct (negb (_connected (set_connection port _ s))).
  - exists hist, T. pose proof (start_inv s hist T Hinv) as H.
    unfold start_streaming in *.
    destruct (negb (_connected s)); [done|].
    destruct (_running s) eqn:Hrun; [done|].
    cbn [set_running _thread] in *.
    rewrite (proj1 (si_thread _ _ _ Hinv) Hrun) in *. done.
  - exists hist, T. destruct (stop_inv s hist T Hinv) as (H & _). done.
  - exists hist, (length hist).
    destruct (get_latest_samples_inv s hist T Hinv) as [Heq H]. rewrite Heq.
    cbn [fst snd respond sound_response]. split; [done|].
    apply Forall_drop, (si_floor _ _ _ Hinv).
  - destruct (loop_step_inv sin now s hist T Hinv) as (h' & T' & H & Hr).
    exists h', T'. destruct (loop_step sin now s) as [o s']. cbn [fst snd] in *.
    by subst o.
Qed.

Lemma session_inv sin cs : forall s hist T,
  shimmer_inv s hist T ->
  exists hist' T', shimmer_inv (snd (session sin cs s)) hist' T' /\
                   Forall sound_response (fst (session sin cs s)).
Proof.
  induction cs as [|c cs IH]; intros s hist T Hinv; cbn [session].
  - exists hist, T. split; [done|constructor].
  - destruct (exec_inv sin c s hist T Hinv) as (h1 & T1 & Hinv1 & Hr).
    destruct (exec sin c s) as [r s1]. cbn [fst snd] in *.
    destruct (IH s1 h1 T1 Hinv1) as (h2 & T2 & Hinv2 & Hrs).
    destruct (session sin cs s1) as [rs s2]. cbn [fst snd] in *.
    exists h2, T2. split; [done|]. by constructor.
Qed.

Lemma reachable_inv sin s0 cs :
  NativeShimmer_new = Some s0 ->
  exists hist T, shimmer_inv (snd (session sin cs s0)) hist T.
Proof.
  rewrite NativeShimmer_new_eq. intros [= <-].
  destruct (session_inv sin cs shimmer0 [] 0%nat shimmer_inv_new) as (h & T & H & _).
  by exists h, T.
Qed.

(** Once the flag is cleared, two schedulings of a context are enough for
    [run_loop] to return, whatever the clock reads: the join in
    [stop_streaming] does not wait forever. *)
Lemma loop_leaves sin s now1 now2 :
  is_Some (_thread s) ->
  _thread (snd (loop_step sin now2 (snd (loop_step sin now1 (set_running false s)))))
    = Some Finished.
Proof.
  intros [c Hc]. unfold loop_step at 2. cbn [set_running _thread _running negb].
  rewrite Hc. destruct c as [|phase t_next|]; cbn [snd].
  - unfold loop_step. cbn. done.
  - unfold loop_exit. cbn [set_running _thread]. rewrite Hc. cbn. done.
  - unfold loop_step. cbn [set_running _thread]. rewrite Hc. cbn. done.
Qed.

(** C6 (start).  In every state a session can reach: [start_streaming] on a
    [Running] stream returns and changes nothing; on a [Disconnected]
    stream it throws the not-connected error and changes nothing; on a
    [Connected] stream it returns with the stream [Running] and one new
    execution context, whose first scheduling enters the sampling loop. *)
Theorem start_error_handling sin s0 (cs : list call) :
  NativeShimmer_new = Some s0 ->
  let s := snd (session sin cs s0) in
  (state_of s = Running -> start_streaming s = (Returns (), s)) /\
  (state_of s = Disconnected -> start_streaming s = (Throws NotConnectedError, s)) /\
  (state_of s = Connected ->
     exists s', start_streaming s = (Returns (), s') /\
       state_of s' = Running /\ _running s' = true /\
       _thread s = None /\ _thread s' = Some Starting /\
       spawned s' = S (spawned s) /\ live s = 0%nat /\ live s' = 1%nat /\
       _queue s' = _queue s /\
       forall now, _thread (snd (loop_step sin now s')) = Some (Looping 0 now)).
Proof.
  intros Hnew s. destruct (reachable_inv sin s0 cs Hnew) as (hist & T & Hinv).
  fold s in Hinv. clearbody s. destruct Hinv as [Hth Hlive _ _].
  unfold state_of, start_streaming, live.
  destruct (_connected s) eqn:Hc, (_running s) eqn:Hrun; cbn [negb];
    split_and!; try done.
  intros _. pose proof (proj1 Hth eq_refl) as Hnone.
  cbn [set_running _thread]. rewrite Hnone in *.
  eexists. split; [reflexivity|]. cbn. rewrite Hc. split_and!; try done; lia.
Qed.

Lemma start_error_handling_witness :
  NativeShimmer_new = Some shimmer0 /\
  state_of (snd (session (fun x => x) [Connect "COM3"] shimmer0)) = Connected /\
  exists s', start_streaming (snd (session (fun x => x) [Connect "COM3"] shimmer0))
               = (Returns (), s') /\ state_of s' = Running.
Proof.
  assert (NativeShimmer_new = Some shimmer0) as H0 by (vm_compute; reflexivity).
  assert (state_of (snd (session (fun x => x) [Connect "COM3"] shimmer0)) = Connected)
    as H1 by reflexivity.
  split; [exact H0|]. split; [exact H1|].
  destruct (proj2 (proj2 (start_error_handling (fun x => x) shimmer0 [Connect "COM3"] H0)) H1)
    as (s' & Hs & Hst & _).
  exists s'. split; [exact Hs|exact Hst].
Defined.

Lemma stop_noop s :
  _running s = false -> _thread s = None ->
  observable (snd (stop_streaming s)) = observable s.
Proof.
  intros Hrun Hth. unfold stop_streaming, observable. cbn [set_running _thread].
  rewrite Hth. cbn. by rewrite Hth, Hrun.
Qed.

(** C7 (stop).  In every state a session can reach: [stop_streaming]
    returns; when no loop is running it changes nothing a caller can
    observe; when the loop is running the context leaves [run_loop], the
    thread is joined and the flag is cleared, the connection and the queue
    are untouched, so a [Running] stream is [Connected] again.  A stream
    never has more than one live execution context, [start_streaming] on
    a [Running] stream creates none, and a start directly followed by a
    stop leaves no live context. *)
Theorem stop_lifecycle sin s0 (cs : list call) :
  NativeShimmer_new = Some s0 ->
  let s := snd (session sin cs s0) in
  let s' := snd (stop_streaming s) in
  fst (stop_streaming s) = Returns () /\
  (_running s = false -> observable s' = observable s) /\
  (_running s = true ->
     (forall now1 now2,
        _thread (snd (loop_step sin now2 (snd (loop_step sin now1 (set_running false s)))))
          = Some Finished) /\
     _running s' = false /\ _thread s' = None /\ joined s' = S (joined s) /\
     live s = 1%nat /\ live s' = 0%nat /\
     _connected s' = _connected s /\ _port s' = _port s /\ _queue s' = _queue s /\
     (state_of s = Running -> state_of s' = Connected)) /\
  (live s <= 1)%nat /\
  (state_of s = Running -> start_streaming s = (Returns (), s)) /\
  live (snd (stop_streaming (snd (start_streaming s)))) = 0%nat /\
  observable (snd (stop_streaming s')) = observable s'.
Proof.
  intros Hnew s s'. destruct (reachable_inv sin s0 cs Hnew) as (hist & T & Hinv).
  fold s in Hinv. subst s'. clearbody s.
  pose proof (stop_inv _ _ _ (start_inv s hist T Hinv)) as (_ & _ & Hlive1).
  pose proof (stop_inv _ _ _ Hinv) as (Hinv' & Hth' & Hlive').
  destruct Hinv as [Hth Hlive _ _].
  split_and!; try done.
  - intros Hrun. apply stop_noop; [done|by apply Hth].
  - intros Hrun.
    assert (is_Some (_thread s)) as [c Hc].
    { destruct (_thread s) eqn:E; [by eexists|].
      pose proof (proj2 Hth eq_refl). congruence. }
    assert (snd (stop_streaming s) =
            print "Shimmer streaming stopped"
                  (join (set_context Finished (set_running false s)))) as Hstop.
    { unfold stop_streaming, loop_exit. cbn [set_running _thread]. by rewrite Hc. }
    rewrite Hstop. unfold live in *. rewrite Hlive, Hc.
    split_and!; try done; try (cbn; lia).
    + intros now1 now2. apply loop_leaves. by exists c.
    + cbn. rewrite Hlive, Hc. lia.
    + unfold state_of. cbn. by destruct (_connected s).
  - unfold live. rewrite Hlive. destruct (_thread s); lia.
  - unfold state_of, start_streaming.
    by destruct (_connected s), (_running s).
  - apply stop_noop; [|done]. by apply (si_thread _ _ _ Hinv').
Qed.

Lemma stop_lifecycle_witness :
  NativeShimmer_new = Some shimmer0 /\
  fst (stop_streaming (snd (session (fun x => x) sample_session shimmer0))) = Returns ().
Proof.
  assert (NativeShimmer_new = Some shimmer0) as H0 by (vm_compute; reflexivity).
  split; [exact H0|].
  exact (proj1 (stop_lifecycle (fun x => x) shimmer0 sample_session H0)).
Defined.

(** C10 (lower bound on sample values).  The value the sampling loop
    pushes is the clamp [std::max(0.1, gsr_value)], which is at least [0.1]
    whatever [std::sin] and the noise produce; hence in every session no
    call crashes and every pair returned by [get_latest_samples] has a
    value that is at least [0.1], in particular greater than zero. *)
Theorem sample_values_floor sin s0 (cs : list call) :
  NativeShimmer_new = Some s0 ->
  (forall phase rng, (point1 <=? gsr_sample sin phase rng)%float = true) /\
  Forall sound_response (fst (session sin cs s0)) /\
  (forall l p, Samples l ∈ fst (session sin cs s0) -> p ∈ l ->
     (point1 <=? p.2)%float = true /\ (0 <? p.2)%float = true).
Proof.
  rewrite NativeShimmer_new_eq. intros [= <-].
  destruct (session_inv sin cs shimmer0 [] 0%nat shimmer_inv_new) as (h & T & _ & Hrs).
  split_and!; [apply gsr_sample_floor|done|].
  intros l p Hl Hp. rewrite Forall_forall in Hrs. specialize (Hrs _ Hl). cbn in Hrs.
  rewrite Forall_forall in Hrs. specialize (Hrs _ Hp).
  split; [done|by apply floor_positive].
Qed.

Lemma sample_values_floor_witness :
  NativeShimmer_new = Some shimmer0 /\
  Forall sound_response (fst (session (fun x => x) sample_session shimmer0)).
Proof.
  assert (NativeShimmer_new = Some shimmer0) as H0 by (vm_compute; reflexivity).
  split; [exact H0|].
  exact (proj1 (proj2 (sample_values_floor (fun x => x) shimmer0 sample_session H0))).
Defined.

(** ** The frame loop *)

Module WebcamFacts.
Import Webcam.

Section Facts.
Variable cv_resize : Mat -> Z -> Z -> Mat.
Variable cv_gray2bgr : Mat -> Mat.

Lemma capture_cycle_failed a w :
  failed a = true -> capture_cycle cv_resize cv_gray2bgr a w = Some w.
Proof.
  destruct a as [frame|]; cbn [failed capture_cycle]; [|done].
  by intros ->.
Qed.

Lemma capture_cycles_failed acqs : forall w,
  Forall (fun a => failed a = true) acqs ->
  capture_cycles cv_resize cv_gray2bgr acqs w = Some w.
Proof.
  induction acqs as [|a acqs IH]; intros w Hall; cbn [capture_cycles]; [done|].
  apply Forall_cons in Hall as [Ha Hall].
  rewrite (capture_cycle_failed a w Ha). cbn [mbind option_bind]. by apply IH.
Qed.

(** A successful acquisition of a three-channel frame of the buffer's size
    replaces the whole buffer. *)
Lemma capture_cycle_ok frame w :
  empty frame = false -> cols frame = _width w -> rows frame = _height w ->
  channels frame = 3 -> length (data frame) = length (_buffer w) ->
  capture_cycle cv_resize cv_gray2bgr (Some frame) w = Some (set_buffer (data frame) w).
Proof.
  intros He Hc Hr Hch Hlen. cbn [capture_cycle]. rewrite He, Hc, Hr, !Z.eqb_refl.
  cbn [negb orb]. rewrite Hch. cbn. unfold memcpy. rewrite Hlen, Nat.leb_refl.
  cbn. by rewrite <- Hlen, firstn_all.
Qed.

(** The synthetic source has no failing cycle: it rewrites every pixel. *)
Example synthetic_cycle_tiny :
  synthetic_cycle 0 tiny_webcam = Some (set_buffer [0; 255; 0; 127; 128; 127] tiny_webcam).
Proof. reflexivity. Qed.

End Facts.
End WebcamFacts.

(** C8 (frame staleness).  If each of N consecutive acquisitions of the
    capture loop fails (the read returns false or delivers an empty frame),
    the loop runs through the N cycles without writing the buffer: the
    stream is unchanged and [get_latest_frame] returns what it returned
    before them; when the acquisition before them succeeded with a frame
    of the buffer's size, that frame is what it keeps returning. *)
Theorem frame_staleness cv_resize cv_gray2bgr
    (acqs : list Webcam.acquisition) (w : Webcam.NativeWebcam) :
  Forall (fun a => Webcam.failed a = true) acqs ->
  (exists w', Webcam.capture_cycles cv_resize cv_gray2bgr acqs w = Some w' /\
              Webcam._buffer w' = Webcam._buffer w /\
              Webcam._running w' = Webcam._running w /\
              Webcam.get_latest_frame w' = Webcam.get_latest_frame w) /\
  (forall frame,
     Webcam.empty frame = false ->
     Webcam.cols frame = Webcam._width w -> Webcam.rows frame = Webcam._height w ->
     Webcam.channels frame = 3 ->
     length (Webcam.data frame) = length (Webcam._buffer w) ->
     exists w', Webcam.capture_cycles cv_resize cv_gray2bgr (Some frame :: acqs) w = Some w' /\
                Webcam.get_latest_frame w' =
                  ([Webcam._height w; Webcam._width w; 3], [Webcam._width w * 3; 3; 1],
                   Webcam.data frame)).
Proof.
  intros Hall. split.
  - exists w. split; [|done]. by apply WebcamFacts.capture_cycles_failed.
  - intros frame He Hc Hr Hch Hlen.
    exists (Webcam.set_buffer (Webcam.data frame) w). split; [|reflexivity].
    cbn [Webcam.capture_cycles].
    rewrite (WebcamFacts.capture_cycle_ok cv_resize cv_gray2bgr frame w He Hc Hr Hch Hlen).
    cbn [mbind option_bind]. by apply WebcamFacts.capture_cycles_failed.
Qed.

Lemma frame_staleness_witness :
  Forall (fun a => Webcam.failed a = true) [None; Some Webcam.empty_frame; None] /\
  exists w', Webcam.capture_cycles (fun m _ _ => m) (fun m => m)
               [None; Some Webcam.empty_frame; None]
               (Webcam.set_buffer (Webcam.data Webcam.tiny_frame) Webcam.tiny_webcam)
             = Some w' /\
             Webcam._buffer w' = Webcam.data Webcam.tiny_frame.
Proof.
  assert (Forall (fun a => Webcam.failed a = true) [None; Some Webcam.empty_frame; None])
    as H by (repeat constructor).
  split; [exact H|].
  destruct (proj1 (frame_staleness (fun m _ _ => m) (fun m => m) _
              (Webcam.set_buffer (Webcam.data Webcam.tiny_frame) Webcam.tiny_webcam) H))
    as (w' & Hrun & Hbuf & _).
  exists w'. split; [exact Hrun|exact Hbuf].
Defined.

(** ** The interleaved execution of [push] and [pop_all] *)

Module HandoffFacts.
Import Handoff.

Lemma vget_some {A} (b : list A) i :
  0 <= i < Z.of_nat (length b) -> exists x, vget b i = Some x.
Proof.
  intros Hi. unfold vget. destruct (Z.leb_spec 0 i); [|lia].
  destruct (lookup_lt_is_Some_2 b (Z.to_nat i) ltac:(lia)) as [x Hx]. by exists x.
Qed.

(** Under the class invariant the two indices of a slot are in range. *)
Lemma wf_slot r h :
  wf r ->
  0 < _cap r /\ 4 * _cap r <= modulus /\
  0 <= h mod _cap r < _cap r /\
  wrap (slot r h + 0) = 2 * (h mod _cap r) /\
  wrap (slot r h + 1) = 2 * (h mod _cap r) + 1 /\
  2 * (h mod _cap r) + 1 < Z.of_nat (length (_buf r)).
Proof.
  intros (k & Hk & Hcap & Hmask & Hlen). pose proof (cap_bounds k Hk) as [Hpos Hmod].
  unfold slot. rewrite Hmask, Hcap, land_mask by lia.
  pose proof (Z.mod_pos_bound h (2 ^ k) Hpos) as Hm.
  rewrite (wrap_small (_ * 2)) by lia.
  rewrite !wrap_small by lia. lia.
Qed.

Lemma wrap_mod_cap r z : wf r -> wrap z mod _cap r = z mod _cap r.
Proof. intros (k & Hk & -> & _). apply wrap_mod_pow2. lia. Qed.

(** *** No blocking, no retries *)

Lemma start_sane r input : wf r -> sane (start r input).
Proof. by split. Qed.

Lemma step_sane who c :
  sane c -> exists c', step who c = Some c' /\ sane c'.
Proof.
  intros [Hwf Hctl]. destruct who; cbn [step].
  - unfold step_producer.
    destruct (prod c) as [|h n t v|h n t v|h n|n|n tcur] eqn:Hp.
    + destruct (todo c) as [|[t v] rest]; eexists; (split; [reflexivity|]); by split.
    + destruct (wf_slot (ring c) h Hwf) as (_ & _ & Hm & -> & _ & Hlen).
      rewrite vset_some by lia. eexists. split; [reflexivity|].
      split; [|done]. destruct Hwf as (k & ? & ? & ? & ?). exists k.
      cbn. rewrite length_insert. done.
    + destruct (wf_slot (ring c) h Hwf) as (_ & _ & Hm & _ & -> & Hlen).
      rewrite vset_some by lia. eexists. split; [reflexivity|].
      split; [|done]. destruct Hwf as (k & ? & ? & ? & ?). exists k.
      cbn. rewrite length_insert. done.
    + eexists. split; [reflexivity|]. by split.
    + eexists. split; [reflexivity|]. by split.
    + eexists. split; [reflexivity|]. split; [|done]. cbn.
      by destruct (_cap (ring c) <? wrap (n - tcur)).
  - unfold step_consumer.
    destruct (cons c) as [|tcur|tcur h count i out|tcur h count i out x|h out] eqn:Hk.
    + eexists. split; [reflexivity|]. by split.
    + eexists. split; [reflexivity|]. split; [done|]. cbn.
      destruct (Z.ltb_spec 0 (wrap (_head (ring c) - tcur))); [|done].
      cbn. pose proof (wrap_range (_head (ring c) - tcur)). lia.
    + destruct (wf_slot (ring c) (wrap (tcur + i)) Hwf) as (_ & _ & Hm & -> & _ & Hlen).
      destruct (vget_some (_buf (ring c)) (2 * (wrap (tcur + i) mod _cap (ring c))))
        as [x Hx]; [lia|].
      rewrite Hx. eexists. split; [reflexivity|]. by split.
    + destruct (wf_slot (ring c) (wrap (tcur + i)) Hwf) as (_ & _ & Hm & _ & -> & Hlen).
      destruct (vget_some (_buf (ring c)) (2 * (wrap (tcur + i) mod _cap (ring c)) + 1))
        as [y Hy]; [lia|].
      rewrite Hy. eexists. split; [reflexivity|]. split; [done|]. cbn.
      cbn in Hctl. rewrite (wrap_small (i + 1)) by lia.
      destruct (Z.ltb_spec (i + 1) count); [|done]. cbn. lia.
    + eexists. split; [reflexivity|]. by split.
Qed.

(** An access of the producer inside [push] brings it one access closer
    to the end of the call and leaves the consumer where it is. *)
Lemma producer_progress c c' :
  step P c = Some c' ->
  cons c' = cons c /\
  (prod c <> PIdle -> producer_left (prod c') = producer_left (prod c) - 1).
Proof.
  cbn [step]. unfold step_producer. intros Hstep.
  destruct (prod c) as [|h n t v|h n t v|h n|n|n tcur] eqn:Hp.
  - destruct (todo c) as [|[t v] rest]; injection Hstep as <-; by rewrite ?Hp.
  - destruct (vset _ _ t); [|done]. by injection Hstep as <-.
  - destruct (vset _ _ v); [|done]. by injection Hstep as <-.
  - by injection Hstep as <-.
  - by injection Hstep as <-.
  - by injection Hstep as <-.
Qed.

(** An access of the consumer inside the loop of [pop_all] brings it one
    access closer to the end of the call and leaves the producer where it
    is. *)
Lemma consumer_progress c c' :
  sane c -> step C c = Some c' ->
  prod c' = prod c /\ todo c' = todo c /\ pushed c' = pushed c /\
  (0 < consumer_left (cons c) ->
   consumer_left (cons c') = consumer_left (cons c) - 1).
Proof.
  intros [_ Hctl]. cbn [step]. unfold step_consumer. intros Hstep.
  destruct (cons c) as [|tcur|tcur h count i out|tcur h count i out x|h out] eqn:Hk.
  - by injection Hstep as <-.
  - by injection Hstep as <-.
  - destruct (vget _ _); [|done]. injection Hstep as <-. cbn. split_and!; try done. lia.
  - destruct (vget _ _); [|done]. injection Hstep as <-. cbn. split_and!; try done.
    cbn in Hctl. rewrite (wrap_small (i + 1)) by lia.
    destruct (Z.ltb_spec (i + 1) count); cbn; lia.
  - by injection Hstep as <-.
Qed.


(** *** Invariant preservation *)

Lemma slot_eq r h : wf r -> slot r h = 2 * (h mod _cap r).
Proof.
  intros Hwf. destruct (wf_slot r h Hwf) as (_ & _ & Hm & H0 & _).
  rewrite Z.add_0_r in H0. unfold slot in *. by rewrite wrap_wrap in H0.
Qed.

Lemma no_collision_slots c tcur h count i out x hp n t v :
  wf (ring c) -> collision c = false ->
  cons c = CReadV tcur h count i out x -> prod c = PWriteV hp n t v ->
  (tcur + i) mod _cap (ring c) <> hp mod _cap (ring c).
Proof.
  intros Hwf Hcol Hk Hp. unfold collision in Hcol. rewrite Hk, Hp in Hcol.
  rewrite !slot_eq, wrap_mod_cap in Hcol by done.
  apply Z.eqb_neq in Hcol. lia.
Qed.

Lemma all_pushed_mono c c' out :
  (forall s, s ∈ pushed c -> s ∈ pushed c') -> all_pushed c out -> all_pushed c' out.
Proof.
  intros Hsub H. unfold all_pushed in *. eapply Forall_impl; [exact H|]. auto.
Qed.

(** What a step of the producer has to keep for the consumer's locals. *)
Lemma consumer_pos_step c c' :
  cons c' = cons c ->
  _cap (ring c') = _cap (ring c) ->
  (completed c' < _cap (ring c) ->
     completed c < _cap (ring c) /\ _head (ring c) <= _head (ring c')) ->
  consumer_pos c -> consumer_pos c'.
Proof.
  intros Hk Hcap Hhd. unfold consumer_pos. rewrite Hk, Hcap.
  destruct (cons c) as [|tcur|tcur h count i out|tcur h count i out x|h out] eqn:E;
    try done; intros H Hlt; destruct (Hhd Hlt) as [Hlt' Hle]; specialize (H Hlt'); lia.
Qed.

Lemma consumer_data_step c c' :
  cons c' = cons c ->
  _cap (ring c') = _cap (ring c) ->
  (forall s, s ∈ pushed c -> s ∈ pushed c') ->
  (forall tcur h count i out x, cons c = CReadV tcur h count i out x ->
     vget (_buf (ring c')) (2 * ((tcur + i) mod _cap (ring c)) + 1) =
     vget (_buf (ring c)) (2 * ((tcur + i) mod _cap (ring c)) + 1)) ->
  consumer_data c -> consumer_data c'.
Proof.
  intros Hk Hcap Hsub Hbuf. unfold consumer_data. rewrite Hk, Hcap.
  destruct (cons c) as [|tcur|tcur h count i out|tcur h count i out x|h out] eqn:E;
    try done; try (by apply all_pushed_mono).
  intros (Hout & s & Hs & Hx & Hv). split; [by eapply all_pushed_mono|].
  exists s. split_and!; [by apply Hsub|done|]. by rewrite (Hbuf _ _ _ _ _ _ eq_refl).
Qed.

Lemma results_mono c c' (l : list (list sample)) :
  (forall s, s ∈ pushed c -> s ∈ pushed c') ->
  Forall (all_pushed c) l -> Forall (all_pushed c') l.
Proof.
  intros Hsub H. eapply Forall_impl; [exact H|].
  intros out. by apply all_pushed_mono.
Qed.

Lemma wf_insert r i (x : float) : wf r -> wf (with_buf (<[i := x]> (_buf r)) r).
Proof.
  intros (k & ? & ? & ? & ?). exists k. cbn. by rewrite length_insert.
Qed.

Lemma holds_with_buf r b i s :
  holds (with_buf b r) i s <->
  vget b (2 * (i mod _cap r)) = Some s.1 /\ vget b (2 * (i mod _cap r) + 1) = Some s.2.
Proof. done. Qed.

(** A step of the producer keeps the invariant; only the write of the
    value needs to know that it does not land in the slot the consumer is
    reading. *)
Lemma step_producer_inv (ok : Prop) c c' :
  inv ok c -> (ok -> collision c = false) -> step P c = Some c' -> inv ok c'.
Proof.
  intros [[Hwf Hctl] Hcomp Hhead Htail Hvis Hprod Hcons Hdata Hres] Hcol.
  cbn [step]. unfold step_producer. intros Hstep.
  pose proof (wf_slot (ring c) (_head (ring c)) Hwf) as (Hcpos & Hcmod & Hm & Hs0 & Hs1 & Hlen).
  rewrite Hhead, wrap_mod_cap in Hm, Hs0, Hs1, Hlen by done. rewrite <- Hhead in Hs0, Hs1.
  pose proof (eq_refl : completed c = Z.of_nat (length (pushed c)) - pending (prod c)) as HK.
  unfold producer_ok in Hprod.
  destruct (prod c) as [|h n t v|h n t v|h n|n|n tcur] eqn:Hp; cbn [pending touched] in *.
  - (* the call begins: [_head] is loaded *)
    destruct (todo c) as [|[t v] rest]; injection Hstep as <-.
    { constructor; try done; unfold producer_ok; by rewrite Hp. }
    assert (forall s, s ∈ pushed c -> s ∈ pushed c ++ [(t, v)]) as Hsub.
    { intros s Hs. apply elem_of_app. by left. }
    match goal with |- inv _ ?c' => assert (completed c' = completed c) as HK' end.
    { unfold completed at 1. cbn [prod pushed pending]. rewrite length_app. cbn [length]. lia. }
    constructor; rewrite ?HK'; cbn [ring prod pushed cons results touched]; try done.
    + intros p s Hs Hr _. rewrite lookup_app_l in Hs by lia. by apply (Hvis p s Hs).
    + unfold producer_ok. cbn [ring prod pushed]. split_and!; try done. apply last_snoc.
    + eapply (consumer_pos_step c); try done. rewrite HK'. cbn [ring]. lia.
    + intros Hok. eapply (consumer_data_step c); try done. by apply Hdata.
    + intros Hok. eapply (results_mono c); [done|]. by apply Hres.
  - (* the timestamp is written *)
    destruct Hprod as (-> & -> & Hlast).
    rewrite Hs0, vset_some in Hstep by lia. injection Hstep as <-.
    match goal with |- inv _ ?c' => assert (completed c' = completed c) as HK' by done end.
    constructor; rewrite ?HK'; cbn [ring prod pushed cons results touched with_buf producer_at
                                    _head _tail _cap]; try done.
    + split; [|done]. by apply wf_insert.
    + intros p s Hs Hr Ht. specialize (Ht eq_refl).
      destruct (Hvis p s Hs ltac:(lia) ltac:(done)) as [H1 H2].
      assert (Z.of_nat p mod _cap (ring c) <> completed c mod _cap (ring c)) as Hne
        by (apply mod_distinct; lia).
      pose proof (Z.mod_pos_bound (Z.of_nat p) (_cap (ring c)) Hcpos).
      apply holds_with_buf. split; rewrite vget_insert_ne by lia; done.
    + unfold producer_ok. cbn. rewrite HK'. split_and!; try done.
      apply vget_insert_eq. lia.
    + eapply (consumer_pos_step c); try done; cbn. rewrite HK'. lia.
    + intros Hok. eapply (consumer_data_step c); try done; [|by apply Hdata]. cbn.
      intros tcur h count i out x _.
      pose proof (Z.mod_pos_bound (tcur + i) (_cap (ring c)) Hcpos).
      apply vget_insert_ne; lia.
  - (* the value is written *)
    destruct Hprod as (-> & -> & Hlast & Ht).
    rewrite Hs1, vset_some in Hstep by lia. injection Hstep as <-.
    match goal with |- inv _ ?c' => assert (completed c' = completed c) as HK' by done end.
    constructor; rewrite ?HK'; cbn [ring prod pushed cons results touched with_buf producer_at
                                    _head _tail _cap]; try done.
    + split; [|done]. by apply wf_insert.
    + intros p s Hs Hr Htch. specialize (Htch eq_refl).
      destruct (Hvis p s Hs ltac:(lia) ltac:(done)) as [H1 H2].
      assert (Z.of_nat p mod _cap (ring c) <> completed c mod _cap (ring c)) as Hne
        by (apply mod_distinct; lia).
      pose proof (Z.mod_pos_bound (Z.of_nat p) (_cap (ring c)) Hcpos).
      apply holds_with_buf. split; rewrite vget_insert_ne by lia; done.
    + unfold producer_ok. cbn. rewrite HK'. split_and!; try done.
      exists t, v. split_and!; [done| |].
      * rewrite vget_insert_ne by lia. done.
      * apply vget_insert_eq. lia.
    + eapply (consumer_pos_step c); try done; cbn. rewrite HK'. lia.
    + intros Hok. eapply (consumer_data_step c); try done; [|by apply Hdata]. cbn.
      intros tcur h count i out x Hk.
      pose proof (no_collision_slots c _ _ _ _ _ _ _ _ _ _ Hwf (Hcol Hok) Hk Hp) as Hne.
      rewrite Hhead, wrap_mod_cap in Hne by done.
      pose proof (Z.mod_pos_bound (tcur + i) (_cap (ring c)) Hcpos).
      apply vget_insert_ne; lia.
  - (* [_head] is stored *)
    destruct Hprod as (-> & -> & t & v & Hlast & Ht & Hv).
    injection Hstep as <-.
    match goal with |- inv _ ?c' => assert (completed c' = completed c + 1) as HK' end.
    { unfold completed. rewrite Hp. cbn. lia. }
    assert (wrap (_head (ring c) + 1) = wrap (completed c + 1)) as Hn
      by (by rewrite Hhead, wrap_add_l).
    constructor; rewrite ?HK'; cbn [ring prod pushed cons results touched with_head producer_at
                                    _head _tail _cap]; try done.
    + lia.
    + intros Hlt. rewrite Hn, wrap_small by lia.
      rewrite Hhead, wrap_small in Htail by lia. lia.
    + intros p s Hs Hr _.
      destruct (decide (Z.of_nat p < completed c)) as [Hlt|Hge].
      * apply (Hvis p s Hs); lia.
      * assert (Z.of_nat p = completed c) as Hpe by lia.
        rewrite last_lookup in Hlast.
        replace (pred (length (pushed c))) with p in Hlast by lia.
        assert (s = (t, v)) as -> by congruence.
        unfold holds. cbn [_buf _cap fst snd]. by rewrite Hpe.
    + eapply (consumer_pos_step c); try done; cbn.
      rewrite HK'. intros Hlt. rewrite Hn, Hhead, !wrap_small by lia. lia.
  - (* [_tail] is loaded *)
    injection Hstep as <-.
    match goal with |- inv _ ?c' => assert (completed c' = completed c) as HK' end.
    { unfold completed. by rewrite Hp. }
    constructor; rewrite ?HK'; cbn [ring prod pushed cons results touched producer_at]; try done.
    + unfold producer_ok. cbn. rewrite HK'. split; [done|]. intros Hlt. rewrite Hprod. by apply Htail.
    + eapply (consumer_pos_step c); try done; cbn. rewrite HK'. lia.
  - (* the test, and [_tail] is stored when the span is too long *)
    destruct Hprod as (-> & Htc).
    injection Hstep as <-.
    set (r' := if _cap (ring c) <? wrap (_head (ring c) - tcur)
               then with_tail (wrap (_head (ring c) - _cap (ring c))) (ring c)
               else ring c).
    assert (_cap r' = _cap (ring c) /\ _mask r' = _mask (ring c) /\
            _buf r' = _buf (ring c) /\ _head r' = _head (ring c)) as (Hc1 & Hc2 & Hc3 & Hc4).
    { subst r'. by destruct (_cap (ring c) <? wrap (_head (ring c) - tcur)). }
    assert (completed c < _cap (ring c) -> r' = ring c) as Hsame.
    { intros Hlt. specialize (Htc Hlt). subst r'.
      rewrite Hhead, wrap_small in Htc by lia.
      rewrite (wrap_small (_ - _)) by (rewrite Hhead, wrap_small; lia).
      destruct (Z.ltb_spec (_cap (ring c)) (_head (ring c) - tcur)); [|done].
      rewrite Hhead, wrap_small in * by lia. lia. }
    clearbody r'.
    match goal with |- inv _ ?c' => assert (completed c' = completed c) as HK' end.
    { unfold completed. by rewrite Hp. }
    constructor; rewrite ?HK'; cbn [ring prod pushed cons results touched producer_at];
      rewrite ?Hc1, ?Hc4; try done.
    + split; [|done]. destruct Hwf as (k & ? & ? & ? & ?). exists k.
      cbn [ring producer_at]. by rewrite Hc1, Hc2, Hc3.
    + intros Hlt. rewrite (Hsame Hlt). by apply Htail.
    + intros p s Hs Hr Htch. unfold holds. rewrite Hc1, Hc3. by apply (Hvis p s Hs).
    + eapply (consumer_pos_step c); try done; cbn [ring cons pushed producer_at];
        rewrite ?Hc1, ?Hc3, ?Hc4; try done. rewrite HK'. lia.
    + intros Hok. eapply (consumer_data_step c); try done; cbn [ring cons pushed producer_at];
        rewrite ?Hc1, ?Hc3, ?Hc4; try done. by apply Hdata.
Qed.

(** Every slot below the head that the current push is not in the middle
    of overwriting holds one pushed sample. *)
Lemma slot_consistent (ok : Prop) c j :
  inv ok c -> 0 <= j < _cap (ring c) ->
  (completed c < _cap (ring c) -> j < completed c) ->
  (forall h n t v, prod c = PWriteV h n t v -> completed c mod _cap (ring c) <> j) ->
  exists s, s ∈ pushed c /\
            vget (_buf (ring c)) (2 * j) = Some s.1 /\
            vget (_buf (ring c)) (2 * j + 1) = Some s.2.
Proof.
  intros [[Hwf Hctl] Hcomp Hhead Htail Hvis Hprod Hcons Hdata Hres] Hj Hsmall Hnw.
  pose proof (eq_refl : completed c = Z.of_nat (length (pushed c)) - pending (prod c)) as HK.
  assert (0 <= pending (prod c) <= 1) as Hpend by (destruct (prod c); cbn; lia).
  set (K := completed c) in *. set (cap := _cap (ring c)) in *.
  assert (exists p : nat, K - cap <= Z.of_nat p < K /\ Z.of_nat p mod cap = j) as (p & Hp & Hpj).
  { destruct (Z.lt_ge_cases K cap) as [Hlt|Hge].
    - exists (Z.to_nat j). specialize (Hsmall Hlt). rewrite Z2Nat.id by lia.
      split; [lia|]. apply Z.mod_small. lia.
    - pose proof (Z.mod_pos_bound (j - K) cap ltac:(lia)) as Hd.
      pose proof (Z.div_mod (j - K) cap ltac:(lia)) as Hdm.
      exists (Z.to_nat (K - cap + (j - K) mod cap)). rewrite Z2Nat.id by lia.
      split; [lia|].
      replace (K - cap + (j - K) mod cap) with (j + (- ((j - K) / cap) - 1) * cap) by lia.
      rewrite Z_mod_plus_full. apply Z.mod_small. lia. }
  destruct (lookup_lt_is_Some_2 (pushed c) p ltac:(lia)) as [s Hs].
  destruct (decide (touched (prod c) = true /\ Z.of_nat p = K - cap)) as [[Htch Hpe]|Hno].
  - assert (K mod cap = j) as HKj.
    { rewrite <- Hpj, Hpe. replace (K - cap) with (K + (-1) * cap) by lia.
      by rewrite Z_mod_plus_full. }
    unfold producer_ok in Hprod. fold K cap in Hprod.
    destruct (prod c) as [|h n t v|h n t v|h n|n|n tcur] eqn:Hpc; try done.
    + by destruct (Hnw _ _ _ _ eq_refl).
    + destruct Hprod as (_ & _ & t & v & Hlast & Ht & Hv).
      exists (t, v). rewrite HKj in Ht, Hv. split_and!; [|done..].
      rewrite last_lookup in Hlast. by eapply list_elem_of_lookup_2.
  - destruct (Hvis p s Hs ltac:(lia)) as [H1 H2].
    { intros Htch. destruct (decide (Z.of_nat p = K - cap)); [|lia]. by destruct Hno. }
    fold cap in H1, H2. rewrite Hpj in H1, H2.
    exists s. split_and!; [|done..]. by eapply list_elem_of_lookup_2.
Qed.

(** A step of the consumer keeps the invariant; only the read of a
    timestamp needs to know that the producer is not in the middle of
    writing that slot. *)
Lemma step_consumer_inv (ok : Prop) c c' :
  inv ok c -> step C c = Some c' -> (ok -> collision c' = false) -> inv ok c'.
Proof.
  intros Hinv Hstep Hcol.
  destruct (step_sane C c (inv_sane ok c Hinv)) as (c1 & Hc1 & Hsane').
  rewrite Hstep in Hc1. injection Hc1 as <-.
  pose proof Hinv as [[Hwf Hctl] Hcomp Hhead Htail Hvis Hprod Hcons Hdata Hres].
  pose proof (wf_slot (ring c) 0 Hwf) as (Hcpos & Hcmod & _).
  cbn [step] in Hstep. unfold step_consumer in Hstep.
  unfold consumer_pos in Hcons. unfold consumer_data in Hdata.
  destruct (cons c) as [|tcur|tcur h count i out|tcur h count i out x|h out] eqn:Hk.
  - (* [_tail] is loaded *)
    injection Hstep as <-.
    constructor; try done.
  - (* [_head] is loaded *)
    injection Hstep as <-.
    assert (completed c < _cap (ring c) ->
            0 <= tcur /\ tcur + wrap (_head (ring c) - tcur) <= _head (ring c) /\
            0 <= _head (ring c) <= _head (ring c)) as Hfacts.
    { intros Hlt. specialize (Hcons Hlt).
      assert (_head (ring c) = completed c) as Hh by (rewrite Hhead; apply wrap_small; lia).
      rewrite wrap_small by lia. lia. }
    constructor; try done.
    + unfold consumer_pos. cbn [cons consumer_at ring].
      destruct (0 <? wrap (_head (ring c) - tcur)); [done|].
      intros Hlt. specialize (Hfacts Hlt). lia.
    + intros _. unfold consumer_data. cbn [cons consumer_at ring].
      destruct (0 <? wrap (_head (ring c) - tcur)); constructor.
  - (* the timestamp of a slot is read *)
    destruct (wf_slot (ring c) (wrap (tcur + i)) Hwf) as (_ & _ & Hm & Hs0 & _ & Hlen).
    rewrite wrap_mod_cap in Hm, Hs0, Hlen by done. rewrite Hs0 in Hstep.
    destruct (vget (_buf (ring c)) (2 * ((tcur + i) mod _cap (ring c)))) as [x|] eqn:Hx;
      [|done].
    injection Hstep as <-. cbn in Hctl.
    constructor; try done.
    intros Hok. specialize (Hdata Hok). specialize (Hcol Hok).
    destruct (slot_consistent ok c ((tcur + i) mod _cap (ring c)) Hinv Hm) as (s & Hs & H1 & H2).
    { intros Hlt. specialize (Hcons Hlt).
      assert (_head (ring c) = completed c) as Hh by (rewrite Hhead; apply wrap_small; lia).
      rewrite Z.mod_small; lia. }
    { intros hp n t v Hp Heq.
      match type of Hcol with collision ?c' = false =>
        pose proof (no_collision_slots c' tcur h count i out x hp n t v Hwf Hcol eq_refl Hp)
          as Hne end.
      cbn [ring consumer_at] in Hne.
      unfold producer_ok in Hprod. rewrite Hp in Hprod. destruct Hprod as (-> & _).
      rewrite Hhead, wrap_mod_cap in Hne by done. done. }
    unfold consumer_data. cbn [cons consumer_at ring]. split; [done|].
    exists s. split_and!; [done| |done]. congruence.
  - (* the value of the slot is read *)
    destruct (wf_slot (ring c) (wrap (tcur + i)) Hwf) as (_ & _ & Hm & _ & Hs1 & Hlen).
    rewrite wrap_mod_cap in Hm, Hs1, Hlen by done. rewrite Hs1 in Hstep.
    destruct (vget (_buf (ring c)) (2 * ((tcur + i) mod _cap (ring c)) + 1)) as [y|] eqn:Hy;
      [|done].
    injection Hstep as <-. cbn in Hctl.
    constructor; try done.
    + unfold consumer_pos. cbn [cons consumer_at ring].
      destruct (wrap (i + 1) <? count); [done|].
      intros Hlt. specialize (Hcons Hlt). lia.
    + intros Hok. destruct (Hdata Hok) as (Hout & s & Hs & Hsx & Hsy).
      assert (all_pushed c (out ++ [(x, y)])) as Hout'.
      { apply Forall_app. split; [done|]. constructor; [|done].
        assert (y = s.2) as -> by congruence. rewrite <- Hsx. by destruct s. }
      unfold consumer_data. cbn [cons consumer_at ring].
      by destruct (wrap (i + 1) <? count).
  - (* [_tail] is stored and the vector returned *)
    injection Hstep as <-.
    constructor; try done.
    intros Hok. cbn [results]. apply Forall_app. split; [by apply Hres|].
    constructor; [|done]. by apply Hdata.
Qed.

Lemma inv_start (ok : Prop) r input :
  wf r -> _head r = 0 -> _tail r = 0 -> inv ok (start r input).
Proof.
  intros Hwf Hh Ht. pose proof (wf_slot r 0 Hwf) as (Hcpos & _).
  constructor.
  - by split.
  - done.
  - cbn. by rewrite Hh.
  - cbn. rewrite Hh, Ht. lia.
  - intros p s _ Hr _. unfold completed in Hr.
    cbn [start prod pushed pending length] in Hr. lia.
  - done.
  - done.
  - done.
  - intros _. constructor.
Qed.

Lemma visited_head sched c : exists l, visited sched c = c :: l.
Proof. destruct sched; eexists; reflexivity. Qed.

(** Along every schedule the invariant holds; what it says about the pairs
    read holds as long as no collision occurred. *)
Lemma run_inv (ok : Prop) sched : forall c,
  inv ok c ->
  (ok -> Forall (fun c1 => collision c1 = false) (visited sched c)) ->
  exists c', run sched c = Some c' /\ inv ok c'.
Proof.
  induction sched as [|who sched IH]; intros c Hinv Hcol; cbn [run].
  - by exists c.
  - destruct (step_sane who c (inv_sane ok c Hinv)) as (c1 & Hstep & _).
    rewrite Hstep. cbn [mbind option_bind]. cbn [visited] in Hcol. rewrite Hstep in Hcol.
    apply IH.
    + destruct who.
      * apply (step_producer_inv ok c c1 Hinv); [|done].
        intros Hok. specialize (Hcol Hok). by apply Forall_cons in Hcol as [? _].
      * apply (step_consumer_inv ok c c1 Hinv Hstep).
        intros Hok. specialize (Hcol Hok). apply Forall_cons in Hcol as [_ Hcol].
        destruct (visited_head sched c1) as [l Hl]. rewrite Hl in Hcol.
        by apply Forall_cons in Hcol as [? _].
    + intros Hok. specialize (Hcol Hok). by apply Forall_cons in Hcol as [_ ?].
Qed.

Lemma visited_sane sched : forall c c1,
  sane c -> c1 ∈ visited sched c -> sane c1.
Proof.
  induction sched as [|who sched IH]; intros c c1 Hs Hin; cbn [visited] in Hin.
  - apply list_elem_of_singleton in Hin. by subst.
  - apply elem_of_cons in Hin as [->|Hin]; [done|].
    destruct (step_sane who c Hs) as (c2 & Hstep & Hs2). rewrite Hstep in Hin.
    by apply (IH c2).
Qed.


(** *** The calls as runs of accesses *)

(** Six accesses of the producer with no access of the consumer in
    between are one call of [push]. *)
Lemma push_as_steps c t v rest r' :
  prod c = PIdle -> todo c = (t, v) :: rest -> push t v (ring c) = Some r' ->
  exists c', run [P; P; P; P; P; P] c = Some c' /\
             ring c' = r' /\ prod c' = PIdle /\ todo c' = rest /\
             pushed c' = pushed c ++ [(t, v)] /\
             cons c' = cons c /\ results c' = results c.
Proof.
  destruct c as [r p td pu k rs]. cbn [prod todo ring pushed cons results].
  intros -> -> Hpush. unfold push in Hpush.
  destruct (vset (_buf r) _ t) as [b1|] eqn:H1; [|done].
  cbn [mbind option_bind] in Hpush.
  destruct (vset b1 _ v) as [b2|] eqn:H2; [|done].
  cbn [mbind option_bind] in Hpush. injection Hpush as <-.
  cbn [run step step_producer prod todo ring pushed cons results mbind option_bind].
  rewrite H1.
  cbn [run step step_producer prod todo ring pushed cons results mbind option_bind
       producer_at with_buf _buf].
  change (slot (with_buf b1 r) (_head r)) with (slot r (_head r)).
  rewrite H2.
  cbn [run step step_producer prod todo ring pushed cons results mbind option_bind
       producer_at with_buf with_head _buf _head _tail _cap].
  eexists. split; [reflexivity|].
  cbn [prod todo ring pushed cons results]. split_and!; try done.
  by destruct (_cap r <? wrap (wrap (_head r + 1) - _tail r)).
Qed.


Lemma run_app s1 s2 c : run (s1 ++ s2) c = run s1 c ≫= run s2.
Proof.
  revert c. induction s1 as [|who s1 IH]; intros c; cbn [run app]; [done|].
  destruct (step who c) as [c1|]; cbn [mbind option_bind]; [apply IH|done].
Qed.

(** The loop of [pop_all], two accesses per sample, with no access of the
    producer in between. *)
Lemma pop_loop_as_steps tcur h count (n : nat) : forall c i out res,
  cons c = CReadT tcur h count i out ->
  count - i = Z.of_nat (S n) -> 0 <= i -> count < modulus ->
  pop_loop (ring c) tcur (S n) i out = Some res ->
  exists c', run (replicate (2 * S n) C) c = Some c' /\
             cons c' = CStoreTail h res /\ ring c' = ring c /\ prod c' = prod c /\
             todo c' = todo c /\ pushed c' = pushed c /\ results c' = results c.
Proof.
  induction n as [|n IH]; intros c i out res Hk Hn Hi Hcount Hloop;
    destruct c as [r p td pu k rs]; cbn [cons ring prod todo pushed results] in *; subst k;
    cbn [pop_loop] in Hloop;
    (destruct (vget (_buf r) (wrap (slot r (wrap (tcur + i)) + 0))) as [x|] eqn:Hx; [|done]);
    cbn [mbind option_bind] in Hloop;
    (destruct (vget (_buf r) (wrap (slot r (wrap (tcur + i)) + 1))) as [y|] eqn:Hy; [|done]);
    cbn [mbind option_bind] in Hloop;
    rewrite ?(wrap_small (i + 1)) in Hloop by lia.
  - change (2 * 1)%nat with 2%nat.
    cbn [replicate run step step_consumer cons ring mbind option_bind].
    rewrite Hx. cbn [mbind option_bind consumer_at cons ring step_consumer].
    rewrite Hy. cbn [mbind option_bind consumer_at cons ring prod todo pushed results].
    rewrite (wrap_small (i + 1)) by lia.
    destruct (Z.ltb_spec (i + 1) count); [lia|].
    injection Hloop as <-. eexists. split; [reflexivity|]. done.
  - replace (2 * S (S n))%nat with (S (S (2 * S n)))%nat by lia.
    cbn [replicate run step step_consumer cons ring mbind option_bind].
    rewrite Hx. cbn [mbind option_bind consumer_at cons ring step_consumer].
    rewrite Hy. cbn [mbind option_bind consumer_at cons ring prod todo pushed results].
    rewrite (wrap_small (i + 1)) by lia.
    destruct (Z.ltb_spec (i + 1) count); [|lia].
    match goal with |- exists c', run _ ?c1 = _ /\ _ =>
      destruct (IH c1 (i + 1) (out ++ [(x, y)]) res eq_refl ltac:(lia) ltac:(lia) Hcount Hloop)
        as (c' & Hrun & Hc') end.
    exists c'. split; [|exact Hc']. exact Hrun.
Qed.

(** The accesses of the consumer with no access of the producer in
    between are one call of [pop_all]. *)
Lemma pop_all_as_steps c out r' :
  cons c = CIdle -> pop_all (ring c) = Some (out, r') ->
  exists c',
    run (replicate (3 + 2 * Z.to_nat (wrap (_head (ring c) - _tail (ring c)))) C) c = Some c' /\
    ring c' = r' /\ cons c' = CIdle /\ results c' = results c ++ [out] /\
    prod c' = prod c /\ todo c' = todo c /\ pushed c' = pushed c.
Proof.
  destruct c as [r p td pu k rs]. cbn [cons ring prod todo pushed results].
  intros -> Hpop. unfold pop_all in Hpop.
  pose proof (wrap_range (_head r - _tail r)) as Hrange.
  set (count := wrap (_head r - _tail r)) in *.
  destruct (pop_loop r (_tail r) (Z.to_nat count) 0 []) as [res|] eqn:Hloop; [|done].
  cbn [mbind option_bind] in Hpop. injection Hpop as <- <-.
  replace (3 + 2 * Z.to_nat count)%nat with (2 + (2 * Z.to_nat count + 1))%nat by lia.
  rewrite replicate_add, run_app.
  cbn [replicate run step step_consumer cons ring mbind option_bind consumer_at].
  fold count. rewrite replicate_add, run_app.
  destruct (Z.to_nat count) as [|n] eqn:Hn.
  - destruct (Z.ltb_spec 0 count); [lia|].
    cbn in Hloop. injection Hloop as <-.
    cbn. eexists. split; [reflexivity|]. done.
  - destruct (Z.ltb_spec 0 count); [|lia].
    match goal with |- exists c', run _ ?c1 ≫= _ = _ /\ _ =>
      destruct (pop_loop_as_steps (_tail r) (_head r) count n c1 0 [] res eq_refl
                  ltac:(lia) ltac:(lia) ltac:(lia) Hloop)
        as (c' & Hrun & Hk & Hr & Hp & Ht & Hpu & Hrs) end.
    rewrite Hrun. cbn [mbind option_bind replicate run step].
    unfold step_consumer. rewrite Hk. cbn [mbind option_bind].
    eexists. split; [reflexivity|]. cbn [ring cons results prod todo pushed].
    rewrite Hr, Hp, Ht, Hpu, Hrs. done.
Qed.

End HandoffFacts.

(** Without any torn pair an overrun still shows: a [pop_all] that loads
    [_head] after the third push has stored it and before that push has
    advanced [_tail] reads three positions of a two-slot ring and returns
    the newest sample twice, once ahead of an older one. *)
Remark overrun_repeats :
  exists c, Handoff.run Handoff.repeat_schedule (Handoff.start ring2 Handoff.torn_input) = Some c /\
            Handoff.results c = [[(3, 30); (2, 20); (3, 30)]]%float /\
            Forall (fun c1 => Handoff.collision c1 = false)
                   (Handoff.visited Handoff.repeat_schedule
                      (Handoff.start ring2 Handoff.torn_input)).
Proof.
  eexists. split; [vm_compute; reflexivity|]. split; [reflexivity|].
  apply Forall_forall. intros c1 Hin. vm_compute in Hin.
  repeat (apply elem_of_cons in Hin as [->|Hin]; [vm_compute; reflexivity|]).
  by apply elem_of_nil in Hin.
Qed.

Lemma float_neq (a b : float) : Prim2SF a <> Prim2SF b -> a <> b.
Proof. by intros ? ->. Qed.

(** The pair the overrun [pop_all] returns is none of the pushed pairs. *)
Lemma torn_pair_not_pushed :
  ((1, 30) : sample)%float ∉ ([(1, 10); (2, 20); (3, 30)] : list sample)%float.
Proof.
  intros H.
  apply elem_of_cons in H as [H|H].
  { apply (f_equal snd) in H. cbn [snd] in H. revert H. apply float_neq.
    vm_compute. discriminate. }
  apply elem_of_cons in H as [H|H].
  { apply (f_equal snd) in H. cbn [snd] in H. revert H. apply float_neq.
    vm_compute. discriminate. }
  apply elem_of_cons in H as [H|H].
  { apply (f_equal fst) in H. cbn [fst] in H. revert H. apply float_neq.
    vm_compute. discriminate. }
  by apply elem_of_nil in H.
Qed.

(** C9, the claim as stated fails.  On a ring of capacity 2 holding two
    unread samples, a [pop_all] that has read the timestamp of the first
    sample is overrun by a third push into the same slot and returns the
    pair [(1, 30)]: the timestamp of one sample with the value of another,
    a pair that was never pushed. *)
Lemma torn_read_counterexample :
  SpscRing_new 2 = Some ring2 /\
  exists c, Handoff.run Handoff.torn_schedule (Handoff.start ring2 Handoff.torn_input) = Some c /\
            Handoff.pushed c = [(1, 10); (2, 20); (3, 30)]%float /\
            Handoff.results c = [[(1, 30); (2, 20)]]%float /\
            ~ Forall (Handoff.all_pushed c) (Handoff.results c).
Proof.
  split; [reflexivity|]. eexists. split; [vm_compute; reflexivity|].
  cbn [Handoff.pushed Handoff.results]. split_and!; [reflexivity..|].
  intros H. apply Forall_cons in H as [H _]. apply Forall_cons in H as [H _].
  exact (torn_pair_not_pushed H).
Qed.

(** C9 as amended.  In an execution that interleaves the memory accesses
    of one producer and one consumer: no access ever waits (every access of
    either role is enabled in every configuration, and the schedule runs to
    its end), none is retried (an access inside a call brings its role one
    access closer to the end of the call and leaves the other role where it
    is); the head counts the completed pushes and every push below it that
    is among the last C, the oldest excepted, is in its slot with both its
    fields, whatever the consumer does; and as long as the consumer is
    never between the two reads of a slot while the producer is between the
    two writes of that slot, every pair returned by [pop_all] is a pair
    that was pushed. *)
Theorem handoff_without_overrun capacity r (input : list sample)
    (sched : list Handoff.role) :
  capacity <= 2 ^ 62 -> SpscRing_new capacity = Some r ->
  exists c,
    Handoff.run sched (Handoff.start r input) = Some c /\
    (forall c1, c1 ∈ Handoff.visited sched (Handoff.start r input) ->
       (exists c2, Handoff.step Handoff.P c1 = Some c2 /\
                   Handoff.cons c2 = Handoff.cons c1 /\
                   (Handoff.prod c1 <> Handoff.PIdle ->
                    Handoff.producer_left (Handoff.prod c2) =
                    Handoff.producer_left (Handoff.prod c1) - 1)) /\
       (exists c2, Handoff.step Handoff.C c1 = Some c2 /\
                   Handoff.prod c2 = Handoff.prod c1 /\
                   (0 < Handoff.consumer_left (Handoff.cons c1) ->
                    Handoff.consumer_left (Handoff.cons c2) =
                    Handoff.consumer_left (Handoff.cons c1) - 1))) /\
    _head (Handoff.ring c) = wrap (Handoff.completed c) /\
    (forall (p : nat) s,
       Handoff.pushed c !! p = Some s ->
       Handoff.completed c - _cap (Handoff.ring c) < Z.of_nat p < Handoff.completed c ->
       holds (Handoff.ring c) (Z.of_nat p) s) /\
    (Forall (fun c1 => Handoff.collision c1 = false)
            (Handoff.visited sched (Handoff.start r input)) ->
     Forall (Handoff.all_pushed c) (Handoff.results c)).
Proof.
  intros Hc Hr.
  destruct (SpscRing_new_spec capacity Hc) as (k & r0 & Hk & Hr0 & _ & _ & _ & Hwf & Hh & Ht).
  assert (r0 = r) as -> by congruence.
  set (ok := Forall (fun c1 => Handoff.collision c1 = false)
                    (Handoff.visited sched (Handoff.start r input))).
  destruct (HandoffFacts.run_inv ok sched (Handoff.start r input)
              (HandoffFacts.inv_start ok r input Hwf Hh Ht) (fun H => H))
    as (c & Hrun & Hinv).
  exists c. split_and!; [done| | | |].
  - intros c1 Hc1.
    pose proof (HandoffFacts.visited_sane sched _ c1
                  (HandoffFacts.start_sane r input Hwf) Hc1) as Hs1.
    split.
    + destruct (HandoffFacts.step_sane Handoff.P c1 Hs1) as (c2 & Hstep & _).
      exists c2. split; [done|]. by apply HandoffFacts.producer_progress.
    + destruct (HandoffFacts.step_sane Handoff.C c1 Hs1) as (c2 & Hstep & _).
      exists c2. split; [done|].
      destruct (HandoffFacts.consumer_progress c1 c2 Hs1 Hstep) as (? & _ & _ & ?). done.
  - apply (Handoff.inv_head _ _ Hinv).
  - intros p s Hs Hp. apply (Handoff.inv_visible _ _ Hinv p s Hs); lia.
  - apply (Handoff.inv_results _ _ Hinv).
Qed.

Lemma handoff_without_overrun_witness :
  2 <= 2 ^ 62 /\ SpscRing_new 2 = Some ring2 /\
  Forall (fun c1 => Handoff.collision c1 = false)
         (Handoff.visited Handoff.calm_schedule (Handoff.start ring2 Handoff.torn_input)) /\
  exists c,
    Handoff.run Handoff.calm_schedule (Handoff.start ring2 Handoff.torn_input) = Some c /\
    Forall (Handoff.all_pushed c) (Handoff.results c).
Proof.
  assert (2 <= 2 ^ 62) as H1 by (vm_compute; discriminate).
  assert (SpscRing_new 2 = Some ring2) as H2 by reflexivity.
  assert (Forall (fun c1 => Handoff.collision c1 = false)
            (Handoff.visited Handoff.calm_schedule (Handoff.start ring2 Handoff.torn_input)))
    as H3.
  { apply Forall_forall. intros c1 Hin. vm_compute in Hin.
    repeat (apply elem_of_cons in Hin as [->|Hin]; [vm_compute; reflexivity|]).
    by apply elem_of_nil in Hin. }
  split_and!; [exact H1|exact H2|exact H3|].
  destruct (handoff_without_overrun 2 ring2 Handoff.torn_input Handoff.calm_schedule H1 H2)
    as (c & Hrun & _ & _ & _ & Hres).
  exists c. split; [exact Hrun|exact (Hres H3)].
Defined.

(** ** The order of the samples when the calls overlap *)

Module OrderFacts.
Import Handoff Order.











End OrderFacts.




(** * Further properties of the code *)

(** ** [next_pow2] and the constructor of the ring *)

Lemma next_pow2_loop_more_fuel v fuel : forall p x,
  next_pow2_loop fuel p v = Some x -> next_pow2_loop (S fuel) p v = Some x.
Proof.
  induction fuel as [|fuel IH]; intros p x H; cbn [next_pow2_loop] in *.
  - by destruct (p <? v).
  - destruct (p <? v); [|done]. by apply IH.
Qed.

Lemma next_pow2_fuel_ge v x (fuel : nat) :
  next_pow2 v = Some x -> (64 <= fuel)%nat -> next_pow2_fuel fuel v = Some x.
Proof.
  intros H Hf. replace fuel with ((fuel - 64) + 64)%nat by lia.
  induction (fuel - 64)%nat as [|d IH]; [exact H|].
  by apply next_pow2_loop_more_fuel.
Qed.

(** X1.  For a request of at most [2^63], [next_pow2] returns the least
    power of two that is not below the request ([1] for a request of [0]
    or [1]), and it has returned after at most 64 iterations: more
    iterations change nothing. *)
Theorem next_pow2_least v :
  v <= 2 ^ 63 ->
  exists k, 0 <= k <= 63 /\ next_pow2 v = Some (2 ^ k) /\
            v <= 2 ^ k /\ (0 < k -> 2 ^ (k - 1) < v) /\
            (v <= 1 -> k = 0) /\
            forall fuel : nat, (64 <= fuel)%nat -> next_pow2_fuel fuel v = Some (2 ^ k).
Proof.
  intros Hv. destruct (next_pow2_fuel_enough v Hv) as (k & Hk & Hr & Hle & Hmin).
  exists k. split_and!; [lia|lia|done|done|done| |].
  - intros Hv1. destruct (Z.eq_dec k 0) as [Heq|Hne]; [exact Heq|].
    specialize (Hmin ltac:(lia)). pose proof (pow2_pos (k - 1) ltac:(lia)). lia.
  - intros fuel Hf. by apply next_pow2_fuel_ge.
Qed.

Lemma next_pow2_least_witness :
  5 <= 2 ^ 63 /\
  exists k, 0 <= k <= 63 /\ next_pow2 5 = Some (2 ^ k) /\
            5 <= 2 ^ k /\ (0 < k -> 2 ^ (k - 1) < 5) /\
            (5 <= 1 -> k = 0) /\
            forall fuel : nat, (64 <= fuel)%nat -> next_pow2_fuel fuel 5 = Some (2 ^ k).
Proof.
  assert (5 <= 2 ^ 63) as H by (vm_compute; discriminate).
  exact (conj H (next_pow2_least 5 H)).
Defined.

(** X2.  For a request above [2^63] the loop of [next_pow2] never ends:
    the shifted [p] wraps to [0] and stays below the request, whatever the
    number of iterations; the constructor of the ring does not return. *)
Theorem next_pow2_never_returns v (fuel : nat) :
  2 ^ 63 < v -> next_pow2_fuel fuel v = None /\ SpscRing_new v = None.
Proof.
  intros Hv. split; [by apply next_pow2_diverges|].
  unfold SpscRing_new, next_pow2. by rewrite next_pow2_diverges.
Qed.

Lemma next_pow2_never_returns_witness :
  2 ^ 63 < 2 ^ 63 + 1 /\ next_pow2_fuel 1000 (2 ^ 63 + 1) = None /\
  SpscRing_new (2 ^ 63 + 1) = None.
Proof.
  assert (2 ^ 63 < 2 ^ 63 + 1) as H by reflexivity.
  split; [exact H|]. exact (next_pow2_never_returns (2 ^ 63 + 1) 1000 H).
Defined.

(** X3.  A request between [2^62] (excluded) and [2^63] makes the
    constructor compute [_cap * 2] past the range of [size_t]: the ring has
    capacity [2^63] and an empty buffer, and every [push] on it writes
    outside the buffer. *)
Theorem constructor_overflow capacity :
  2 ^ 62 < capacity <= 2 ^ 63 ->
  exists r, SpscRing_new capacity = Some r /\ _cap r = 2 ^ 63 /\ _buf r = [] /\
            forall t v, push t v r = None.
Proof.
  intros [Hlo Hhi].
  destruct (next_pow2_fuel_enough capacity Hhi) as (k & Hk & Hr & Hle & Hmin).
  assert (k = 63) as ->.
  { destruct (Z.eq_dec k 63) as [Heq|Hne]; [exact Heq|].
    pose proof (pow2_le k 62 ltac:(lia)). lia. }
  unfold SpscRing_new. rewrite Hr. cbn [mbind option_bind].
  eexists. split; [reflexivity|]. cbn [_cap _buf]. split; [done|].
  split; [reflexivity|]. intros t v. unfold push. cbn [_buf].
  change (replicate (Z.to_nat (wrap (2 ^ 63 * 2))) 0%float) with (@nil float).
  unfold vset. cbn [length]. rewrite andb_false_intro2; [done|].
  apply Z.ltb_ge. apply wrap_range.
Qed.

Lemma constructor_overflow_witness :
  2 ^ 62 < 2 ^ 63 <= 2 ^ 63 /\
  exists r, SpscRing_new (2 ^ 63) = Some r /\ _cap r = 2 ^ 63 /\ _buf r = [] /\
            forall t v, push t v r = None.
Proof.
  assert (2 ^ 62 < 2 ^ 63 <= 2 ^ 63) as H by (split; [reflexivity|vm_compute; discriminate]).
  exact (conj H (constructor_overflow (2 ^ 63) H)).
Defined.

(** ** [push] and [pop_all] on any well-formed ring *)

(** X4.  On a ring with a power-of-two capacity and a buffer of two
    doubles per slot, whatever its counters: [push] returns, keeps the
    capacity, the mask and the size of the buffer, advances [_head] by one
    modulo [2^64], writes the pair into the slot of the old head and
    touches no other entry of the buffer; while fewer than [_cap] samples
    are unread it leaves [_tail] alone, so nothing is dropped. *)
Theorem push_writes_one_slot (t v : float) (r : SpscRing) :
  wf r ->
  exists r', push t v r = Some r' /\ wf r' /\
    _cap r' = _cap r /\ _mask r' = _mask r /\
    length (_buf r') = length (_buf r) /\
    _head r' = wrap (_head r + 1) /\
    holds r' (_head r) (t, v) /\
    (forall i, i <> 2 * (_head r mod _cap r) -> i <> 2 * (_head r mod _cap r) + 1 ->
               vget (_buf r') i = vget (_buf r) i) /\
    (unread r < _cap r -> _tail r' = _tail r /\ unread r' = unread r + 1).
Proof.
  intros Hwf.
  destruct (HandoffFacts.wf_slot r (_head r) Hwf) as (Hcpos & Hcmod & Hm & Hs0 & Hs1 & Hlen).
  unfold push. rewrite Hs0, Hs1.
  rewrite vset_some by lia. cbn [mbind option_bind].
  rewrite vset_some by (rewrite length_insert; lia). cbn [mbind option_bind].
  eexists. split; [reflexivity|]. cbn [_cap _mask _buf _head _tail].
  split_and!; try done.
  - destruct Hwf as (k & ? & ? & ? & ?). exists k. cbn. by rewrite !length_insert.
  - by rewrite !length_insert.
  - split; cbn [_buf _cap fst snd].
    + rewrite vget_insert_ne by lia. apply vget_insert_eq. lia.
    + apply vget_insert_eq. rewrite length_insert. lia.
  - intros i H0 H1. unfold vget. destruct (Z.leb_spec 0 i); [|done].
    rewrite !list_lookup_insert_ne by lia. done.
  - intros Hun. unfold unread in *. cbn [_head _tail].
    pose proof (wrap_range (_head r - _tail r)) as Hu.
    assert (wrap (wrap (_head r + 1) - _tail r) = wrap (_head r - _tail r) + 1) as Heq.
    { rewrite wrap_sub_l.
      replace (_head r + 1 - _tail r) with (_head r - _tail r + 1) by lia.
      rewrite <- wrap_add_l. apply wrap_small. lia. }
    rewrite Heq. destruct (Z.ltb_spec (_cap r) (wrap (_head r - _tail r) + 1)); [lia|].
    by rewrite Heq.
Qed.

Lemma push_writes_one_slot_witness :
  wf ring2 /\
  exists r', push 1 10 ring2 = Some r' /\ wf r' /\
    _cap r' = _cap ring2 /\ _mask r' = _mask ring2 /\
    length (_buf r') = length (_buf ring2) /\
    _head r' = wrap (_head ring2 + 1) /\
    holds r' (_head ring2) (1, 10)%float /\
    (forall i, i <> 2 * (_head ring2 mod _cap ring2) ->
               i <> 2 * (_head ring2 mod _cap ring2) + 1 ->
               vget (_buf r') i = vget (_buf ring2) i) /\
    (unread ring2 < _cap ring2 -> _tail r' = _tail ring2 /\ unread r' = unread ring2 + 1).
Proof.
  assert (wf ring2) as H by (exists 1; split_and!; (lia || reflexivity)).
  exact (conj H (push_writes_one_slot 1 10 ring2 H)).
Defined.

Lemma pop_loop_any r tcur :
  wf r -> forall (n : nat) i out,
  0 <= i -> i + Z.of_nat n < modulus ->
  exists res, pop_loop r tcur n i out = Some (out ++ res) /\ length res = n /\
    forall j : nat, (j < n)%nat ->
      exists s, res !! j = Some s /\ holds r (tcur + i + Z.of_nat j) s.
Proof.
  intros Hwf. induction n as [|n IH]; intros i out Hi Hn.
  - exists []. cbn. rewrite app_nil_r. split_and!; [done..|]. intros j Hj. lia.
  - cbn [pop_loop].
    destruct (HandoffFacts.wf_slot r (wrap (tcur + i)) Hwf) as (_ & _ & Hm & -> & -> & Hlen).
    rewrite HandoffFacts.wrap_mod_cap in * by done.
    destruct (HandoffFacts.vget_some (_buf r) (2 * ((tcur + i) mod _cap r)) ltac:(lia))
      as [x Hx].
    destruct (HandoffFacts.vget_some (_buf r) (2 * ((tcur + i) mod _cap r) + 1) ltac:(lia))
      as [y Hy].
    rewrite Hx, Hy. cbn [mbind option_bind]. rewrite (wrap_small (i + 1)) by lia.
    destruct (IH (i + 1) (out ++ [(x, y)]) ltac:(lia) ltac:(lia)) as (res & Hres & Hlen' & Hall).
    exists ((x, y) :: res). rewrite Hres, <- app_assoc. split_and!; [done|cbn; lia|].
    intros [|j] Hj.
    + exists (x, y). split; [done|]. rewrite Z.add_0_r. by split.
    + destruct (Hall j ltac:(lia)) as (s & Hs & Hh). exists s. split; [done|].
      replace (tcur + i + Z.of_nat (S j)) with (tcur + (i + 1) + Z.of_nat j) by lia. done.
Qed.

(** X5.  On a well-formed ring whose counters are fewer than [2^59] apart
    (a count the result vector can reserve; above [max_size()] the
    [reserve] of the source throws before any read): [pop_all] returns
    exactly [head - tail] (modulo [2^64]) pairs, the pair at index [j] being
    the content of the slot of counter value [tail + j]; it leaves the
    buffer and [_head] alone and sets [_tail] to [_head], so nothing is
    unread afterwards and a second [pop_all] returns the empty vector and
    changes nothing. *)
Theorem pop_all_reads_unread (r : SpscRing) :
  wf r -> unread r < 2 ^ 59 ->
  exists out r', pop_all r = Some (out, r') /\
    Z.of_nat (length out) = unread r /\
    (forall j : nat, (j < length out)%nat ->
       exists s, out !! j = Some s /\ holds r (_tail r + Z.of_nat j) s) /\
    _cap r' = _cap r /\ _buf r' = _buf r /\ _head r' = _head r /\ _tail r' = _head r /\
    unread r' = 0 /\ pop_all r' = Some ([], r').
Proof.
  intros Hwf _. unfold pop_all. fold (unread r).
  pose proof (wrap_range (_head r - _tail r)) as Hu. fold (unread r) in Hu.
  destruct (pop_loop_any r (_tail r) Hwf (Z.to_nat (unread r)) 0 [] ltac:(lia) ltac:(lia))
    as (res & -> & Hlen & Hall).
  cbn [mbind option_bind app]. eexists _, _. split; [reflexivity|].
  cbn [_cap _buf _head _tail]. split_and!; try done.
  - lia.
  - intros j Hj. destruct (Hall j ltac:(lia)) as (s & Hs & Hh). exists s.
    split; [done|]. by rewrite Z.add_0_r in Hh.
  - unfold unread. cbn. by rewrite Z.sub_diag.
  - rewrite Z.sub_diag. reflexivity.
Qed.

Lemma pop_all_reads_unread_witness :
  wf ring8 /\ unread ring8 < 2 ^ 59 /\
  exists out r', pop_all ring8 = Some (out, r') /\
    Z.of_nat (length out) = unread ring8 /\
    (forall j : nat, (j < length out)%nat ->
       exists s, out !! j = Some s /\ holds ring8 (_tail ring8 + Z.of_nat j) s) /\
    _cap r' = _cap ring8 /\ _buf r' = _buf ring8 /\ _head r' = _head ring8 /\
    _tail r' = _head ring8 /\ unread r' = 0 /\ pop_all r' = Some ([], r').
Proof.
  assert (wf ring8) as H by (exists 3; split_and!; (lia || reflexivity)).
  assert (unread ring8 < 2 ^ 59) as H' by (vm_compute; reflexivity).
  exact (conj H (conj H' (pop_all_reads_unread ring8 H H'))).
Defined.

(** ** Reads that race with a write *)

Module PartsFacts.
Import Handoff Parts.

Lemma from_parts_mono (l l' : list sample) p :
  (forall s, s ∈ l -> s ∈ l') -> from_parts l p -> from_parts l' p.
Proof.
  intros Hsub [(s1 & H1 & E1) (s2 & H2 & E2)].
  split; [exists s1|exists s2]; auto.
Qed.

Lemma Forall_parts_mono (l l' : list sample) out :
  (forall s, s ∈ l -> s ∈ l') -> Forall (from_parts l) out -> Forall (from_parts l') out.
Proof.
  intros Hsub H. eapply Forall_impl; [exact H|]. intros p. by apply from_parts_mono.
Qed.

Lemma consumer_parts_step c c' :
  cons c' = cons c -> (forall s, s ∈ pushed c -> s ∈ pushed c') ->
  consumer_parts c -> consumer_parts c'.
Proof.
  intros Hk Hsub. unfold consumer_parts. rewrite Hk.
  destruct (cons c); try done; try (by apply Forall_parts_mono).
  intros (Hout & s & Hs & Hx). split; [by eapply Forall_parts_mono|]. exists s. auto.
Qed.

Lemma results_parts_mono (l l' : list sample) (rs : list (list sample)) :
  (forall s, s ∈ l -> s ∈ l') ->
  Forall (Forall (from_parts l)) rs -> Forall (Forall (from_parts l')) rs.
Proof.
  intros Hsub H. eapply Forall_impl; [exact H|]. intros out. by apply Forall_parts_mono.
Qed.

Lemma last_elem_of (l : list sample) s : last l = Some s -> s ∈ l.
Proof. rewrite last_lookup. apply list_elem_of_lookup_2. Qed.

Lemma step_producer_parts input c c' :
  inv False c -> parts_inv input c -> step P c = Some c' -> parts_inv input c'.
Proof.
  intros [[Hwf Hctl] Hcomp Hhead Htail Hvis Hprod Hcons _ _] [Hin Hbuf Hcp Hres].
  cbn [step]. unfold step_producer. intros Hstep.
  pose proof (HandoffFacts.wf_slot (ring c) (_head (ring c)) Hwf)
    as (Hcpos & Hcmod & Hm & Hs0 & Hs1 & Hlen).
  rewrite Hhead, HandoffFacts.wrap_mod_cap in Hm, Hs0, Hs1, Hlen by done.
  rewrite <- Hhead in Hs0, Hs1.
  pose proof (eq_refl : completed c = Z.of_nat (length (pushed c)) - pending (prod c)) as HK.
  unfold producer_ok in Hprod.
  destruct (prod c) as [|h n t v|h n t v|h n|n|n tcur] eqn:Hp; cbn [pending touched] in *.
  - destruct (todo c) as [|[t v] rest] eqn:Htodo; injection Hstep as <-.
    { constructor; try done. by rewrite Htodo. }
    assert (forall s, s ∈ pushed c -> s ∈ pushed c ++ [(t, v)]) as Hsub.
    { intros s Hs. apply elem_of_app. by left. }
    match goal with |- parts_inv _ ?c' => assert (completed c' = completed c) as HK' end.
    { unfold completed at 1. cbn [prod pushed pending]. rewrite length_app. cbn [length]. lia. }
    constructor; rewrite ?HK'; cbn [ring prod pushed cons results todo].
    + by rewrite <- app_assoc.
    + intros j Hj Hlt. destruct (Hbuf j Hj Hlt) as (x & y & Hx & Hy & Hxy).
      exists x, y. split_and!; [done..|]. by eapply from_parts_mono.
    + by apply (consumer_parts_step c).
    + by apply (results_parts_mono (pushed c)).
  - destruct Hprod as (-> & -> & Hlast).
    rewrite Hs0, vset_some in Hstep by lia. injection Hstep as <-.
    match goal with |- parts_inv _ ?c' => assert (completed c' = completed c) as HK' by done end.
    constructor; rewrite ?HK'; cbn [ring prod pushed cons results todo with_buf producer_at
                                    _buf _cap]; try done.
    intros j Hj Hlt. destruct (Hbuf j Hj Hlt) as (x & y & Hx & Hy & Hxy).
    destruct (decide (j = completed c mod _cap (ring c))) as [->|Hne].
    + exists t, y. split_and!.
      * apply vget_insert_eq. lia.
      * by rewrite vget_insert_ne by lia.
      * split; [|apply Hxy]. exists (t, v). split; [by apply last_elem_of|done].
    + exists x, y. split_and!; [| |done]; by rewrite vget_insert_ne by lia.
  - destruct Hprod as (-> & -> & Hlast & Ht).
    rewrite Hs1, vset_some in Hstep by lia. injection Hstep as <-.
    match goal with |- parts_inv _ ?c' => assert (completed c' = completed c) as HK' by done end.
    constructor; rewrite ?HK'; cbn [ring prod pushed cons results todo with_buf producer_at
                                    _buf _cap]; try done.
    intros j Hj Hlt. destruct (Hbuf j Hj Hlt) as (x & y & Hx & Hy & Hxy).
    destruct (decide (j = completed c mod _cap (ring c))) as [->|Hne].
    + exists x, v. split_and!.
      * by rewrite vget_insert_ne by lia.
      * apply vget_insert_eq. lia.
      * split; [apply Hxy|]. exists (t, v). split; [by apply last_elem_of|done].
    + exists x, y. split_and!; [| |done]; by rewrite vget_insert_ne by lia.
  - destruct Hprod as (-> & -> & t & v & Hlast & Ht & Hv).
    injection Hstep as <-.
    match goal with |- parts_inv _ ?c' => assert (completed c' = completed c + 1) as HK' end.
    { unfold completed. rewrite Hp. cbn. lia. }
    constructor; rewrite ?HK'; cbn [ring prod pushed cons results todo with_head producer_at
                                    _buf _cap]; try done.
    intros j Hj Hlt.
    destruct (decide (j = completed c mod _cap (ring c))) as [->|Hne].
    + exists t, v. split_and!; [done..|].
      split; exists (t, v); (split; [by apply last_elem_of|done]).
    + apply Hbuf; [done|]. intros Hsmall.
      rewrite Z.mod_small in Hne by lia. lia.
  - injection Hstep as <-.
    match goal with |- parts_inv _ ?c' => assert (completed c' = completed c) as HK' end.
    { unfold completed. by rewrite Hp. }
    constructor; rewrite ?HK'; done.
  - injection Hstep as <-.
    set (r' := if _cap (ring c) <? wrap (n - tcur)
               then with_tail (wrap (n - _cap (ring c))) (ring c)
               else ring c).
    assert (_cap r' = _cap (ring c) /\ _buf r' = _buf (ring c)) as (Hc1 & Hc3).
    { subst r'. by destruct (_cap (ring c) <? wrap (n - tcur)). }
    clearbody r'.
    match goal with |- parts_inv _ ?c' => assert (completed c' = completed c) as HK' end.
    { unfold completed. by rewrite Hp. }
    constructor; rewrite ?HK'; cbn [ring prod pushed cons results todo producer_at];
      rewrite ?Hc1, ?Hc3; done.
Qed.

Lemma step_consumer_parts input c c' :
  inv False c -> parts_inv input c -> step C c = Some c' -> parts_inv input c'.
Proof.
  intros [[Hwf Hctl] Hcomp Hhead Htail Hvis Hprod Hcons _ _] [Hin Hbuf Hcp Hres].
  cbn [step]. unfold step_consumer. intros Hstep.
  pose proof (HandoffFacts.wf_slot (ring c) 0 Hwf) as (Hcpos & Hcmod & _).
  unfold consumer_pos in Hcons. unfold consumer_parts in Hcp.
  destruct (cons c) as [|tcur|tcur h count i out|tcur h count i out x|h out] eqn:Hk.
  - injection Hstep as <-. constructor; done.
  - injection Hstep as <-. constructor; try done.
    unfold consumer_parts. cbn [cons consumer_at].
    destruct (0 <? wrap (_head (ring c) - tcur)); constructor.
  - destruct (HandoffFacts.wf_slot (ring c) (wrap (tcur + i)) Hwf)
      as (_ & _ & Hm & Hs0 & _ & Hlen).
    rewrite HandoffFacts.wrap_mod_cap in Hm, Hs0, Hlen by done. rewrite Hs0 in Hstep.
    destruct (Hbuf ((tcur + i) mod _cap (ring c)) Hm) as (x & y & Hx & Hy & Hxy).
    { intros Hlt. specialize (Hcons Hlt). cbn in Hctl.
      assert (_head (ring c) = completed c) as Hh
        by (rewrite Hhead; apply wrap_small; lia).
      rewrite Z.mod_small; lia. }
    rewrite Hx in Hstep. injection Hstep as <-.
    constructor; try done.
    unfold consumer_parts. cbn [cons consumer_at pushed]. split; [done|]. apply Hxy.
  - destruct (HandoffFacts.wf_slot (ring c) (wrap (tcur + i)) Hwf)
      as (_ & _ & Hm & _ & Hs1 & Hlen).
    rewrite HandoffFacts.wrap_mod_cap in Hm, Hs1, Hlen by done. rewrite Hs1 in Hstep.
    destruct (Hbuf ((tcur + i) mod _cap (ring c)) Hm) as (x' & y & Hx & Hy & Hxy).
    { intros Hlt. specialize (Hcons Hlt). cbn in Hctl.
      assert (_head (ring c) = completed c) as Hh
        by (rewrite Hhead; apply wrap_small; lia).
      rewrite Z.mod_small; lia. }
    rewrite Hy in Hstep. injection Hstep as <-.
    destruct Hcp as (Hout & Hx1).
    assert (Forall (from_parts (pushed c)) (out ++ [(x, y)])) as Hout'.
    { apply Forall_app. split; [done|]. constructor; [|done]. split; [done|apply Hxy]. }
    constructor; try done.
    unfold consumer_parts. cbn [cons consumer_at pushed].
    by destruct (wrap (i + 1) <? count).
  - injection Hstep as <-. constructor; try done.
    cbn [results pushed]. apply Forall_app. split; [done|]. by constructor.
Qed.

Lemma parts_start input r : _head r = 0 -> _tail r = 0 -> parts_inv input (start r input).
Proof.
  intros Hh Ht. constructor; try done.
  intros j Hj Hlt. unfold completed in Hlt. cbn in Hj, Hlt. lia.
Qed.

Lemma run_parts input sched : forall c,
  inv False c -> parts_inv input c ->
  exists c', run sched c = Some c' /\ parts_inv input c'.
Proof.
  induction sched as [|who sched IH]; intros c Hinv Hparts; cbn [run].
  - by exists c.
  - destruct (HandoffFacts.step_sane who c (inv_sane _ c Hinv)) as (c1 & Hstep & _).
    rewrite Hstep. cbn [mbind option_bind].
    apply IH.
    + destruct who.
      * by apply (HandoffFacts.step_producer_inv False c c1 Hinv).
      * by apply (HandoffFacts.step_consumer_inv False c c1 Hinv).
    + destruct who.
      * by apply (step_producer_parts input c c1).
      * by apply (step_consumer_parts input c c1).
Qed.

End PartsFacts.

(** X7.  Whatever the interleaving of the accesses of [push] and
    [pop_all], overruns included, every timestamp and every value of a
    pair that [pop_all] returns was handed to [push]; the zeroes of the
    fresh buffer are never returned.  (The two may come from different
    samples: that is the torn read.) *)
Theorem racing_reads_return_pushed_parts capacity r (input : list sample)
    (sched : list Handoff.role) :
  capacity <= 2 ^ 62 -> SpscRing_new capacity = Some r ->
  exists c,
    Handoff.run sched (Handoff.start r input) = Some c /\
    Handoff.pushed c ++ Handoff.todo c = input /\
    forall out p, out ∈ Handoff.results c -> p ∈ out ->
      (exists s, s ∈ Handoff.pushed c /\ s.1 = p.1) /\
      (exists s, s ∈ Handoff.pushed c /\ s.2 = p.2).
Proof.
  intros Hc Hr.
  destruct (SpscRing_new_spec capacity Hc) as (k & r0 & Hk & Hr0 & _ & _ & _ & Hwf & Hh & Ht).
  assert (r0 = r) as -> by congruence.
  destruct (PartsFacts.run_parts input sched (Handoff.start r input)
              (HandoffFacts.inv_start False r input Hwf Hh Ht)
              (PartsFacts.parts_start input r Hh Ht)) as (c & Hrun & [Hin _ _ Hres]).
  exists c. split_and!; [done..|].
  intros out p Hout Hp.
  rewrite Forall_forall in Hres. specialize (Hres out Hout).
  rewrite Forall_forall in Hres. apply (Hres p Hp).
Qed.

Lemma racing_reads_return_pushed_parts_witness :
  2 <= 2 ^ 62 /\ SpscRing_new 2 = Some ring2 /\
  exists c,
    Handoff.run Handoff.torn_schedule (Handoff.start ring2 Handoff.torn_input) = Some c /\
    Handoff.pushed c ++ Handoff.todo c = Handoff.torn_input /\
    forall out p, out ∈ Handoff.results c -> p ∈ out ->
      (exists s, s ∈ Handoff.pushed c /\ s.1 = p.1) /\
      (exists s, s ∈ Handoff.pushed c /\ s.2 = p.2).
Proof.
  assert (2 <= 2 ^ 62) as H1 by lia.
  assert (SpscRing_new 2 = Some ring2) as H2 by reflexivity.
  exact (conj H1 (conj H2
    (racing_reads_return_pushed_parts 2 ring2 Handoff.torn_input Handoff.torn_schedule H1 H2))).
Defined.

(** ** The simulated sensor between its calls *)

Lemma exec_keeps_connection sin (c : call) (s : NativeShimmer) :
  (forall port, c <> Connect port) ->
  _connected (snd (exec sin c s)) = _connected s /\ _port (snd (exec sin c s)) = _port s.
Proof.
  intros Hc. destruct c as [port| | | |now]; cbn [exec].
  - by destruct (Hc port).
  - unfold start_streaming. destruct (negb (_connected s)); [done|].
    destruct (_running s); [done|]. cbn [set_running _thread]. by destruct (_thread s).
  - unfold stop_streaming, loop_exit. cbn [set_running _thread]. by destruct (_thread s).
  - unfold get_latest_samples. by destruct (pop_all (_queue s)) as [[out q]|].
  - unfold loop_step, loop_exit. destruct (_thread s) as [[|phase t_next|]|] eqn:Ht; try done.
    destruct (negb (_running s)); [done|].
    destruct (now <? t_next); [done|]. by destruct (push _ _ (_queue s)).
Qed.

Lemma session_keeps_connection sin (cs : list call) : forall s,
  Forall (fun c => forall port, c <> Connect port) cs ->
  _connected (snd (session sin cs s)) = _connected s /\
  _port (snd (session sin cs s)) = _port s.
Proof.
  induction cs as [|c cs IH]; intros s Hcs; cbn [session]; [done|].
  apply Forall_cons in Hcs as [Hc Hcs].
  destruct (exec_keeps_connection sin c s Hc) as [H1 H2].
  destruct (exec sin c s) as [r s1]. cbn [snd] in *.
  destruct (IH s1 Hcs) as [H3 H4].
  destruct (session sin cs s1) as [rs s2]. cbn [snd] in *. split; congruence.
Qed.

Lemma session_app sin (cs1 cs2 : list call) s :
  snd (session sin (cs1 ++ cs2) s) = snd (session sin cs2 (snd (session sin cs1 s))).
Proof.
  revert s. induction cs1 as [|c cs1 IH]; intros s; cbn [app session]; [done|].
  destruct (exec sin c s) as [r s1]. specialize (IH s1).
  destruct (session sin (cs1 ++ cs2) s1) as [rs s2].
  destruct (session sin cs1 s1) as [rs' s2']. done.
Qed.

(** X8.  [get_device_info] and [is_connected] follow the last [connect] of
    a session, whatever was called in between or after it: they report
    "Not connected" before any [connect] and after a failed one (also when
    an earlier one had succeeded), and the port of the last successful
    one otherwise. *)
Theorem device_info_follows_connect sin s0 (cs cs' : list call) (port : string) :
  NativeShimmer_new = Some s0 ->
  Forall (fun c => forall p, c <> Connect p) cs' ->
  let s := snd (session sin (cs ++ Connect port :: cs') s0) in
  (get_device_info s = "Not connected"%string <-> is_connected s = false) /\
  (is_connected s = false <-> port = "FAIL"%string) /\
  (port <> "FAIL"%string ->
     get_device_info s =
       ("Shimmer3 GSR+ (Simulated) - Port: " +:+ port +:+ " - Sample Rate: 128 Hz")%string) /\
  get_device_info (snd (session sin cs' s0)) = "Not connected"%string.
Proof.
  intros Hnew Hcs' s.
  assert (_connected s = negb (String.eqb port "FAIL") /\ _port s = port) as [Hconn Hport].
  { subst s. rewrite session_app. cbn [session exec].
    set (s1 := snd (session sin cs s0)).
    assert (_connected (snd (connect port s1)) = negb (String.eqb port "FAIL") /\
            _port (snd (connect port s1)) = port) as [H1 H2].
    { unfold connect. cbn [set_connection _connected].
      by destruct (negb (String.eqb port "FAIL")). }
    destruct (connect port s1) as [o s2]. cbn [snd] in *.
    destruct (session_keeps_connection sin cs' s2 Hcs') as [H3 H4].
    destruct (session sin cs' s2) as [rs s3]. cbn [snd] in *. split; congruence. }
  unfold get_device_info, is_connected. rewrite Hconn, Hport.
  split_and!.
  - destruct (String.eqb port "FAIL"); cbn [negb]; [done|].
    split; [|done]. cbn. discriminate.
  - rewrite <- eqb_FAIL. by destruct (String.eqb port "FAIL").
  - intros Hne. destruct (String.eqb port "FAIL") eqn:E; [|done].
    by apply eqb_FAIL in E.
  - rewrite NativeShimmer_new_eq in Hnew. injection Hnew as <-.
    destruct (session_keeps_connection sin cs' shimmer0 Hcs') as [H3 _].
    unfold get_device_info. by rewrite H3.
Qed.

Lemma device_info_follows_connect_witness :
  NativeShimmer_new = Some shimmer0 /\
  Forall (fun c => forall p, c <> Connect p) [Start; LoopStep 1000; Stop] /\
  get_device_info
    (snd (session (fun x => x)
            ([Connect "FAIL"; Start] ++ Connect "COM3" :: [Start; LoopStep 1000; Stop])
            shimmer0))
    = "Shimmer3 GSR+ (Simulated) - Port: COM3 - Sample Rate: 128 Hz"%string.
Proof.
  assert (NativeShimmer_new = Some shimmer0) as H1 by reflexivity.
  assert (Forall (fun c => forall p, c <> Connect p) [Start; LoopStep 1000; Stop]) as H2
    by (repeat constructor; discriminate).
  refine (conj H1 (conj H2 _)).
  apply (device_info_follows_connect (fun x => x) shimmer0 [Connect "FAIL"; Start]
           [Start; LoopStep 1000; Stop] "COM3" H1 H2).
  discriminate.
Defined.

Lemma pop_all_drained (r : SpscRing) : _tail r = _head r -> pop_all r = Some ([], r).
Proof.
  destruct r as [c m b h t]. cbn [_head _tail]. intros ->.
  unfold pop_all. cbn [_head _tail]. rewrite Z.sub_diag. reflexivity.
Qed.

(** The stream has never streamed: no context, and the queue is the one
    the constructor made. *)
Lemma never_started_step sin (c : call) (s : NativeShimmer) :
  c <> Start ->
  _running s = false /\ _thread s = None /\ _queue s = _queue shimmer0 ->
  (_running (snd (exec sin c s)) = false /\ _thread (snd (exec sin c s)) = None /\
   _queue (snd (exec sin c s)) = _queue shimmer0) /\
  forall l, fst (exec sin c s) = Samples l -> l = [].
Proof.
  intros Hc (Hr & Ht & Hq). destruct c as [port| | | |now]; cbn [exec]; try done.
  - unfold connect. by destruct (negb (_connected (set_connection port _ s))).
  - unfold stop_streaming. cbn [set_running _thread]. rewrite Ht. done.
  - unfold get_latest_samples. rewrite Hq, pop_all_drained by done.
    cbn. split; [done|]. by intros l [= <-].
  - unfold loop_step. rewrite Ht. done.
Qed.

(** X9.  Nothing is sampled unless the stream is streaming: in every state
    a session can reach with [_running] false, a scheduling of the loop
    changes nothing; and in a session without [start_streaming] the queue
    stays as the constructor made it and every [get_latest_samples]
    returns the empty vector. *)
Theorem no_samples_unless_streaming sin s0 (cs : list call) :
  NativeShimmer_new = Some s0 ->
  let s := snd (session sin cs s0) in
  (_running s = false -> forall now, loop_step sin now s = (Returns (), s)) /\
  (Forall (fun c => c <> Start) cs ->
     _queue s = _queue s0 /\ _running s = false /\
     forall l, Samples l ∈ fst (session sin cs s0) -> l = []).
Proof.
  intros Hnew s. split.
  - intros Hrun now.
    destruct (reachable_inv sin s0 cs Hnew) as (hist & T & [Hth _ _ _]).
    fold s in Hth. unfold loop_step. by rewrite (proj1 Hth Hrun).
  - rewrite NativeShimmer_new_eq in Hnew. injection Hnew as <-. subst s.
    assert (_running shimmer0 = false /\ _thread shimmer0 = None /\
            _queue shimmer0 = _queue shimmer0) as H0 by done.
    revert H0. generalize shimmer0 at 1 2 3 5 7 8 as s.
    induction cs as [|c cs IH]; intros s H0 Hcs; cbn [session].
    { split_and!; [apply H0..|]. intros l Hl. by apply elem_of_nil in Hl. }
    apply Forall_cons in Hcs as [Hc Hcs].
    destruct (never_started_step sin c s Hc H0) as [H1 Hl1].
    destruct (exec sin c s) as [r s1]. cbn [fst snd] in *.
    destruct (IH s1 H1 Hcs) as (Hq & Hr & Hl).
    destruct (session sin cs s1) as [rs s2]. cbn [fst snd] in *.
    split_and!; [done..|].
    intros l Hin. apply elem_of_cons in Hin as [Heq|Hin]; [by apply Hl1|by apply Hl].
Qed.

Lemma no_samples_unless_streaming_witness :
  NativeShimmer_new = Some shimmer0 /\
  Forall (fun c => c <> Start) [Connect "FAIL"; LoopStep 5; GetLatestSamples; Stop] /\
  forall l,
    Samples l ∈ fst (session (fun x => x)
                       [Connect "FAIL"; LoopStep 5; GetLatestSamples; Stop] shimmer0) ->
    l = [].
Proof.
  assert (NativeShimmer_new = Some shimmer0) as H1 by reflexivity.
  assert (Forall (fun c => c <> Start)
            [Connect "FAIL"; LoopStep 5; GetLatestSamples; Stop]) as H2
    by (repeat constructor; discriminate).
  exact (conj H1 (conj H2
    (proj2 (proj2 (proj2 (no_samples_unless_streaming (fun x => x) shimmer0 _ H1) H2))))).
Defined.

(** X10.  Polling drains the queue: in every state a session can reach,
    [get_latest_samples] returns, leaves the flags, the port and the
    thread as they are, and a second call right after it returns the
    empty vector and changes nothing. *)
Theorem polling_drains sin s0 (cs : list call) :
  NativeShimmer_new = Some s0 ->
  let s := snd (session sin cs s0) in
  exists out s',
    get_latest_samples s = (Returns out, s') /\
    Z.of_nat (length out) = unread (_queue s) /\
    unread (_queue s') = 0 /\
    _running s' = _running s /\ _connected s' = _connected s /\
    _port s' = _port s /\ _thread s' = _thread s /\
    _head (_queue s') = _head (_queue s) /\
    get_latest_samples s' = (Returns [], s').
Proof.
  intros Hnew s.
  destruct (reachable_inv sin s0 cs Hnew) as (hist & T & [_ _ Hq _]). fold s in Hq.
  destruct (pop_all_spec _ _ _ Hq) as (q & Hpop & _ & Hq').
  pose proof (ring_inv_unread _ _ _ Hq) as Hun.
  unfold get_latest_samples at 1. rewrite Hpop.
  eexists _, _. split; [reflexivity|].
  assert (_tail q = _head q) as Hth
    by (rewrite (Ring.inv_tail _ _ _ Hq'), (Ring.inv_head _ _ _ Hq'); done).
  assert (_head q = _head (_queue s)) as Hhd
    by (rewrite (Ring.inv_head _ _ _ Hq'), (Ring.inv_head _ _ _ Hq); done).
  cbn [set_queue _running _connected _port _thread _queue].
  split_and!; try done.
  - rewrite length_drop. unfold unread in *. lia.
  - unfold unread. rewrite Hth, Z.sub_diag. done.
  - unfold get_latest_samples. cbn [set_queue _queue _rng].
    rewrite (pop_all_drained q Hth). done.
Qed.

Lemma push_head (t v : float) (r : SpscRing) :
  wf r -> exists r', push t v r = Some r' /\ wf r' /\ _head r' = wrap (_head r + 1).
Proof.
  intros Hwf.
  destruct (HandoffFacts.wf_slot r (_head r) Hwf) as (Hcpos & Hcmod & Hm & Hs0 & Hs1 & Hlen).
  unfold push. rewrite Hs0, Hs1.
  rewrite vset_some by lia. cbn [mbind option_bind].
  rewrite vset_some by (rewrite length_insert; lia). cbn [mbind option_bind].
  eexists. split; [reflexivity|]. cbn [_cap _mask _buf _head _tail]. split; [|done].
  destruct Hwf as (k & ? & ? & ? & ?). exists k. cbn. by rewrite !length_insert.
Qed.

Lemma loop_run sin (nows : list Z) (M : Z) : forall (s : NativeShimmer) (phase : float) (t0 : Z),
  wf (_queue s) -> 0 <= _head (_queue s) < modulus ->
  _running s = true -> _thread s = Some (Looping phase t0) ->
  Forall (fun now => now <= M) nows ->
  exists (k : nat) (phase' : float) s',
    session sin (map LoopStep nows) s = (replicate (length nows) Done, s') /\
    _thread s' = Some (Looping phase' (t0 + Z.of_nat k * period_ticks)) /\
    _head (_queue s') = wrap (_head (_queue s) + Z.of_nat k) /\
    _rng s' = Nat.iter k lcg (_rng s) /\
    (k <= length nows)%nat /\
    (0 < Z.of_nat k -> t0 + (Z.of_nat k - 1) * period_ticks <= M) /\
    (Forall (fun now => t0 + Z.of_nat (length nows) * period_ticks <= now) nows ->
     k = length nows) /\
    _running s' = true /\ wf (_queue s').
Proof.
  induction nows as [|now nows IH]; intros s phase t0 Hwf Hhd Hrun Hth Hle.
  - exists 0%nat, phase, s. cbn [map session fst snd length replicate Nat.iter].
    split_and!; try done.
    + rewrite Hth. do 3 f_equal. lia.
    + rewrite Z.add_0_r. symmetry. by apply wrap_small.
  - apply Forall_cons in Hle as [HnowM Hle].
    cbn [map session exec].
    unfold loop_step. rewrite Hth, Hrun. cbn [negb].
    destruct (Z.ltb_spec now t0) as [Hlt|Hge].
    + (* the deadline is ahead: the loop sleeps *)
      destruct (IH s phase t0 Hwf Hhd Hrun Hth Hle)
        as (k & phase' & s' & -> & Ht' & Hh' & Hg' & Hk & HM & Hall & Hr' & Hwf').
      cbn [respond length replicate].
      exists k, phase', s'. split_and!; try done.
      * lia.
      * intros Hbehind. apply Forall_cons in Hbehind as [Hb _].
        unfold period_ticks in Hb. lia.
    + (* the deadline has passed: one sample is pushed *)
      destruct (push_head (seconds_of now) (gsr_sample sin phase (lcg (_rng s)))
                  (_queue s) Hwf) as (q & Hpush & Hwfq & Hhq).
      rewrite Hpush.
      set (s1 := set_context (Looping (next_phase phase) (t0 + period_ticks))
                   (set_queue q (lcg (_rng s)) s)).
      destruct (IH s1 (next_phase phase) (t0 + period_ticks))
        as (k & phase' & s' & -> & Ht' & Hh' & Hg' & Hk & HM & Hall & Hr' & Hwf');
        try done.
      { cbn. rewrite Hhq. apply wrap_range. }
      cbn [respond length replicate].
      exists (S k), phase', s'. split_and!; try done.
      * rewrite Ht'. do 2 f_equal. lia.
      * rewrite Hh'. cbn [s1 set_context set_queue _queue]. rewrite Hhq, wrap_add_l.
        f_equal. lia.
      * rewrite Hg'. cbn [s1 set_context set_queue _rng]. by rewrite Nat.iter_succ_r.
      * lia.
      * intros _. destruct (decide (k = 0%nat)) as [->|Hk0]; [lia|].
        unfold period_ticks in *. lia.
      * intros Hbehind. apply Forall_cons in Hbehind as [_ Hb]. f_equal. apply Hall.
        eapply Forall_impl; [exact Hb|]. cbn. intros x. unfold period_ticks. lia.
Qed.

(** X11.  The deadline of [run_loop]: over any schedulings of a running
    loop with deadline [t0], each scheduling pushes one sample or none;
    after [k] pushes the deadline is [t0 + k * period] (1/128 s each),
    the head has advanced by [k] and the generator has stepped [k] times;
    the [k]-th push did not happen before [t0 + (k - 1) * period], so no
    more than one sample per period is produced on average; and a loop
    that is behind its deadline at every scheduling pushes at every
    scheduling (it catches up, it does not skip). *)
Theorem loop_rate_limited sin (nows : list Z) (M : Z) (s : NativeShimmer)
    (phase : float) (t0 : Z) :
  wf (_queue s) -> 0 <= _head (_queue s) < modulus ->
  _running s = true -> _thread s = Some (Looping phase t0) ->
  Forall (fun now => now <= M) nows ->
  exists (k : nat) (phase' : float),
    let s' := snd (session sin (map LoopStep nows) s) in
    fst (session sin (map LoopStep nows) s) = replicate (length nows) Done /\
    _thread s' = Some (Looping phase' (t0 + Z.of_nat k * period_ticks)) /\
    _head (_queue s') = wrap (_head (_queue s) + Z.of_nat k) /\
    _rng s' = Nat.iter k lcg (_rng s) /\
    (k <= length nows)%nat /\
    (0 < Z.of_nat k -> t0 + (Z.of_nat k - 1) * period_ticks <= M) /\
    (Forall (fun now => t0 + Z.of_nat (length nows) * period_ticks <= now) nows ->
     k = length nows) /\
    _running s' = true /\ wf (_queue s').
Proof.
  intros Hwf Hhd Hrun Hth Hle.
  destruct (loop_run sin nows M s phase t0 Hwf Hhd Hrun Hth Hle)
    as (k & phase' & s' & -> & H).
  by exists k, phase'.
Qed.

Lemma loop_rate_limited_witness :
  let s := snd (session (fun x => x) [Connect "COM3"; Start; LoopStep 1000] shimmer0) in
  let nows := [1000; 1000; 7813500] in
  wf (_queue s) /\ 0 <= _head (_queue s) < modulus /\
  _running s = true /\ _thread s = Some (Looping 0 1000) /\
  Forall (fun now => now <= 7813500) nows /\
  exists (k : nat) (phase' : float),
    let s' := snd (session (fun x => x) (map LoopStep nows) s) in
    fst (session (fun x => x) (map LoopStep nows) s) = replicate (length nows) Done /\
    _thread s' = Some (Looping phase' (1000 + Z.of_nat k * period_ticks)) /\
    _head (_queue s') = wrap (_head (_queue s) + Z.of_nat k) /\
    _rng s' = Nat.iter k lcg (_rng s) /\
    (k <= length nows)%nat /\
    (0 < Z.of_nat k -> 1000 + (Z.of_nat k - 1) * period_ticks <= 7813500) /\
    (Forall (fun now => 1000 + Z.of_nat (length nows) * period_ticks <= now) nows ->
     k = length nows) /\
    _running s' = true /\ wf (_queue s').
Proof.
  intros s nows.
  assert (wf (_queue s)) as H1 by (exists 12; split_and!; (lia || reflexivity)).
  assert (0 <= _head (_queue s) < modulus) as H2 by (vm_compute; split; congruence).
  assert (_running s = true) as H3 by reflexivity.
  assert (_thread s = Some (Looping 0 1000)) as H4 by reflexivity.
  assert (Forall (fun now => now <= 7813500) nows) as H5 by (repeat constructor; lia).
  exact (conj H1 (conj H2 (conj H3 (conj H4 (conj H5
    (loop_rate_limited (fun x => x) nows 7813500 s 0 1000 H1 H2 H3 H4 H5)))))).
Defined.

Lemma polling_drains_witness :
  NativeShimmer_new = Some shimmer0 /\
  exists out s',
    get_latest_samples (snd (session (fun x => x) sample_session shimmer0))
      = (Returns out, s') /\
    get_latest_samples s' = (Returns [], s').
Proof.
  assert (NativeShimmer_new = Some shimmer0) as H by reflexivity.
  refine (conj H _).
  destruct (polling_drains (fun x => x) shimmer0 sample_session H)
    as (out & s' & H1 & _ & _ & _ & _ & _ & _ & _ & H2).
  by exists out, s'.
Defined.

(** ** The synthetic source of the webcam *)

Module SyntheticFacts.
Import Webcam Synthetic.

Lemma gradient_value (width shift x : Z) :
  0 < width -> 0 <= shift -> 0 <= x ->
  gradient width shift x = ((x + shift) mod width) * 255 / width /\
  0 <= gradient width shift x <= 254 /\
  u8 (255 - gradient width shift x) = 255 - gradient width shift x.
Proof.
  intros Hw Hs Hx. unfold gradient.
  rewrite Z.rem_mod_nonneg by lia.
  pose proof (Z.mod_pos_bound (x + shift) width Hw) as Hm.
  rewrite Z.quot_div_nonneg by lia.
  assert (0 <= (x + shift) mod width * 255 / width <= 254) as Hv.
  { split; [apply Z.div_pos; lia|].
    apply Z.lt_succ_r, Z.div_lt_upper_bound; lia. }
  remember ((x + shift) mod width * 255 / width) as V eqn:HV. clear HV.
  unfold u8. rewrite (Z.mod_small V 256), (Z.mod_small (255 - V) 256) by lia. done.
Qed.

Lemma fill_row_spec (width shift y : Z) :
  0 <= y * width ->
  forall (n : nat) (x : Z) (b : list Z),
  0 <= x -> (y * width + x + Z.of_nat n) * 3 <= Z.of_nat (length b) ->
  exists b', fill_row width shift y n x b = Some b' /\ length b' = length b /\
    (forall i, i < (y * width + x) * 3 \/ (y * width + x + Z.of_nat n) * 3 <= i ->
               vget b' i = vget b i) /\
    (forall x', x <= x' < x + Z.of_nat n ->
                pixel_is b' ((y * width + x') * 3) (gradient width shift x')).
Proof.
  intros Hy. induction n as [|n IH]; intros x b Hx Hlen.
  - exists b. cbn [fill_row]. split_and!; [done..|]. intros x' Hx'. lia.
  - cbn [fill_row].
    set (v := gradient width shift x). set (idx := (y * width + x) * 3).
    assert (0 <= idx) as Hidx by (subst idx; lia).
    rewrite vset_some by lia. cbn [mbind option_bind].
    rewrite vset_some by (rewrite length_insert; lia). cbn [mbind option_bind].
    rewrite vset_some by (rewrite !length_insert; lia). cbn [mbind option_bind].
    set (b3 := <[Z.to_nat (idx + 2) := v]>
                 (<[Z.to_nat (idx + 1) := u8 (255 - v)]> (<[Z.to_nat (idx + 0) := v]> b))).
    assert (length b3 = length b) as Hlen3 by (subst b3; by rewrite !length_insert).
    destruct (IH (x + 1) b3 ltac:(lia) ltac:(rewrite Hlen3; lia))
      as (b' & -> & Hlen' & Hout & Hin).
    exists b'. split_and!; [done|congruence| |].
    + intros i Hi. rewrite Hout by lia. subst b3.
      destruct (Z.leb_spec 0 i) as [Hi0|Hi0]; [|unfold vget; by destruct (Z.leb_spec 0 i); [lia|]].
      rewrite !vget_insert_ne by lia. done.
    + intros x' Hx'. destruct (decide (x' = x)) as [->|Hne].
      * unfold pixel_is. rewrite !Hout by lia. fold idx v. subst b3.
        split_and!.
        -- rewrite !vget_insert_ne by lia. rewrite Z.add_0_r. apply vget_insert_eq. lia.
        -- rewrite vget_insert_ne by lia. apply vget_insert_eq. rewrite length_insert. lia.
        -- apply vget_insert_eq. rewrite !length_insert. lia.
      * apply Hin. lia.
Qed.

Lemma fill_rows_spec (width shift : Z) :
  0 < width ->
  forall (n : nat) (y : Z) (b : list Z),
  0 <= y -> (y + Z.of_nat n) * width * 3 <= Z.of_nat (length b) ->
  exists b', fill_rows width shift n y b = Some b' /\ length b' = length b /\
    (forall i, i < y * width * 3 \/ (y + Z.of_nat n) * width * 3 <= i ->
               vget b' i = vget b i) /\
    (forall x' y', y <= y' < y + Z.of_nat n -> 0 <= x' < width ->
                   pixel_is b' ((y' * width + x') * 3) (gradient width shift x')).
Proof.
  intros Hw. induction n as [|n IH]; intros y b Hy Hlen.
  - exists b. cbn [fill_rows]. split_and!; [done..|]. intros x' y' Hy'. lia.
  - cbn [fill_rows].
    assert (0 <= y * width) as Hyw by lia.
    destruct (fill_row_spec width shift y Hyw (Z.to_nat width) 0 b ltac:(lia)
                ltac:(rewrite Z2Nat.id by lia; lia)) as (b1 & -> & Hlen1 & Hout1 & Hin1).
    cbn [mbind option_bind]. rewrite Z2Nat.id in Hout1, Hin1 by lia.
    destruct (IH (y + 1) b1 ltac:(lia) ltac:(rewrite Hlen1; lia))
      as (b' & -> & Hlen' & Hout & Hin).
    exists b'. split_and!; [done|congruence| |].
    + intros i Hi. rewrite Hout by lia. apply Hout1. lia.
    + intros x' y' Hy' Hx'. destruct (decide (y' = y)) as [->|Hne].
      * destruct (Hin1 x' ltac:(lia)) as (H0 & H1 & H2).
        unfold pixel_is. rewrite !Hout by lia. done.
      * apply Hin; lia.
Qed.

End SyntheticFacts.

(** X12.  One cycle of the synthetic source on a buffer of
    [_width * _height * 3] bytes (the size and [_width * 255] within
    [int], so that no product of the loop overflows; the column offset
    within the width, as [fmod] leaves it) stays inside the buffer and
    rewrites every pixel: the pixel of column [x] in any row holds
    [(v, 255 - v, v)] with [v = ((x + shift) mod _width) * 255 / _width],
    between 0 and 254, whatever the buffer held before; the geometry and
    the length of the buffer are kept. *)
Theorem synthetic_frame (shift : Z) (w : Webcam.NativeWebcam) :
  0 < Webcam._width w -> 0 <= Webcam._height w ->
  Webcam._width w * Webcam._height w * 3 < 2 ^ 31 ->
  Webcam._width w * 255 < 2 ^ 31 ->
  0 <= shift < Webcam._width w ->
  Z.of_nat (length (Webcam._buffer w)) = Webcam._width w * Webcam._height w * 3 ->
  exists w',
    Webcam.synthetic_cycle shift w = Some w' /\
    Webcam._width w' = Webcam._width w /\ Webcam._height w' = Webcam._height w /\
    Webcam._running w' = Webcam._running w /\
    length (Webcam._buffer w') = length (Webcam._buffer w) /\
    forall x y, 0 <= x < Webcam._width w -> 0 <= y < Webcam._height w ->
      let v := ((x + shift) mod Webcam._width w) * 255 / Webcam._width w in
      let idx := (y * Webcam._width w + x) * 3 in
      0 <= v <= 254 /\
      vget (Webcam._buffer w') idx = Some v /\
      vget (Webcam._buffer w') (idx + 1) = Some (255 - v) /\
      vget (Webcam._buffer w') (idx + 2) = Some v.
Proof.
  intros Hw Hh _ _ [Hs _] Hlen. unfold Webcam.synthetic_cycle.
  destruct (SyntheticFacts.fill_rows_spec (Webcam._width w) shift Hw
              (Z.to_nat (Webcam._height w)) 0 (Webcam._buffer w) ltac:(lia)
              ltac:(rewrite Z2Nat.id by lia; lia)) as (b' & -> & Hlen' & _ & Hin).
  cbn [mbind option_bind]. eexists. split; [reflexivity|].
  cbn [Webcam.set_buffer Webcam._width Webcam._height Webcam._running Webcam._buffer].
  split_and!; [done..|].
  intros x y Hx Hy.
  destruct (Hin x y ltac:(rewrite Z2Nat.id by lia; lia) Hx) as (H0 & H1 & H2).
  destruct (SyntheticFacts.gradient_value (Webcam._width w) shift x Hw Hs ltac:(lia))
    as (Hg & Hr & Hu).
  rewrite Hu, Hg in *. done.
Qed.

Lemma synthetic_frame_witness :
  0 < Webcam._width Webcam.tiny_webcam /\ 0 <= Webcam._height Webcam.tiny_webcam /\
  Webcam._width Webcam.tiny_webcam * Webcam._height Webcam.tiny_webcam * 3 < 2 ^ 31 /\
  Webcam._width Webcam.tiny_webcam * 255 < 2 ^ 31 /\
  0 <= 1 < Webcam._width Webcam.tiny_webcam /\
  Z.of_nat (length (Webcam._buffer Webcam.tiny_webcam))
    = Webcam._width Webcam.tiny_webcam * Webcam._height Webcam.tiny_webcam * 3 /\
  exists w', Webcam.synthetic_cycle 1 Webcam.tiny_webcam = Some w' /\
             vget (Webcam._buffer w') 0 = Some 127.
Proof.
  assert (0 < Webcam._width Webcam.tiny_webcam) as H1 by (cbn; lia).
  assert (0 <= Webcam._height Webcam.tiny_webcam) as H2 by (cbn; lia).
  assert (Webcam._width Webcam.tiny_webcam * Webcam._height Webcam.tiny_webcam * 3 < 2 ^ 31)
    as H3 by (cbn; lia).
  assert (0 <= 1 < Webcam._width Webcam.tiny_webcam) as H4 by (cbn; lia).
  assert (Z.of_nat (length (Webcam._buffer Webcam.tiny_webcam))
          = Webcam._width Webcam.tiny_webcam * Webcam._height Webcam.tiny_webcam * 3) as H5
    by reflexivity.
  assert (Webcam._width Webcam.tiny_webcam * 255 < 2 ^ 31) as H6 by (cbn; lia).
  refine (conj H1 (conj H2 (conj H3 (conj H6 (conj H4 (conj H5 _)))))).
  destruct (synthetic_frame 1 Webcam.tiny_webcam H1 H2 H3 H6 H4 H5)
    as (w' & Hw' & _ & _ & _ & _ & Hpix).
  exists w'. split; [exact Hw'|].
  exact (proj1 (proj2 (Hpix 0 0 ltac:(cbn; lia) ltac:(cbn; lia)))).
Defined.

(** ** The capture thread of the webcam *)

Module CaptureFacts.
Import Webcam Capture.

Section Facts.
Variable cv_resize : Mat -> Z -> Z -> Mat.
Variable cv_gray2bgr : Mat -> Mat.

Lemma memcpy_length (dst src b : list Z) : memcpy dst src = Some b -> length b = length dst.
Proof.
  unfold memcpy. destruct (Nat.leb_spec (length dst) (length src)); [|done].
  intros [= <-]. rewrite length_take. lia.
Qed.

Lemma capture_cycle_shape a w w' :
  capture_cycle cv_resize cv_gray2bgr a w = Some w' ->
  _width w' = _width w /\ _height w' = _height w /\ _running w' = _running w /\
  length (_buffer w') = length (_buffer w).
Proof.
  destruct a as [frame|]; cbn [capture_cycle]; [|by intros [= <-]].
  destruct (empty frame); [by intros [= <-]|].
  match goal with |- context [channels ?f =? 3] => generalize f end. intros f.
  destruct (channels f =? 3).
  - destruct (memcpy (_buffer w) (data f)) as [b|] eqn:E; [|done].
    intros [= <-]. cbn. by rewrite (memcpy_length _ _ _ E).
  - destruct (memcpy (_buffer w) (data (cv_gray2bgr f))) as [b|] eqn:E; [|done].
    intros [= <-]. cbn. by rewrite (memcpy_length _ _ _ E).
Qed.

Lemma synthetic_cycle_shape shift w :
  0 < _width w -> 0 <= _height w ->
  Z.of_nat (length (_buffer w)) = _width w * _height w * 3 ->
  exists w', synthetic_cycle shift w = Some w' /\
    _width w' = _width w /\ _height w' = _height w /\ _running w' = _running w /\
    length (_buffer w') = length (_buffer w).
Proof.
  intros Hw Hh Hlen. unfold synthetic_cycle.
  destruct (SyntheticFacts.fill_rows_spec (_width w) shift Hw
              (Z.to_nat (_height w)) 0 (_buffer w) ltac:(lia)
              ltac:(rewrite Z2Nat.id by lia; lia)) as (b' & -> & Hlen' & _).
  cbn [mbind option_bind]. eexists. split; [reflexivity|]. done.
Qed.

Lemma capture_inv_new device_id : capture_inv (Capture_new device_id).
Proof.
  constructor.
  - cbn [Capture_new webcam _thread NativeWebcam_new _running].
    split; [discriminate|]. by intros [? ?].
  - reflexivity.
  - reflexivity.
  - reflexivity.
  - cbn [Capture_new webcam NativeWebcam_new _buffer].
    rewrite length_replicate, Z2Nat.id; lia.
Qed.

(** A call keeps the invariant, never ends the process, and is undefined
    only in the capture loop of an opened camera. *)
Lemma capture_exec_inv k c :
  capture_inv c ->
  capture_inv (snd (exec cv_resize cv_gray2bgr k c)) /\
  fst (exec cv_resize cv_gray2bgr k c) <> Shimmer.Terminates /\
  (k <> StartCapture true -> _thread c <> Some Camera ->
     fst (exec cv_resize cv_gray2bgr k c) = Shimmer.Returns () /\
     _thread (snd (exec cv_resize cv_gray2bgr k c)) <> Some Camera).
Proof.
  intros Hinv. pose proof Hinv as [Hth Hlive Hw Hh Hb].
  assert (forall P : Prop, false = true <-> P -> ~ P) as Hno by (intros P [_ H] HP; by apply H in HP).
  destruct k as [opened| |a shift]; cbn [exec].
  - unfold start_capture. destruct (_running (webcam c)) eqn:Hr.
    { cbn [fst snd]. split_and!; [done|done|]. intros _ Hc. by split. }
    destruct (_thread c) as [src|] eqn:Ht.
    { destruct (Hno _ Hth). by eexists. }
    cbn [fst snd]. split_and!; [|done|].
    + constructor; cbn [webcam _thread spawned joined set_running _running _width _height
                        _buffer]; [|lia|done..].
      split; [by eexists|done].
    + intros Hk _. split; [done|]. cbn [_thread]. by destruct opened.
  - unfold stop_capture. destruct (_thread c) as [src|] eqn:Ht; cbn [fst snd].
    + split_and!; [|done|by intros _ _].
      constructor; cbn [webcam _thread spawned joined set_running _running _width _height
                        _buffer]; [|lia|done..].
      split; [done|]. by intros [? ?].
    + split_and!; [|done|intros _ _; split; [done|]; cbn [with_webcam _thread]; by rewrite Ht].
      constructor; cbn [with_webcam webcam _thread spawned joined set_running _running _width
                        _height _buffer]; rewrite ?Ht; [|lia|done..].
      split; [done|]. by intros [? ?].
  - unfold cycle. destruct (_thread c) as [src|] eqn:Ht.
    2:{ cbn [fst snd]. split_and!; [done|done|]. intros _ _. split; [done|]. by rewrite Ht. }
    destruct (_running (webcam c)) eqn:Hr.
    2:{ cbn [fst snd]. split_and!; [done|done|]. intros _ ?. split; [done|]. by rewrite Ht. }
    destruct src.
    + destruct (capture_cycle cv_resize cv_gray2bgr a (webcam c)) as [w'|] eqn:E; cbn [fst snd].
      * destruct (capture_cycle_shape a _ _ E) as (E1 & E2 & E3 & E4).
        split_and!; [|done|by intros _ ?].
        constructor; cbn [with_webcam webcam _thread spawned joined];
          rewrite ?E1, ?E2, ?E3, ?E4, ?Ht, ?Hr; done.
      * split_and!; [done|done|by intros _ ?].
    + destruct (synthetic_cycle_shape shift (webcam c)) as (w' & -> & E1 & E2 & E3 & E4);
        [lia..|].
      cbn [fst snd]. split_and!; [|done|].
      * constructor; cbn [with_webcam webcam _thread spawned joined];
          rewrite ?E1, ?E2, ?E3, ?E4, ?Ht, ?Hr; done.
      * intros _ _. split; [done|]. cbn [with_webcam _thread]. by rewrite Ht.
Qed.

Lemma capture_session_inv ks : forall c,
  capture_inv c ->
  capture_inv (snd (session cv_resize cv_gray2bgr ks c)) /\
  (Shimmer.Terminates ∉ fst (session cv_resize cv_gray2bgr ks c)) /\
  (Forall (fun k => k <> StartCapture true) ks -> _thread c <> Some Camera ->
   Forall (fun o => o = Shimmer.Returns ()) (fst (session cv_resize cv_gray2bgr ks c))).
Proof.
  induction ks as [|k ks IH]; intros c Hinv; cbn [session].
  - split_and!; [done| |by constructor]. apply not_elem_of_nil.
  - destruct (capture_exec_inv k c Hinv) as (H1 & H2 & H3).
    destruct (exec cv_resize cv_gray2bgr k c) as [o c1]. cbn [fst snd] in *.
    destruct (IH c1 H1) as (H4 & H5 & H6).
    destruct (session cv_resize cv_gray2bgr ks c1) as [os c2]. cbn [fst snd] in *.
    split_and!; [done| |].
    + apply not_elem_of_cons. by split.
    + intros Hks Hc. apply Forall_cons in Hks as [Hk Hks].
      destruct (H3 Hk Hc) as [-> Hc1]. constructor; [done|]. by apply H6.
Qed.

End Facts.
End CaptureFacts.

(** X13.  The capture thread of [NativeWebcam] over any calls of
    [start_capture] and [stop_capture] and any iterations of its loop,
    from the constructor on: no call ends the process; the flag
    [_running] is set exactly while a thread is joinable and one thread at
    most is live; the frame stays 480 x 640 x 3 with a buffer of 921600
    bytes; [start_capture] on a capturing webcam changes nothing; no frame
    is written while the webcam is not capturing; [stop_capture] returns
    with the thread joined and the last frame kept, and a second one
    changes nothing; and when no camera is opened every call returns. *)
Theorem capture_lifecycle cv_resize cv_gray2bgr (device_id : Z) (ks : list Capture.call) :
  let c := snd (Capture.session cv_resize cv_gray2bgr ks (Capture.Capture_new device_id)) in
  let outs := fst (Capture.session cv_resize cv_gray2bgr ks (Capture.Capture_new device_id)) in
  let c' := snd (Capture.stop_capture c) in
  (Shimmer.Terminates ∉ outs) /\
  (Webcam._running (Capture.webcam c) = true <-> is_Some (Capture._thread c)) /\
  (Capture.live c = if Webcam._running (Capture.webcam c) then 1%nat else 0%nat) /\
  Webcam.get_latest_frame (Capture.webcam c)
    = ([480; 640; 3], [1920; 3; 1], Webcam._buffer (Capture.webcam c)) /\
  Z.of_nat (length (Webcam._buffer (Capture.webcam c))) = 921600 /\
  (Webcam._running (Capture.webcam c) = true ->
     forall opened, Capture.start_capture opened c = (Shimmer.Returns (), c)) /\
  (Webcam._running (Capture.webcam c) = false ->
     forall a shift, Capture.cycle cv_resize cv_gray2bgr a shift c = (Shimmer.Returns (), c)) /\
  (fst (Capture.stop_capture c) = Shimmer.Returns () /\
   Webcam._running (Capture.webcam c') = false /\ Capture._thread c' = None /\
   Capture.live c' = 0%nat /\
   Webcam._buffer (Capture.webcam c') = Webcam._buffer (Capture.webcam c) /\
   Capture.stop_capture c' = (Shimmer.Returns (), c')) /\
  (Forall (fun k => k <> Capture.StartCapture true) ks ->
   Forall (fun o => o = Shimmer.Returns ()) outs).
Proof.
  intros c outs c'.
  destruct (CaptureFacts.capture_session_inv cv_resize cv_gray2bgr ks (Capture.Capture_new device_id)
              (CaptureFacts.capture_inv_new device_id)) as ([Hth Hlive Hw Hh Hb] & Hterm & Hret).
  fold c in Hth, Hlive, Hw, Hh, Hb. fold outs in Hterm, Hret.
  subst c'. clearbody c outs.
  assert (Capture.live c = if Webcam._running (Capture.webcam c) then 1%nat else 0%nat)
    as Hl.
  { unfold Capture.live. rewrite Hlive.
    destruct (Capture._thread c) as [src|] eqn:Ht.
    - rewrite (proj2 Hth (mk_is_Some _ _ eq_refl)). lia.
    - destruct (Webcam._running (Capture.webcam c)); [|lia].
      by destruct (proj1 Hth eq_refl) as [? ?]. }
  assert (Forall (fun k => k <> Capture.StartCapture true) ks ->
          Forall (fun o => o = Returns ()) outs) as Hret'
    by (intros H; apply Hret; [exact H|discriminate]).
  refine (conj Hterm (conj Hth (conj Hl (conj _ (conj _ (conj _ (conj _ (conj _ Hret')))))))).
  - unfold Webcam.get_latest_frame. by rewrite Hw, Hh.
  - lia.
  - intros Hr opened. unfold Capture.start_capture. by rewrite Hr.
  - intros Hr a shift. unfold Capture.cycle. rewrite Hr. by destruct (Capture._thread c).
  - unfold Capture.stop_capture, Capture.live.
    destruct (Capture._thread c) as [src|] eqn:Ht;
      cbn [fst snd Capture.webcam Capture._thread Capture.spawned Capture.joined
           Capture.with_webcam Capture.set_running Webcam._running Webcam._buffer
           Webcam._device_id Webcam._width Webcam._height];
      rewrite ?Ht; split_and!; try done; lia.
Qed.

(** ** The stub of the Shimmer C API *)

Module StubFacts.
Import Stub.

Lemma packet_spec (call_count : Z) (e : reading) (packet : ShimmerDataPacket) :
  0 <= call_count < INT_MAX -> 0 <= rand1 e -> 0 <= rand2 e ->
  exists code p,
    Shimmer_getNextDataPacket call_count e packet = Some (call_count + 1, code, p) /\
    ((call_count + 1) mod 10 = 0 -> code = SHIMMER_TIMEOUT /\ p = packet) /\
    ((call_count + 1) mod 10 <> 0 ->
       code = SHIMMER_OK /\ has_gsr p = true /\ has_ppg p = true /\
       timestamp_ms p = now_ms e mod 2 ^ 64 /\
       2000 <= gsr_raw p <= 2499 /\ 1500 <= ppg_raw p <= 2499).
Proof.
  intros Hc H1 H2. unfold Shimmer_getNextDataPacket.
  destruct (Z.leb_spec INT_MAX call_count) as [|_]; [lia|].
  rewrite Z.rem_mod_nonneg by lia.
  destruct (Z.eqb_spec ((call_count + 1) mod 10) 0) as [Heq|Hne].
  - eexists _, _. split; [reflexivity|]. split; [done|]. intros ?. done.
  - eexists _, _. split; [reflexivity|]. split; [done|]. intros _.
    cbn [has_gsr has_ppg timestamp_ms gsr_raw ppg_raw].
    rewrite !Z.rem_mod_nonneg by lia.
    pose proof (Z.mod_pos_bound (rand1 e) 500 ltac:(lia)).
    pose proof (Z.mod_pos_bound (rand2 e) 1000 ltac:(lia)).
    rewrite (Z.mod_small (2000 + _)), (Z.mod_small (1500 + _)) by lia.
    split_and!; (done || lia).
Qed.

Lemma poll_spec (es : list reading) : forall (call_count : Z) (p0 : ShimmerDataPacket),
  0 <= call_count -> call_count + Z.of_nat (length es) <= INT_MAX ->
  Forall (fun e => 0 <= rand1 e /\ 0 <= rand2 e) es ->
  exists res,
    poll es call_count p0 = Some res /\ length res = length es /\
    forall (k : nat) code p, res !! k = Some (code, p) ->
      ((call_count + Z.of_nat k + 1) mod 10 = 0 ->
         code = SHIMMER_TIMEOUT /\
         p = match k with
             | O => p0
             | S k' => default p0 (snd <$> res !! k')
             end) /\
      ((call_count + Z.of_nat k + 1) mod 10 <> 0 ->
         code = SHIMMER_OK /\ has_gsr p = true /\ has_ppg p = true /\
         2000 <= gsr_raw p <= 2499 /\ 1500 <= ppg_raw p <= 2499).
Proof.
  induction es as [|e es IH]; intros call_count p0 Hc Hlen Hr; cbn [poll].
  - exists []. split_and!; [done..|]. intros k code p Hk. by rewrite lookup_nil in Hk.
  - apply Forall_cons in Hr as [[Hr1 Hr2] Hr]. cbn [length] in Hlen.
    destruct (packet_spec call_count e p0 ltac:(lia) Hr1 Hr2) as (code & p & -> & Ht & Hok).
    cbn [mbind option_bind].
    destruct (IH (call_count + 1) p ltac:(lia) ltac:(lia) Hr) as (res & -> & Hlen' & Hres).
    cbn [mbind option_bind]. eexists. split; [reflexivity|]. split; [cbn; lia|].
    intros [|k] code' p' Hk; cbn in Hk.
    + injection Hk as <- <-. rewrite Z.add_0_r. split; [done|].
      intros Hne. destruct (Hok Hne) as (? & ? & ? & _ & ? & ?). done.
    + destruct (Hres k code' p' Hk) as [H1 H2].
      replace (call_count + Z.of_nat (S k) + 1) with (call_count + 1 + Z.of_nat k + 1) by lia.
      split; [|done]. intros Hz. destruct (H1 Hz) as [-> ->]. split; [done|].
      destruct k as [|k']; [done|].
      change (((code, p) :: res) !! S k') with (res !! k').
      destruct (lookup_lt_is_Some_2 res k') as [x ->]; [|done].
      apply lookup_lt_Some in Hk. lia.
Qed.

End StubFacts.

(** X14.  [Shimmer_getNextDataPacket] of the stub over the calls of a
    process (fewer than 2^31, results of [rand()] not negative): every
    call returns; exactly every tenth call returns [SHIMMER_TIMEOUT] and
    leaves the packet as the call before left it; every other call returns
    [SHIMMER_OK] with both flags set, a GSR value in 2000..2499, inside the
    12 bits of the converter, and a PPG value in 1500..2499. *)
Theorem stub_packets (es : list Stub.reading) (p0 : Stub.ShimmerDataPacket) :
  Z.of_nat (length es) <= Stub.INT_MAX ->
  Forall (fun e => 0 <= Stub.rand1 e /\ 0 <= Stub.rand2 e) es ->
  exists res,
    Stub.poll es 0 p0 = Some res /\ length res = length es /\
    forall (k : nat) code p, res !! k = Some (code, p) ->
      ((Z.of_nat k + 1) mod 10 = 0 ->
         code = Stub.SHIMMER_TIMEOUT /\
         p = match k with
             | O => p0
             | S k' => default p0 (snd <$> res !! k')
             end) /\
      ((Z.of_nat k + 1) mod 10 <> 0 ->
         code = Stub.SHIMMER_OK /\ Stub.has_gsr p = true /\ Stub.has_ppg p = true /\
         2000 <= Stub.gsr_raw p <= 2499 /\ Stub.gsr_raw p <= 4095 /\
         1500 <= Stub.ppg_raw p <= 2499).
Proof.
  intros Hlen Hr.
  destruct (StubFacts.poll_spec es 0 p0 ltac:(lia) ltac:(lia) Hr) as (res & Hres & Hl & Hall).
  exists res. split_and!; [done..|].
  intros k code p Hk. destruct (Hall k code p Hk) as [H1 H2]. rewrite Z.add_0_l in H1, H2.
  split; [done|]. intros Hne. destruct (H2 Hne) as (? & ? & ? & ? & ?).
  split_and!; (done || lia).
Qed.

Lemma stub_packets_witness :
  let es := replicate 10 {| Stub.now_ms := 5; Stub.rand1 := 1234; Stub.rand2 := 4321 |} in
  let p0 := {| Stub.timestamp_ms := 0; Stub.has_gsr := false; Stub.has_ppg := false;
               Stub.gsr_raw := 0; Stub.ppg_raw := 0 |} in
  Z.of_nat (length es) <= Stub.INT_MAX /\
  Forall (fun e => 0 <= Stub.rand1 e /\ 0 <= Stub.rand2 e) es /\
  exists res, Stub.poll es 0 p0 = Some res /\ length res = length es.
Proof.
  intros es p0.
  assert (Z.of_nat (length es) <= Stub.INT_MAX) as H1 by (vm_compute; discriminate).
  assert (Forall (fun e => 0 <= Stub.rand1 e /\ 0 <= Stub.rand2 e) es) as H2
    by (repeat constructor; cbn; lia).
  refine (conj H1 (conj H2 _)).
  destruct (stub_packets es p0 H1 H2) as (res & Hres & Hlen & _).
  exists res. exact (conj Hres Hlen).
Defined.

Module NameFacts.
Import Stub.

Lemma c_str_app (l rest : list Z) :
  Forall (fun x => x <> 0) l -> c_str (l ++ 0 :: rest) = l.
Proof.
  induction 1 as [|x l Hx _ IH]; cbn [app c_str]; [done|].
  destruct (Z.eqb_spec x 0); [done|]. by rewrite IH.
Qed.

(** The copy of a name of non-zero bytes into a buffer: [strncpy] with
    [buffer_size - 1] and the NUL written at [buffer_size - 1]. *)
Lemma copy_spec (name buffer : list Z) (buffer_size : Z) :
  Forall (fun x => x <> 0) name ->
  1 <= buffer_size <= Z.of_nat (length buffer) -> buffer_size <= Word.modulus ->
  exists b', (b ← strncpy buffer name (Word.wrap (buffer_size - 1));
              vset b (buffer_size - 1) 0) = Some b' /\
    length b' = length buffer /\
    c_str b' = take (Z.to_nat (buffer_size - 1)) name /\
    drop (Z.to_nat buffer_size) b' = drop (Z.to_nat buffer_size) buffer.
Proof.
  intros Hname Hsize Hmod.
  rewrite wrap_small by lia. unfold strncpy.
  destruct (Z.leb_spec (buffer_size - 1) (Z.of_nat (length buffer))) as [_|]; [|lia].
  cbn [mbind option_bind].
  set (n := Z.to_nat (buffer_size - 1)).
  assert (n < length buffer)%nat as Hn by lia.
  set (b := take n (name ++ replicate (n - length name) 0) ++ drop n buffer).
  assert (length (take n (name ++ replicate (n - length name) 0)) = n) as Hlt.
  { rewrite length_take, length_app, length_replicate. lia. }
  assert (length b = length buffer) as Hlb.
  { subst b. rewrite length_app, Hlt, length_drop. lia. }
  rewrite vset_some by lia. eexists. split; [reflexivity|].
  replace (Z.to_nat (buffer_size - 1)) with n by done.
  replace (Z.to_nat buffer_size) with (S n) by lia.
  split_and!.
  - by rewrite length_insert.
  - destruct (drop n buffer) as [|y rest] eqn:Hd.
    { apply (f_equal length) in Hd. rewrite length_drop in Hd. cbn in Hd. lia. }
    destruct (decide (n <= length name)%nat) as [Hle|Hgt].
    + subst b. replace (n - length name)%nat with 0%nat by lia.
      cbn [replicate]. rewrite app_nil_r.
      rewrite insert_app_r_alt by (rewrite length_take; lia).
      rewrite length_take. replace (n - n `min` length name)%nat with 0%nat by lia.
      cbn [insert list_insert]. apply c_str_app. by apply Forall_take.
    + subst b. rewrite take_ge by (rewrite length_app, length_replicate; lia).
      destruct (n - length name)%nat as [|m] eqn:Hm; [lia|].
      cbn [replicate]. rewrite <- app_assoc. cbn [app].
      rewrite insert_app_r_alt by lia. rewrite Hm.
      cbn [insert list_insert]. rewrite (take_ge name n) by lia. by apply c_str_app.
  - subst b. rewrite drop_insert_lt by lia.
    rewrite drop_app_ge by lia. rewrite Hlt, drop_drop. f_equal. lia.
Qed.

Lemma copy_overflow (name buffer : list Z) (buffer_size : Z) :
  Z.of_nat (length buffer) < 2 ^ 63 -> - 2 ^ 31 <= buffer_size < 2 ^ 31 ->
  buffer_size <= 0 \/ Z.of_nat (length buffer) < buffer_size ->
  (b ← strncpy buffer name (Word.wrap (buffer_size - 1)); vset b (buffer_size - 1) 0) = None.
Proof.
  intros Hbuf Hint [Hle|Hgt].
  - unfold strncpy.
    assert (Word.wrap (buffer_size - 1) = Word.modulus + (buffer_size - 1)) as ->.
    { unfold Word.wrap. symmetry. apply (Z.mod_unique _ _ (-1)); unfold Word.modulus; lia. }
    destruct (Z.leb_spec (Word.modulus + (buffer_size - 1)) (Z.of_nat (length buffer)));
      [unfold Word.modulus in *; lia|done].
  - rewrite wrap_small by (unfold Word.modulus; lia). unfold strncpy.
    destruct (Z.leb_spec (buffer_size - 1) (Z.of_nat (length buffer))) as [Heq|]; [|done].
    cbn [mbind option_bind]. unfold vset.
    set (b := _ ++ _).
    assert (length b = length buffer) as Hlb.
    { subst b. rewrite length_app, length_take, length_app, length_replicate, length_drop. lia. }
    rewrite Hlb. destruct (Z.ltb_spec (buffer_size - 1) (Z.of_nat (length buffer))); [lia|].
    by rewrite andb_false_r.
Qed.

Lemma name_bytes : Forall (fun x => x <> 0) (bytes "Shimmer3 GSR+ Stub").
Proof. vm_compute. repeat (constructor; [discriminate|]). constructor. Qed.

Lemma version_bytes : Forall (fun x => x <> 0) (bytes "0.1.0-stub").
Proof. vm_compute. repeat (constructor; [discriminate|]). constructor. Qed.

End NameFacts.

(** X15.  [Shimmer_getDeviceName] and [Shimmer_getFirmwareVersion] of the
    stub on a buffer of at least [buffer_size] bytes, [buffer_size] at
    least 1: they return [SHIMMER_OK], the buffer holds the name cut to
    [buffer_size - 1] bytes as a NUL-terminated string, the whole name
    when [buffer_size] exceeds its length (18 and 10 bytes), and nothing
    behind [buffer_size] bytes is written.  With a [buffer_size] of zero
    or less, or larger than the buffer, the call writes outside the
    buffer. *)
Theorem stub_names_truncated (buffer : list Z) (buffer_size : Z) :
  Z.of_nat (length buffer) < 2 ^ 63 -> - 2 ^ 31 <= buffer_size < 2 ^ 31 ->
  (1 <= buffer_size <= Z.of_nat (length buffer) ->
     (exists b, Stub.Shimmer_getDeviceName buffer buffer_size = Some (Stub.SHIMMER_OK, b) /\
        length b = length buffer /\
        Stub.c_str b = take (Z.to_nat (buffer_size - 1)) (Stub.bytes "Shimmer3 GSR+ Stub") /\
        (18 < buffer_size -> Stub.c_str b = Stub.bytes "Shimmer3 GSR+ Stub") /\
        drop (Z.to_nat buffer_size) b = drop (Z.to_nat buffer_size) buffer) /\
     (exists b, Stub.Shimmer_getFirmwareVersion buffer buffer_size
                  = Some (Stub.SHIMMER_OK, b) /\
        length b = length buffer /\
        Stub.c_str b = take (Z.to_nat (buffer_size - 1)) (Stub.bytes "0.1.0-stub") /\
        (10 < buffer_size -> Stub.c_str b = Stub.bytes "0.1.0-stub") /\
        drop (Z.to_nat buffer_size) b = drop (Z.to_nat buffer_size) buffer)) /\
  (buffer_size <= 0 \/ Z.of_nat (length buffer) < buffer_size ->
     Stub.Shimmer_getDeviceName buffer buffer_size = None /\
     Stub.Shimmer_getFirmwareVersion buffer buffer_size = None).
Proof.
  intros Hbuf Hint. split.
  - intros Hsize. split.
    + destruct (NameFacts.copy_spec (Stub.bytes "Shimmer3 GSR+ Stub") buffer buffer_size
                  NameFacts.name_bytes Hsize ltac:(unfold Word.modulus; lia))
        as (b & Hb & Hlen & Hstr & Hdrop).
      exists b. unfold Stub.Shimmer_getDeviceName. cbv zeta.
      split_and!; [|done|done| |done].
      * destruct (Stub.strncpy _ _ _) as [b0|]; cbn [mbind option_bind] in *; [|done].
        by rewrite Hb.
      * intros Hlong. rewrite Hstr. apply take_ge.
        change (length (Stub.bytes "Shimmer3 GSR+ Stub")) with 18%nat. lia.
    + destruct (NameFacts.copy_spec (Stub.bytes "0.1.0-stub") buffer buffer_size
                  NameFacts.version_bytes Hsize ltac:(unfold Word.modulus; lia))
        as (b & Hb & Hlen & Hstr & Hdrop).
      exists b. unfold Stub.Shimmer_getFirmwareVersion. cbv zeta.
      split_and!; [|done|done| |done].
      * destruct (Stub.strncpy _ _ _) as [b0|]; cbn [mbind option_bind] in *; [|done].
        by rewrite Hb.
      * intros Hlong. rewrite Hstr. apply take_ge.
        change (length (Stub.bytes "0.1.0-stub")) with 10%nat. lia.
  - intros Hbad. unfold Stub.Shimmer_getDeviceName, Stub.Shimmer_getFirmwareVersion. cbv zeta.
    pose proof (NameFacts.copy_overflow (Stub.bytes "Shimmer3 GSR+ Stub") buffer buffer_size
                  Hbuf Hint Hbad) as H1.
    pose proof (NameFacts.copy_overflow (Stub.bytes "0.1.0-stub") buffer buffer_size
                  Hbuf Hint Hbad) as H2.
    split.
    + clear H2. destruct (Stub.strncpy _ _ _) as [b0|]; cbn [mbind option_bind] in *; [|done].
      by rewrite H1.
    + clear H1. destruct (Stub.strncpy _ _ _) as [b0|]; cbn [mbind option_bind] in *; [|done].
      by rewrite H2.
Qed.

Lemma stub_names_truncated_witness :
  let buffer := replicate 8 65 in
  Z.of_nat (length buffer) < 2 ^ 63 /\ - 2 ^ 31 <= 8 < 2 ^ 31 /\
  1 <= 8 <= Z.of_nat (length buffer) /\
  exists b, Stub.Shimmer_getDeviceName buffer 8 = Some (Stub.SHIMMER_OK, b) /\
            Stub.c_str b = Stub.bytes "Shimmer".
Proof.
  intros buffer.
  assert (Z.of_nat (length buffer) < 2 ^ 63) as H1 by (vm_compute; reflexivity).
  assert (- 2 ^ 31 <= 8 < 2 ^ 31) as H2 by lia.
  assert (1 <= 8 <= Z.of_nat (length buffer)) as H3 by (vm_compute; split; discriminate).
  refine (conj H1 (conj H2 (conj H3 _))).
  destruct (proj1 (proj1 (stub_names_truncated buffer 8 H1 H2) H3))
    as (b & Hb & _ & Hstr & _).
  exists b. exact (conj Hb Hstr).
Defined.

(** ** A failed [connect] on a running stream *)

(** X16.  A failed [connect] does not stop a stream that is streaming: in
    every state a session can reach with [_running] set, [connect("FAIL")]
    throws and leaves the stream [Disconnected] with the flag still set
    and the thread still there; the loop goes on pushing a sample at each
    deadline; [start_streaming] now throws the not-connected error and
    changes nothing; and [stop_streaming] still joins the thread. *)
Theorem failed_connect_keeps_streaming sin s0 (cs : list call) :
  NativeShimmer_new = Some s0 ->
  let s := snd (session sin cs s0) in
  let s1 := snd (connect "FAIL" s) in
  _running s = true ->
  fst (connect "FAIL" s) = Throws (ConnectionError "FAIL") /\
  state_of s1 = Disconnected /\ get_device_info s1 = "Not connected"%string /\
  _running s1 = true /\ _thread s1 = _thread s /\ is_Some (_thread s1) /\
  _queue s1 = _queue s /\ live s1 = 1%nat /\
  (forall now phase t_next,
     _thread s = Some (Looping phase t_next) -> t_next <= now ->
     exists q, push (seconds_of now) (gsr_sample sin phase (lcg (_rng s))) (_queue s) = Some q /\
               fst (loop_step sin now s1) = Returns () /\
               _queue (snd (loop_step sin now s1)) = q /\
               _head q = wrap (_head (_queue s) + 1)) /\
  start_streaming s1 = (Throws NotConnectedError, s1) /\
  (fst (stop_streaming s1) = Returns () /\
   _running (snd (stop_streaming s1)) = false /\
   _thread (snd (stop_streaming s1)) = None /\
   live (snd (stop_streaming s1)) = 0%nat).
Proof.
  intros Hnew s s1 Hrun.
  destruct (reachable_inv sin s0 cs Hnew) as (hist & T & Hinv). fold s in Hinv.
  pose proof Hinv as [Hth Hlive Hq Hfl].
  assert (is_Some (_thread s)) as [c Hc].
  { destruct (_thread s) eqn:E; [by eexists|]. destruct Hth as [_ Hth].
    specialize (Hth eq_refl). congruence. }
  pose proof (connect_inv "FAIL" s hist T Hinv) as Hinv1. fold s1 in Hinv1.
  destruct (stop_inv s1 hist T Hinv1) as (_ & Hstop2 & Hstop3).
  subst s1. unfold connect in *. cbn [String.eqb Ascii.eqb Bool.eqb negb set_connection
                                       _connected fst snd] in *.
  split_and!; try done.
  - unfold live. cbn [set_connection spawned joined]. rewrite Hlive, Hc. lia.
  - intros now phase t_next Ht Hnow.
    destruct (push_head (seconds_of now) (gsr_sample sin phase (lcg (_rng s))) (_queue s)
                (Ring.inv_wf _ _ _ Hq)) as (q & Hpush & _ & Hhd).
    exists q. unfold loop_step. cbn [set_connection _thread _running _queue _rng negb].
    rewrite Ht, Hrun. cbn [negb].
    destruct (Z.ltb_spec now t_next); [lia|]. rewrite Hpush. done.
  - unfold stop_streaming, loop_exit. cbn [set_running set_connection _thread].
    destruct (_thread s); reflexivity.
Qed.

Lemma failed_connect_keeps_streaming_witness :
  let s := snd (session (fun x => x) [Connect "COM3"; Start; LoopStep 1000] shimmer0) in
  NativeShimmer_new = Some shimmer0 /\ _running s = true /\
  state_of (snd (connect "FAIL" s)) = Disconnected /\
  _running (snd (connect "FAIL" s)) = true.
Proof.
  intros s.
  assert (NativeShimmer_new = Some shimmer0) as H1 by reflexivity.
  assert (_running s = true) as H2 by reflexivity.
  refine (conj H1 (conj H2 _)).
  destruct (failed_connect_keeps_streaming (fun x => x) shimmer0
              [Connect "COM3"; Start; LoopStep 1000] H1 H2) as (_ & H3 & _ & H4 & _).
  exact (conj H3 H4).
Defined.
